(** * logrustash: a logrus hook that ships log entries to Logstash

    A shallow embedding of [logstash.go].  The hook owns a bounded
    channel of pending entries; one background goroutine (started by
    [init]) drains it, formats every entry and writes the bytes to a
    network connection, re-dialling with a capped backoff whenever a
    dial or a write fails.

    Conventions of the embedding:
    - [time.Duration] is a count of nanoseconds in [Z]; every duration
      the code computes stays far below 2^63, so no wrap-around occurs;
    - the [float64] arithmetic of the backoff is IEEE 754 binary64, taken
      from the standard library's [SpecFloat];
    - methods with a pointer receiver thread the hook through a state
      monad, together with the heap of entries ([*logrus.Entry] is a
      location) and the outside world (network, clock, logger);
    - a map value is [nil] or the contents of a map that was made: a nil
      map reads as the empty map, deleting from it does nothing and
      assigning to it panics.  The hook and every entry hold their own
      map; two map values that share one storage are not modelled;
    - the network is an oracle that answers the k-th dial and the k-th
      write; every effect is recorded in a trace of events;
    - loops that the code runs without bound take a fuel argument, and
      [Starved] is the outcome of a run that is still looping when the
      fuel is spent. *)

From Stdlib Require Import ZArith Lia SpecFloat.
From stdpp Require Import base option list gmap strings.

(** ** Durations ([time] package) *)

Module time.
Definition Duration := Z.
Definition Nanosecond : Duration := 1%Z.
Definition Microsecond : Duration := (1000 * Nanosecond)%Z.
Definition Millisecond : Duration := (1000 * Microsecond)%Z.
Definition Second : Duration := (1000 * Millisecond)%Z.
End time.

(** ** binary64 arithmetic used by the backoff *)

Module float64.
Definition prec : Z := 53%Z.
Definition emax : Z := 1024%Z.

(** [float64(n)] for an integer [n]: rounding to nearest, ties to even. *)
Definition of_int (n : Z) : spec_float := binary_normalize prec emax n 0 false.

Definition mul : spec_float → spec_float → spec_float := SFmul prec emax.
Definition div : spec_float → spec_float → spec_float := SFdiv prec emax.

(** Conversion of a finite float to an integer discards the fraction
    (truncation towards zero). *)
Definition to_int (f : spec_float) : Z :=
  match f with
  | S754_finite s m e =>
      let mag := if (0 <=? e)%Z then (Z.pos m * 2 ^ e)%Z
                 else (Z.pos m / 2 ^ (- e))%Z in
      if s then (- mag)%Z else mag
  | _ => 0%Z
  end.
End float64.

(** The body shared by both retry loops:
<<
    delay = time.Duration(float64(delay) * 6 / 5)
    if delay > time.Second { delay = time.Second }
>> *)
Definition nextDelay (delay : time.Duration) : time.Duration :=
  let delay :=
    float64.to_int
      (float64.div (float64.mul (float64.of_int delay) (float64.of_int 6))
                   (float64.of_int 5)) in
  if (time.Second <? delay)%Z then time.Second else delay.

(** [delay := time.Millisecond * 10] *)
Definition initialDelay : time.Duration := (time.Millisecond * 10)%Z.

(** The delay slept after the [n]-th consecutive failure (counting from 0). *)
Fixpoint backoff (n : nat) : time.Duration :=
  match n with
  | O => initialDelay
  | S n' => nextDelay (backoff n')
  end.

(** ** The logging framework's data ([logrus]) *)

Module logrus.
Inductive Level :=
| PanicLevel | FatalLevel | ErrorLevel | WarnLevel
| InfoLevel | DebugLevel | TraceLevel.

(** A field value is an [interface{}]; the hook only moves values around,
    so a small universe of them is enough ([VOpaque] stands for anything
    else, a channel or a function for instance). *)
Inductive Value :=
| VNil
| VBool (b : bool)
| VInt (n : Z)
| VString (s : string)
| VError (msg : string)
| VOpaque (id : positive).

(** [type Fields map[string]interface{}]: [None] is the nil map, [Some]
    holds the contents of a map that was made. *)
Abbreviation Fields := (option (gmap string Value)).

(** What ranging over a map and reading from it see: nothing in a nil
    map. *)
Definition contents (f : Fields) : gmap string Value := default ∅ f.

(** The fields of [logrus.Entry] the hook and its formatter look at.  An
    entry made as [&logrus.Entry{...}] without [Data] has the nil map. *)
Record Entry := {
  Data : Fields;
  Time : Z;
  Level_ : Level;
  Message : string;
}.

(** The entry with the map [d] behind [entry.Data]. *)
Definition with_Data (d : Fields) (e : Entry) : Entry :=
  {| Data := d; Time := Time e; Level_ := Level_ e; Message := Message e |}.
End logrus.

(** [v, ok := f[key]] *)
#[global] Instance Fields_lookup : Lookup string logrus.Value logrus.Fields :=
  λ key f, logrus.contents f !! key.

(** [f[key] = value]: the map with the field set, or the message of the
    panic when the map is nil. *)
Definition mapassign (key : string) (value : logrus.Value) (f : logrus.Fields)
    : logrus.Fields + string :=
  match f with
  | Some fields => inl (Some (<[key := value]> fields))
  | None => inr "assignment to entry in nil map"
  end.

(** [delete(f, key)] *)
Definition mapdelete (key : string) (f : logrus.Fields) : logrus.Fields :=
  delete key <$> f.

#[global] Instance Level_eq_dec : EqDecision logrus.Level.
Proof. solve_decision. Defined.
#[global] Instance Value_eq_dec : EqDecision logrus.Value.
Proof. solve_decision. Defined.

(** ** The hook *)

(** A [*logrus.Entry]. *)
Definition loc := positive.

(** An [error] value, identified by its message. *)
Definition error := string.

(** [context.DeadlineExceeded] *)
Definition DeadlineExceeded : error := "context deadline exceeded".

(** A [net.Conn], identified by the dial that produced it, or by a number
    when it was put into the hook by hand (as the tests of the package do). *)
Inductive Conn :=
| Supplied (id : nat)
| Dialled (attempt : nat).

(** [chan *logrus.Entry]: the buffered entries, oldest first, and the
    capacity given to [make].  A send finds room when the buffer is
    shorter than the capacity; a goroutine blocked in a send is a
    producer that has not yet taken its step (see [FireState]).  The
    direct hand-over of an entry to a receiver that is already waiting is
    the same as a send followed by a receive, since every channel the
    package makes has a buffer. *)
Record Chan := {
  buf : list loc;
  cap : nat;
}.

Record Hook := {
  sendingLocker : bool;                 (* sync.Mutex: true when held *)
  conn : option Conn;                   (* nil is None *)
  protocol : string;
  address : string;
  appName : string;
  alwaysSentFields : logrus.Fields;
  hookOnlyPrefix : string;
  TimeFormat : string;
  fireChannel : Chan;
  WaitUntilBufferFrees : bool;
  Timeout : time.Duration;
  MaxSendRetries : Z;
  ReconnectBaseDelay : time.Duration;
  ReconnectDelayMultiplier : spec_float;
  MaxReconnectRetries : Z;
}.

Definition set_sendingLocker (b : bool) (h : Hook) : Hook :=
  {| sendingLocker := b; conn := conn h; protocol := protocol h;
     address := address h; appName := appName h;
     alwaysSentFields := alwaysSentFields h;
     hookOnlyPrefix := hookOnlyPrefix h; TimeFormat := TimeFormat h;
     fireChannel := fireChannel h;
     WaitUntilBufferFrees := WaitUntilBufferFrees h; Timeout := Timeout h;
     MaxSendRetries := MaxSendRetries h;
     ReconnectBaseDelay := ReconnectBaseDelay h;
     ReconnectDelayMultiplier := ReconnectDelayMultiplier h;
     MaxReconnectRetries := MaxReconnectRetries h |}.

Definition set_conn (c : option Conn) (h : Hook) : Hook :=
  {| sendingLocker := sendingLocker h; conn := c; protocol := protocol h;
     address := address h; appName := appName h;
     alwaysSentFields := alwaysSentFields h;
     hookOnlyPrefix := hookOnlyPrefix h; TimeFormat := TimeFormat h;
     fireChannel := fireChannel h;
     WaitUntilBufferFrees := WaitUntilBufferFrees h; Timeout := Timeout h;
     MaxSendRetries := MaxSendRetries h;
     ReconnectBaseDelay := ReconnectBaseDelay h;
     ReconnectDelayMultiplier := ReconnectDelayMultiplier h;
     MaxReconnectRetries := MaxReconnectRetries h |}.

Definition set_alwaysSentFields (f : logrus.Fields) (h : Hook) : Hook :=
  {| sendingLocker := sendingLocker h; conn := conn h; protocol := protocol h;
     address := address h; appName := appName h;
     alwaysSentFields := f;
     hookOnlyPrefix := hookOnlyPrefix h; TimeFormat := TimeFormat h;
     fireChannel := fireChannel h;
     WaitUntilBufferFrees := WaitUntilBufferFrees h; Timeout := Timeout h;
     MaxSendRetries := MaxSendRetries h;
     ReconnectBaseDelay := ReconnectBaseDelay h;
     ReconnectDelayMultiplier := ReconnectDelayMultiplier h;
     MaxReconnectRetries := MaxReconnectRetries h |}.


Definition set_fireChannel (c : Chan) (h : Hook) : Hook :=
  {| sendingLocker := sendingLocker h; conn := conn h; protocol := protocol h;
     address := address h; appName := appName h;
     alwaysSentFields := alwaysSentFields h;
     hookOnlyPrefix := hookOnlyPrefix h; TimeFormat := TimeFormat h;
     fireChannel := c;
     WaitUntilBufferFrees := WaitUntilBufferFrees h; Timeout := Timeout h;
     MaxSendRetries := MaxSendRetries h;
     ReconnectBaseDelay := ReconnectBaseDelay h;
     ReconnectDelayMultiplier := ReconnectDelayMultiplier h;
     MaxReconnectRetries := MaxReconnectRetries h |}.

Definition set_retries (maxSend maxReconnect : Z) (h : Hook) : Hook :=
  {| sendingLocker := sendingLocker h; conn := conn h; protocol := protocol h;
     address := address h; appName := appName h;
     alwaysSentFields := alwaysSentFields h;
     hookOnlyPrefix := hookOnlyPrefix h; TimeFormat := TimeFormat h;
     fireChannel := fireChannel h;
     WaitUntilBufferFrees := WaitUntilBufferFrees h; Timeout := Timeout h;
     MaxSendRetries := maxSend;
     ReconnectBaseDelay := ReconnectBaseDelay h;
     ReconnectDelayMultiplier := ReconnectDelayMultiplier h;
     MaxReconnectRetries := maxReconnect |}.

(** [LogstashFormatter{Type: ..., TimestampFormat: ...}] *)
Record LogstashFormatter := {
  Type_ : string;
  TimestampFormat : string;
}.

(** The signature of [LogstashFormatter.FormatWithPrefix]; the formatter
    lives in another file of the package and is a parameter here.  It
    reads the entry and returns bytes or an error. *)
Definition Formatter :=
  LogstashFormatter → logrus.Entry → string → list Byte.byte + error.

(** ** The outside world *)

(** Everything the hook does to its surroundings, in program order. *)
Inductive Event :=
| EvDial (protocol address : string) (result : Conn + error)
| EvSetWriteDeadline (c : Conn) (timeout : time.Duration)
| EvWrite (c : Conn) (data : list Byte.byte) (err : option error)
| EvSleep (d : time.Duration)
| EvLogError (msg : string)
| EvLock
| EvUnlock
| EvRecover (panic : string).

(** The network decides the fate of the k-th call of [net.Dial] and of the
    k-th call of [Write], counted over the whole run. *)
Record Net := {
  dialResult : nat → option error;
  writeResult : nat → option error;
}.

Record World := {
  network : Net;
  dials : nat;
  writes : nat;
  events : list Event;
}.

(** The state a method runs in: the hook behind the receiver, the entries
    behind the [*logrus.Entry] pointers, and the world. *)
Record Machine := {
  hook : Hook;
  heap : gmap loc logrus.Entry;
  world : World;
}.

Definition with_hook (f : Hook → Hook) (m : Machine) : Machine :=
  {| hook := f (hook m); heap := heap m; world := world m |}.

Definition with_heap (f : gmap loc logrus.Entry → gmap loc logrus.Entry)
    (m : Machine) : Machine :=
  {| hook := hook m; heap := f (heap m); world := world m |}.

Definition with_world (f : World → World) (m : Machine) : Machine :=
  {| hook := hook m; heap := heap m; world := f (world m) |}.

Definition emit (e : Event) (w : World) : World :=
  {| network := network w; dials := dials w; writes := writes w;
     events := events w ++ [e] |}.

(** ** A monad for state, panics and unbounded loops *)

Inductive Res (A : Type) :=
| Done (a : A) (m : Machine)
| Panicked (msg : string) (m : Machine)
| Starved.

Arguments Done {A} a m.
Arguments Panicked {A} msg m.
Arguments Starved {A}.

Definition M (A : Type) := Machine → Res A.

#[global] Instance M_ret : MRet M := λ A (a : A) m, Done a m.

#[global] Instance M_bind : MBind M := λ A B (k : A → M B) (c : M A) m,
  match c m with
  | Done a m' => k a m'
  | Panicked msg m' => Panicked msg m'
  | Starved => Starved
  end.

Definition panic {A} (msg : string) : M A := λ m, Panicked msg m.
Definition starve {A} : M A := λ _, Starved.
Definition get_hook : M Hook := λ m, Done (hook m) m.
Definition modify_hook (f : Hook → Hook) : M unit := λ m, Done tt (with_hook f m).
Definition do_event (e : Event) : M unit := λ m, Done tt (with_world (emit e) m).

(** [defer d] around a body: [d] runs when the body returns and also
    when it panics, and the panic then goes on to the caller. *)
Definition defer {A} (d : M unit) (body : M A) : M A :=
  λ m, match body m with
       | Done a m' =>
           match d m' with
           | Done _ m'' => Done a m''
           | Panicked msg m'' => Panicked msg m''
           | Starved => Starved
           end
       | Panicked msg m' =>
           match d m' with
           | Done _ m'' => Panicked msg m''
           | Panicked msg' m'' => Panicked msg' m''
           | Starved => Starved
           end
       | Starved => Starved
       end.

(** *** Primitive operations *)

(** [log.Errorf(...)] with the message already formatted. *)
Definition logErrorf (msg : string) : M unit := do_event (EvLogError msg).

(** [time.Sleep(d)] *)
Definition timeSleep (d : time.Duration) : M unit := do_event (EvSleep d).

(** [net.Dial(protocol, address)]: a fresh connection, named after the
    attempt, or the error the network answers with. *)
Definition netDial (protocol address : string) : M (Conn + error) :=
  λ m, let w := world m in
       let k := dials w in
       let r : Conn + error :=
         match dialResult (network w) k with
         | None => inl (Dialled k)
         | Some err => inr err
         end in
       Done r (with_world (λ w,
         emit (EvDial protocol address r)
              {| network := network w; dials := S k; writes := writes w;
                 events := events w |}) m).

(** [c.Write(data)]; the byte count is ignored by every caller. *)
Definition connWrite (c : Conn) (data : list Byte.byte) : M (option error) :=
  λ m, let w := world m in
       let k := writes w in
       let r := writeResult (network w) k in
       Done r (with_world (λ w,
         emit (EvWrite c data r)
              {| network := network w; dials := dials w; writes := S k;
                 events := events w |}) m).

(** [c.SetWriteDeadline(time.Now().Add(timeout))] *)
Definition connSetWriteDeadline (c : Conn) (timeout : time.Duration) : M unit :=
  do_event (EvSetWriteDeadline c timeout).

(** A method call on [h.conn]: a nil connection panics. *)
Definition the_conn : M Conn :=
  h ← get_hook;
  match conn h with
  | Some c => mret c
  | None => panic "runtime error: invalid memory address or nil pointer dereference"
  end.

(** [h.sendingLocker.Lock()] and [Unlock()] as the sender goroutine runs
    them.  [Flush] holds the lock only for an instant, so the sender's
    [Lock] is not delayed in a way this model needs to see. *)
Definition lock : M unit :=
  modify_hook (set_sendingLocker true);; do_event EvLock.
Definition unlock : M unit :=
  modify_hook (set_sendingLocker false);; do_event EvUnlock.

(** [*entry]: a pointer outside the heap is a nil pointer. *)
Definition load (entry : loc) : M logrus.Entry :=
  λ m, match heap m !! entry with
       | Some e => Done e m
       | None =>
           Panicked "runtime error: invalid memory address or nil pointer dereference" m
       end.

Definition store (entry : loc) (e : logrus.Entry) : M unit :=
  λ m, Done tt (with_heap <[entry := e]> m).

(** ** Construction *)

(** [NewHookWithFieldsAndConnAndPrefix]; every other constructor ends
    here.  The call of [h.init()] starts the sender goroutine, which is
    the [Spawned] phase of [senderStep] below. *)
Definition NewHookWithFieldsAndConnAndPrefix
    (protocol address appName : string)
    (alwaysSentFields : logrus.Fields) (prefix : string)
    : Hook * option error :=
  ({| sendingLocker := false; conn := None;
      protocol := protocol; address := address; appName := appName;
      alwaysSentFields := alwaysSentFields; hookOnlyPrefix := prefix;
      TimeFormat := ""; fireChannel := {| buf := []; cap := 2 ^ 16 (* 65536 *) |};
      WaitUntilBufferFrees := false; Timeout := 0%Z; MaxSendRetries := 0%Z;
      ReconnectBaseDelay := 0%Z;
      ReconnectDelayMultiplier := S754_zero false;
      MaxReconnectRetries := 0%Z |}, None).

Definition NewHookWithFieldsAndConn
    (protocol address appName : string) (alwaysSentFields : logrus.Fields)
    : Hook * option error :=
  NewHookWithFieldsAndConnAndPrefix protocol address appName alwaysSentFields "".

Definition NewHookWithFieldsAndPrefix
    (protocol address appName : string)
    (alwaysSentFields : logrus.Fields) (prefix : string)
    : Hook * option error :=
  NewHookWithFieldsAndConnAndPrefix protocol address appName alwaysSentFields prefix.

Definition NewHookWithFields
    (protocol address appName : string) (alwaysSentFields : logrus.Fields)
    : Hook * option error :=
  NewHookWithFieldsAndPrefix protocol address appName alwaysSentFields "".

(** [make(logrus.Fields)] is an empty map that was made. *)
Definition NewHook (protocol address appName : string) : Hook * option error :=
  NewHookWithFields protocol address appName (Some ∅).

(** ** Setters *)


(** [h.alwaysSentFields[key] = value] *)
Definition SetField (key : string) (value : logrus.Value) : M unit :=
  h ← get_hook;
  match mapassign key value (alwaysSentFields h) with
  | inl f => modify_hook (set_alwaysSentFields f)
  | inr msg => panic msg
  end.

(** The loop of [SetFields] over the pairs in the order the [range]
    yields them. *)
Fixpoint SetFields_range (fields : list (string * logrus.Value)) : M unit :=
  match fields with
  | [] => mret tt
  | (key, value) :: rest => SetField key value;; SetFields_range rest
  end.

Definition SetFields (fields : logrus.Fields) : M unit :=
  SetFields_range (map_to_list (logrus.contents fields)).

(** ** Levels *)

Definition Levels (h : Hook) : list logrus.Level :=
  [ logrus.PanicLevel; logrus.FatalLevel; logrus.ErrorLevel;
    logrus.WarnLevel; logrus.InfoLevel; logrus.DebugLevel;
    logrus.TraceLevel ].

(** ** The hook-only filter *)

(** [strings.HasPrefix(key, prefix)] *)
Definition HasPrefix (key prefix : string) : bool := String.prefix prefix key.

(** The loop of [filterHookOnly] over the keys in the order the [range]
    yields them.  Go leaves that order open, and deleting while ranging
    is allowed. *)
Definition filterHookOnly_range (prefix : string) (keys : list string)
    (data : logrus.Fields) : logrus.Fields :=
  foldl (λ d key, if HasPrefix key prefix then mapdelete key d else d) data keys.

Definition filterHookOnly (entry : loc) : M unit :=
  h ← get_hook;
  if decide (hookOnlyPrefix h = "") then mret tt
  else
    e ← load entry;
    store entry
      (logrus.with_Data
         (filterHookOnly_range (hookOnlyPrefix h)
            (map_to_list (logrus.contents (logrus.Data e))).*1
            (logrus.Data e)) e).

(** ** Reconnecting and sending *)

(** The loop of [reconnect], entered with the current [delay]. *)
Fixpoint reconnect_loop (fuel : nat) (delay : time.Duration) : M unit :=
  match fuel with
  | O => starve
  | S fuel' =>
      h ← get_hook;
      r ← netDial (protocol h) (address h);
      match r with
      | inl c => modify_hook (set_conn (Some c))
      | inr err =>
          logErrorf ("unable to connect to " +:+ protocol h +:+ "://" +:+
                     address h +:+ ": " +:+ err);;
          timeSleep delay;;
          reconnect_loop fuel' (nextDelay delay)
      end
  end.

Definition reconnect (fuel : nat) : M unit :=
  reconnect_loop fuel initialDelay.

(** The loop of [performSend], entered with the current [delay]. *)
Fixpoint performSend_loop (fuel : nat) (data : list Byte.byte)
    (delay : time.Duration) : M unit :=
  match fuel with
  | O => starve
  | S fuel' =>
      c ← the_conn;
      err ← connWrite c data;
      match err with
      | None => mret tt
      | Some err =>
          logErrorf ("unable to write: " +:+ err);;
          timeSleep delay;;
          reconnect fuel';;
          performSend_loop fuel' data (nextDelay delay)
      end
  end.

Definition performSend (fuel : nat) (data : list Byte.byte) : M unit :=
  h ← get_hook;
  (if (0 <? Timeout h)%Z
   then c ← the_conn; connSetWriteDeadline c (Timeout h)
   else mret tt);;
  performSend_loop fuel data initialDelay.

(** ** Sending one entry *)

(** The loop that adds the static fields, over the pairs in the order
    the [range] yields them: the map it ends with, or the message of the
    panic of an assignment.  Only a nil map makes an assignment panic,
    and no assignment has changed a map that is still nil, so that at a
    panic the map of the entry is as it was before the loop. *)
Fixpoint mergeFields_range (static : list (string * logrus.Value))
    (data : logrus.Fields) : logrus.Fields + string :=
  match static with
  | [] => inl data
  | (k, v) :: rest =>
      match data !! k with
      | Some _ => mergeFields_range rest data
      | None =>
          match mapassign k v data with
          | inl data' => mergeFields_range rest data'
          | inr msg => inr msg
          end
      end
  end.

Definition formatterOf (h : Hook) : LogstashFormatter :=
  let formatter := {| Type_ := appName h; TimestampFormat := "" |} in
  if decide (TimeFormat h = "") then formatter
  else {| Type_ := Type_ formatter; TimestampFormat := TimeFormat h |}.

Definition sendMessage (FormatWithPrefix : Formatter) (fuel : nat)
    (entry : loc) : M (option error) :=
  defer (filterHookOnly entry)
    (h ← get_hook;
     e ← load entry;
     match mergeFields_range
             (map_to_list (logrus.contents (alwaysSentFields h)))
             (logrus.Data e) with
     | inr msg => panic msg
     | inl data =>
         let e := logrus.with_Data data e in
         store entry e;;
         match FormatWithPrefix (formatterOf h) e (hookOnlyPrefix h) with
         | inr err => mret (Some err)
         | inl dataBytes =>
             lock;;
             defer unlock (performSend fuel dataBytes;; mret None)
         end
     end).

(** ** Fire *)

(** A send on the channel that does not wait: it succeeds exactly when
    the buffer has room. *)
Definition chansend (entry : loc) (c : Chan) : option Chan :=
  if decide (length (buf c) < cap c)
  then Some {| buf := buf c ++ [entry]; cap := cap c |}
  else None.

(** Where a call of [Fire] stands: just called, waiting in the blocking
    send of the [default] branch, or returned with its result. *)
Inductive FireState :=
| FireCalled (entry : loc)
| FireBlocked (entry : loc)
| FireReturned (err : option error).

(** One scheduling step of a call of [Fire].  From [FireCalled] it runs
    the [select]; from [FireBlocked] it retries the send the goroutine is
    parked in, and stays parked while the buffer is full. *)
Definition Fire_step (s : FireState) : M FireState :=
  h ← get_hook;
  match s with
  | FireCalled entry =>
      match chansend entry (fireChannel h) with
      | Some c => modify_hook (set_fireChannel c);; mret (FireReturned None)
      | None =>
          if WaitUntilBufferFrees h then mret (FireBlocked entry)
          else logErrorf "dropped a message";; mret (FireReturned None)
      end
  | FireBlocked entry =>
      match chansend entry (fireChannel h) with
      | Some c => modify_hook (set_fireChannel c);; mret (FireReturned None)
      | None => mret (FireBlocked entry)
      end
  | FireReturned err => mret (FireReturned err)
  end.

Definition Fire (entry : loc) : M FireState := Fire_step (FireCalled entry).

(** ** The sender goroutine started by [init] *)

Inductive SenderPhase :=
| Spawned      (* before the first statement *)
| Receiving    (* in the [range] over the channel *)
| Exited.      (* after a panic was recovered *)

(** A receive that does not wait: the oldest buffered entry, if any. *)
Definition chanrecv : M (option loc) :=
  h ← get_hook;
  match buf (fireChannel h) with
  | [] => mret None
  | entry :: rest =>
      modify_hook (set_fireChannel {| buf := rest; cap := cap (fireChannel h) |});;
      mret (Some entry)
  end.

(** One turn of the goroutine, without its deferred calls: the initial
    connect, or one iteration of the [range] loop (which waits, changing
    nothing, while the channel is empty). *)
Definition init_turn (FormatWithPrefix : Formatter) (fuel : nat)
    (phase : SenderPhase) : M SenderPhase :=
  match phase with
  | Spawned =>
      h ← get_hook;
      (if conn h is None then reconnect fuel else mret tt);;
      mret Receiving
  | Receiving =>
      next ← chanrecv;
      match next with
      | None => mret Receiving
      | Some entry =>
          err ← sendMessage FormatWithPrefix fuel entry;
          (match err with
           | Some err => logErrorf ("unable to send the message: " +:+ err)
           | None => mret tt
           end);;
          mret Receiving
      end
  | Exited => mret Exited
  end.

(** The deferred calls of the goroutine: a panic ends it, after the
    closing message and the recovery have been logged. *)
Definition senderStep (FormatWithPrefix : Formatter) (fuel : nat)
    (phase : SenderPhase) : M SenderPhase :=
  λ m, match init_turn FormatWithPrefix fuel phase m with
       | Done phase' m' => Done phase' m'
       | Panicked msg m' =>
           (logErrorf "the fireChannel handler is closed";;
            do_event (EvRecover msg);;
            mret Exited) m'
       | Starved => Starved
       end.

(** ** Producers and the sender together *)

Record System := {
  machine : Machine;
  sender : SenderPhase;
  parked : list loc;     (* calls of Fire waiting in the blocking send *)
  enqueued : list loc;   (* history: every entry put in the channel, in order *)
}.

Inductive Action :=
| ActFire (entry : loc)  (* a producer calls Fire *)
| ActWake (i : nat)      (* the i-th parked producer is scheduled *)
| ActSender.             (* the sender goroutine takes a turn *)

(** The entries a step appended to the channel. *)
Definition appended (before after : Machine) : list loc :=
  drop (length (buf (fireChannel (hook before)))) (buf (fireChannel (hook after))).

Definition step (FormatWithPrefix : Formatter) (fuel : nat) (a : Action)
    (s : System) : option System :=
  match a with
  | ActFire entry =>
      match Fire entry (machine s) with
      | Done st m' =>
          Some {| machine := m'; sender := sender s;
                  parked := (if st is FireBlocked e then parked s ++ [e]
                             else parked s);
                  enqueued := enqueued s ++ appended (machine s) m' |}
      | _ => None
      end
  | ActWake i =>
      match parked s !! i with
      | None => Some s
      | Some entry =>
          match Fire_step (FireBlocked entry) (machine s) with
          | Done st m' =>
              Some {| machine := m'; sender := sender s;
                      parked := (if st is FireReturned _
                                 then delete i (parked s) else parked s);
                      enqueued := enqueued s ++ appended (machine s) m' |}
          | _ => None
          end
      end
  | ActSender =>
      match senderStep FormatWithPrefix fuel (sender s) (machine s) with
      | Done phase' m' =>
          Some {| machine := m'; sender := phase';
                  parked := parked s; enqueued := enqueued s |}
      | _ => None
      end
  end.

Fixpoint run (FormatWithPrefix : Formatter) (fuel : nat)
    (schedule : list Action) (s : System) : option System :=
  match schedule with
  | [] => Some s
  | a :: rest =>
      match step FormatWithPrefix fuel a s with
      | Some s' => run FormatWithPrefix fuel rest s'
      | None => None
      end
  end.

(** A hook just constructed, before any goroutine has run; what its
    channel already holds counts as enqueued. *)
Definition boot (h : Hook) (entries : gmap loc logrus.Entry) (n : Net) : System :=
  {| machine := {| hook := h; heap := entries;
                   world := {| network := n; dials := 0; writes := 0;
                               events := [] |} |};
     sender := Spawned; parked := []; enqueued := buf (fireChannel h) |}.

(** ** Reading a trace *)

(** The payloads of the writes that succeeded, in order. *)
Definition successfulWrites (es : list Event) : list (list Byte.byte) :=
  omap (λ e, match e with EvWrite _ data None => Some data | _ => None end) es.

(** The payloads of the writes that failed, in order. *)
Definition failedWrites (es : list Event) : list (list Byte.byte) :=
  omap (λ e, match e with EvWrite _ data (Some _) => Some data | _ => None end) es.

Definition sleeps (es : list Event) : list time.Duration :=
  omap (λ e, match e with EvSleep d => Some d | _ => None end) es.

Definition dialAttempts (es : list Event) : list (Conn + error) :=
  omap (λ e, match e with EvDial _ _ r => Some r | _ => None end) es.

Definition trace (m : Machine) : list Event := events (world m).

(** ** What the wire should carry

    The reference the sender loop is compared with, written after the
    specification rather than after the loops of the code: static fields
    are merged without overwriting, the record is serialized, fields
    carrying the hook-only prefix are stripped from the record, and the
    records go out one by one in queue order. *)

(** The static fields can be merged into the record: its map was made,
    or there is no static field to add. *)
Definition mergeable (h : Hook) (e : logrus.Entry) : Prop :=
  logrus.Data e = None → logrus.contents (alwaysSentFields h) = ∅.

#[global] Instance mergeable_dec h e : Decision (mergeable h e).
Proof. unfold mergeable. apply _. Defined.

(** The record with the static fields merged in; a nil map stays nil. *)
Definition merged (h : Hook) (e : logrus.Entry) : logrus.Entry :=
  logrus.with_Data
    ((λ d, d ∪ logrus.contents (alwaysSentFields h)) <$> logrus.Data e) e.

Definition stripped (h : Hook) (e : logrus.Entry) : logrus.Entry :=
  if decide (hookOnlyPrefix h = "") then e
  else logrus.with_Data
         (filter (λ kv, HasPrefix kv.1 (hookOnlyPrefix h) = false)
            <$> logrus.Data e) e.

(** The record behind [entry] once the sender is done with it. *)
Definition settled (h : Hook) (e : logrus.Entry) : logrus.Entry :=
  stripped h (merged h e).

Definition serialized (FormatWithPrefix : Formatter) (h : Hook)
    (e : logrus.Entry) : list Byte.byte + error :=
  FormatWithPrefix (formatterOf h) (merged h e) (hookOnlyPrefix h).

(** The record behind [l] can be sent: the pointer is not nil and the
    static fields can be merged into the record.  Any other entry makes
    the sender goroutine panic. *)
Definition sendable (h : Hook) (σ : gmap loc logrus.Entry) (l : loc) : Prop :=
  ∃ e, σ !! l = Some e ∧ mergeable h e.

#[global] Instance sendable_dec h σ l : Decision (sendable h σ l).
Proof.
  unfold sendable. destruct (σ !! l) as [e|].
  - destruct (decide (mergeable h e)) as [H|H].
    + left. by exists e.
    + right. intros (e' & [= <-] & H'). done.
  - right. by intros (e' & [=] & _).
Defined.

(** The entries after the records in [sent] have been processed in turn
    (up to the first one that cannot be sent). *)
Fixpoint heapAfter (h : Hook) (σ : gmap loc logrus.Entry) (sent : list loc)
    : gmap loc logrus.Entry :=
  match sent with
  | [] => σ
  | l :: rest =>
      match σ !! l with
      | None => σ
      | Some e =>
          if decide (mergeable h e)
          then heapAfter h (<[l := settled h e]> σ) rest
          else σ
      end
  end.

(** One payload per record that serializes, in the order of [sent], up
    to the first record that cannot be sent. *)
Fixpoint wireImage (FormatWithPrefix : Formatter) (h : Hook)
    (σ : gmap loc logrus.Entry) (sent : list loc) : list (list Byte.byte) :=
  match sent with
  | [] => []
  | l :: rest =>
      match σ !! l with
      | None => []
      | Some e =>
          if decide (mergeable h e) then
            let tail :=
              wireImage FormatWithPrefix h (<[l := settled h e]> σ) rest in
            match serialized FormatWithPrefix h e with
            | inl bytes => bytes :: tail
            | inr _ => tail
            end
          else []
      end
  end.

(** ** Flush *)

(** [Flush] runs on the caller's goroutine while the sender goroutine
    and the producers run too.  It never writes to the hook: it takes and
    releases the send lock and reads the length of the channel.  What it
    observes of the other goroutines is given by an environment, indexed
    by the iteration of its loop, and what it does to the hook is
    recorded as a list of [FlushEvent]s. *)
Record FlushEnv := {
  startTime : Z;                (* time.Now() on entry, in nanoseconds *)
  elapsed : nat → N;            (* time passing before the i-th test of the loop condition *)
  lockWait : nat → option N;    (* how long the i-th Lock() waits; None: the lock is never released *)
  queueLen : nat → nat;         (* len(h.fireChannel) as the i-th poll reads it *)
  overslept : nat → N;          (* by how much the i-th Sleep exceeds its duration *)
}.

(** What [Flush] does to the hook and the scheduler. *)
Inductive FlushEvent :=
| FlLock
| FlUnlock
| FlLen (n : nat)
| FlSleep (d : time.Duration).

Inductive FlushOutcome :=
| FlushReturned (err : option error)
| FlushWaitingForLock      (* parked in Lock() for good *)
| FlushStarved.            (* still looping when the fuel ran out *)

(** The clock when the i-th iteration tests [time.Now().Before(expireAt)],
    given the clock [now] after the previous iteration. *)
Definition clockAtTest (env : FlushEnv) (i : nat) (now : Z) : Z :=
  (now + Z.of_N (elapsed env i))%Z.

(** The loop of [Flush], from iteration [i] on. *)
Fixpoint Flush_loop (fuel : nat) (env : FlushEnv) (i : nat) (now expireAt : Z)
    (done : list FlushEvent) : FlushOutcome * list FlushEvent :=
  match fuel with
  | O => (FlushStarved, done)
  | S fuel' =>
      let now := clockAtTest env i now in
      if (now <? expireAt)%Z then
        match lockWait env i with
        | None => (FlushWaitingForLock, done)
        | Some w =>
            let now := (now + Z.of_N w)%Z in
            let done := done ++ [FlLock; FlUnlock; FlLen (queueLen env i)] in
            if decide (queueLen env i = 0) then (FlushReturned None, done)
            else
              Flush_loop fuel' env (S i)
                (now + time.Millisecond + Z.of_N (overslept env i))%Z expireAt
                (done ++ [FlSleep time.Millisecond])
        end
      else (FlushReturned (Some DeadlineExceeded), done)
  end.

Definition Flush (fuel : nat) (env : FlushEnv) (timeout : time.Duration)
    : FlushOutcome * list FlushEvent :=
  let expireAt := (startTime env + timeout)%Z in
  Flush_loop fuel env 0 (startTime env) expireAt [].



(** The sleeps of the write loop: the sleep that follows a failed write
    and its log line. *)
Fixpoint writeBackoffs (es : list Event) : list time.Duration :=
  match es with
  | [] => []
  | e :: rest =>
      match e, rest with
      | EvWrite _ _ (Some _), EvLogError _ :: EvSleep d :: _ =>
          d :: writeBackoffs rest
      | _, _ => writeBackoffs rest
      end
  end.

(** The sleeps of the connect loop: the sleep that follows a failed dial
    and its log line. *)
Fixpoint dialBackoffs (es : list Event) : list time.Duration :=
  match es with
  | [] => []
  | e :: rest =>
      match e, rest with
      | EvDial _ _ (inr _), EvLogError _ :: EvSleep d :: _ =>
          d :: dialBackoffs rest
      | _, _ => dialBackoffs rest
      end
  end.

(** The events a run added to the trace. *)
Definition added (before after : Machine) : list Event :=
  drop (length (trace before)) (trace after).


(** The events of a [reconnect] whose first [k] dials fail, starting
    with dial number [d] and the delay [backoff i]. *)
Fixpoint reconnectTrace (h : Hook) (n : Net) (d i k : nat) : list Event :=
  match k with
  | O => [EvDial (protocol h) (address h) (inl (Dialled d))]
  | S k' =>
      match dialResult n d with
      | Some err =>
          [ EvDial (protocol h) (address h) (inr err);
            EvLogError ("unable to connect to " +:+ protocol h +:+ "://" +:+
                        address h +:+ ": " +:+ err);
            EvSleep (backoff i) ] ++ reconnectTrace h n (S d) (S i) k'
      | None => []
      end
  end.

Definition reconnected (m : Machine) (i k : nat) : Machine :=
  {| hook := set_conn (Some (Dialled (dials (world m) + k))) (hook m);
     heap := heap m;
     world := {| network := network (world m);
                 dials := dials (world m) + S k;
                 writes := writes (world m);
                 events := events (world m) ++
                   reconnectTrace (hook m) (network (world m)) (dials (world m)) i k |} |}.


(** The machine after a write of [data] has failed with the delay
    [backoff i] pending: the failure is logged and slept on. *)
Definition failedWrite (m : Machine) (data : list Byte.byte) (i : nat) : Machine :=
  let w := world m in
  match conn (hook m), writeResult (network w) (writes w) with
  | Some c, Some err =>
      with_world (λ w,
        {| network := network w; dials := dials w; writes := S (writes w);
           events := events w ++
             [ EvWrite c data (Some err);
               EvLogError ("unable to write: " +:+ err);
               EvSleep (backoff i) ] |}) m
  | _, _ => m
  end.

(** The machine after the write loop has finished, given for every
    failed write the number of failed dials of the reconnect after it. *)
Fixpoint afterSend (m : Machine) (data : list Byte.byte) (i : nat)
    (ks : list nat) : Machine :=
  match ks with
  | [] =>
      match conn (hook m) with
      | Some c =>
          with_world (λ w,
            {| network := network w; dials := dials w; writes := S (writes w);
               events := events w ++ [EvWrite c data None] |}) m
      | None => m
      end
  | k :: ks' => afterSend (reconnected (failedWrite m data i) 0 k) data (S i) ks'
  end.

(** The network behaves as [ks] says: one failed write per element, each
    followed by that many failed dials and a successful one, then a
    successful write. *)
Fixpoint sendScript (m : Machine) (data : list Byte.byte) (i : nat)
    (ks : list nat) : Prop :=
  let w := world m in
  is_Some (conn (hook m)) ∧
  match ks with
  | [] => writeResult (network w) (writes w) = None
  | k :: ks' =>
      writeResult (network w) (writes w) ≠ None
      ∧ (∀ j, j < k → dialResult (network w) (dials w + j) ≠ None)
      ∧ dialResult (network w) (dials w + k) = None
      ∧ sendScript (reconnected (failedWrite m data i) 0 k) data (S i) ks'
  end.

(** The machine after the deadline has been set, when a timeout is
    configured and a connection is there. *)
Definition withDeadline (m : Machine) : Machine :=
  if (0 <? Timeout (hook m))%Z then
    match conn (hook m) with
    | Some c => with_world (emit (EvSetWriteDeadline c (Timeout (hook m)))) m
    | None => m
    end
  else m.

(** The machine with the send lock taken, resp. released. *)
Definition locked (m : Machine) : Machine :=
  with_world (emit EvLock) (with_hook (set_sendingLocker true) m).
Definition unlocked (m : Machine) : Machine :=
  with_world (emit EvUnlock) (with_hook (set_sendingLocker false) m).

(** The machine with [e] stored behind [entry]. *)
Definition stored (entry : loc) (e : logrus.Entry) (m : Machine) : Machine :=
  with_heap <[entry := e]> m.

(** ** Sample data

    The statements below are exercised on the hook and the entry of the
    package's own test of [Fire]. *)

(** A stand-in for the package's formatter: the payload is the message,
    and a record whose field ["bad"] holds an opaque value does not
    serialize. *)
Definition messageFormatter : Formatter := λ _ e _,
  match logrus.Data e !! "bad" with
  | Some (logrus.VOpaque _) => inr "json: unsupported type"
  | _ => inl (String.list_byte_of_string (logrus.Message e))
  end.

(** A network on which every dial and every write succeeds. *)
Definition steadyNet : Net :=
  {| dialResult := λ _, None; writeResult := λ _, None |}.

(** A network whose first write and whose first dial fail. *)
Definition flakyNet : Net :=
  {| dialResult := λ k, if decide (k = 0) then Some "connection refused" else None;
     writeResult := λ k, if decide (k = 0) then Some "broken pipe" else None |}.

(** A network that loses the first two writes and accepts every dial. *)
Definition lossyNet : Net :=
  {| dialResult := λ _, None;
     writeResult := λ k, if decide (k < 2) then Some "broken pipe" else None |}.

(** A network that is down for good. *)
Definition deadNet : Net :=
  {| dialResult := λ _, Some "connection refused";
     writeResult := λ _, Some "broken pipe" |}.

Definition fireTestHook : Hook :=
  {| sendingLocker := false; conn := Some (Supplied 0);
     protocol := ""; address := ""; appName := "fire_test";
     alwaysSentFields :=
       Some (<["test-name" := logrus.VString "fire-test"]>
               (<["->ignore" := logrus.VString "haaa"]>
                  (<["override" := logrus.VString "no"]> ∅)));
     hookOnlyPrefix := "->"; TimeFormat := "";
     fireChannel := {| buf := []; cap := 10 |};
     WaitUntilBufferFrees := false; Timeout := 0%Z; MaxSendRetries := 0%Z;
     ReconnectBaseDelay := 0%Z;
     ReconnectDelayMultiplier := S754_zero false;
     MaxReconnectRetries := 0%Z |}.

Definition fireTestEntry : logrus.Entry :=
  {| logrus.Data := Some (<["override" := logrus.VString "yes"]> ∅);
     logrus.Time := 0%Z;
     logrus.Level_ := logrus.DebugLevel;
     logrus.Message := "hello world!" |}.

(** An entry that the stand-in formatter rejects. *)
Definition badEntry : logrus.Entry :=
  {| logrus.Data :=
       Some (<["bad" := logrus.VOpaque 1]> (<["->secret" := logrus.VInt 7]> ∅));
     logrus.Time := 0%Z;
     logrus.Level_ := logrus.ErrorLevel;
     logrus.Message := "unserializable" |}.

(** The hook and the entry of the package's test of the timestamp
    format: the hook has no static fields (the nil map) and the entry,
    made without [Data], has the nil map too. *)
Definition timeTestHook : Hook :=
  {| sendingLocker := false; conn := Some (Supplied 0);
     protocol := ""; address := ""; appName := "";
     alwaysSentFields := None;
     hookOnlyPrefix := ""; TimeFormat := "3:04PM";
     fireChannel := {| buf := []; cap := 10 |};
     WaitUntilBufferFrees := false; Timeout := 0%Z; MaxSendRetries := 0%Z;
     ReconnectBaseDelay := 0%Z;
     ReconnectDelayMultiplier := S754_zero false;
     MaxReconnectRetries := 0%Z |}.

Definition timeTestEntry : logrus.Entry :=
  {| logrus.Data := None;
     logrus.Time := 1257822240000000000%Z;   (* 2009-11-10 03:04:00 UTC *)
     logrus.Level_ := logrus.PanicLevel;
     logrus.Message := "" |}.

Definition sampleMachine (h : Hook) (n : Net) : Machine :=
  {| hook := h;
     heap := <[1%positive := fireTestEntry]> (<[2%positive := badEntry]> ∅);
     world := {| network := n; dials := 0; writes := 0; events := [] |} |}.

(** ** Comparing runs *)

(** Applying [f] to the machine a run ends in. *)
Definition res_map {A} (f : Machine → Machine) (r : Res A) : Res A :=
  match r with
  | Done a m => Done a (f m)
  | Panicked msg m => Panicked msg (f m)
  | Starved => Starved
  end.

(** Two hooks that agree on every field except [MaxSendRetries] and
    [MaxReconnectRetries]. *)
Definition sameButRetries (h1 h2 : Hook) : Prop :=
  sendingLocker h1 = sendingLocker h2
  ∧ conn h1 = conn h2
  ∧ protocol h1 = protocol h2
  ∧ address h1 = address h2
  ∧ appName h1 = appName h2
  ∧ alwaysSentFields h1 = alwaysSentFields h2
  ∧ hookOnlyPrefix h1 = hookOnlyPrefix h2
  ∧ TimeFormat h1 = TimeFormat h2
  ∧ fireChannel h1 = fireChannel h2
  ∧ WaitUntilBufferFrees h1 = WaitUntilBufferFrees h2
  ∧ Timeout h1 = Timeout h2
  ∧ ReconnectBaseDelay h1 = ReconnectBaseDelay h2
  ∧ ReconnectDelayMultiplier h1 = ReconnectDelayMultiplier h2.

(** Two runs with the same outcome, the same entries and the same world
    (so the same writes, sleeps and dials in the same order), ending in
    hooks that still differ at most in the retry limits. *)
Definition sameRun {A} (r1 r2 : Res A) : Prop :=
  match r1, r2 with
  | Done a1 m1, Done a2 m2 =>
      a1 = a2 ∧ sameButRetries (hook m1) (hook m2)
      ∧ heap m1 = heap m2 ∧ world m1 = world m2
  | Panicked msg1 m1, Panicked msg2 m2 =>
      msg1 = msg2 ∧ sameButRetries (hook m1) (hook m2)
      ∧ heap m1 = heap m2 ∧ world m1 = world m2
  | Starved, Starved => True
  | _, _ => False
  end.

(** ** Describing [Fire] and [Flush] *)

(** The machine with [entry] appended to the channel. *)
Definition enqueue (entry : loc) (m : Machine) : Machine :=
  with_hook (λ h, set_fireChannel
                    {| buf := buf (fireChannel h) ++ [entry];
                       cap := cap (fireChannel h) |} h) m.



(** An environment in which the queue drains at the third poll, every
    lock is obtained after 2 ms and a millisecond's sleep takes 1.5 ms. *)
Definition drainingEnv : FlushEnv :=
  {| startTime := 0%Z; elapsed := λ _, 1000%N;
     lockWait := λ _, Some 2000000%N;
     queueLen := λ i, 2 - i; overslept := λ _, 500000%N |}.

(** ** The invariant of the pipeline *)

(** The fields of the hook that decide what a record is turned into. *)
Definition sameConfig (h h' : Hook) : Prop :=
  appName h = appName h'
  ∧ alwaysSentFields h = alwaysSentFields h'
  ∧ hookOnlyPrefix h = hookOnlyPrefix h'
  ∧ TimeFormat h = TimeFormat h'.

(** Every record of [sent] can be sent. *)
Definition allSendable (h : Hook) (σ : gmap loc logrus.Entry) (sent : list loc)
    : Prop :=
  Forall (sendable h σ) sent.

(** What holds of a system started from the hook [h0], the entries [σ0]
    and the network [n0]: the history of the channel is what the sender
    has received followed by what is still buffered; the writes that
    succeeded are the image of what the sender has received; the entries
    are what processing these leaves behind. *)
Definition pipelineInv (F : Formatter) (h0 : Hook) (σ0 : gmap loc logrus.Entry)
    (n0 : Net) (s : System) : Prop :=
  ∃ sent,
    enqueued s = sent ++ buf (fireChannel (hook (machine s)))
    ∧ successfulWrites (trace (machine s)) = wireImage F h0 σ0 sent
    ∧ heap (machine s) = heapAfter h0 σ0 sent
    ∧ sameConfig h0 (hook (machine s))
    ∧ network (world (machine s)) = n0
    ∧ (sender s = Receiving → is_Some (conn (hook (machine s))))
    ∧ (sender s ≠ Exited → allSendable h0 σ0 sent).

(** A network on which, from any point on, a dial succeeds within [B]
    further attempts, and so does a write. *)
Definition recovers (n : Net) (B : nat) : Prop :=
  (∀ k, ∃ j, j ≤ B ∧ dialResult n (k + j) = None)
  ∧ (∀ k, ∃ j, j ≤ B ∧ writeResult n (k + j) = None).

(** The payload of the record behind [l], if there is one and it
    serializes. *)
Definition payloadOf (F : Formatter) (h : Hook) (σ : gmap loc logrus.Entry)
    (l : loc) : option (list Byte.byte) :=
  e ← σ !! l;
  match serialized F h e with
  | inl bytes => Some bytes
  | inr _ => None
  end.

(** Two producers and the sender: both records of [sampleMachine] are
    fired, then the sender connects (it has a connection already) and
    takes both from the channel. *)
Definition sampleSchedule : list Action :=
  [ ActFire 1%positive; ActSender; ActFire 2%positive; ActFire 1%positive;
    ActSender; ActSender; ActSender ].

(** ** Further descriptions used by the properties of the code *)

(** The events of the two retry loops: dials, writes, sleeps and log
    lines.  Deadlines, the lock and the recovery are not among them. *)
Definition isLoopEvent (e : Event) : bool :=
  match e with
  | EvDial _ _ _ | EvWrite _ _ _ | EvSleep _ | EvLogError _ => true
  | EvSetWriteDeadline _ _ | EvLock | EvUnlock | EvRecover _ => false
  end.

(** The write deadlines set, in order. *)
Definition deadlines (es : list Event) : list (Conn * time.Duration) :=
  omap (λ e, match e with
             | EvSetWriteDeadline c t => Some (c, t)
             | _ => None
             end) es.

(** The connections written to, in order, with the outcome. *)
Definition writeTargets (es : list Event) : list (Conn * option error) :=
  omap (λ e, match e with EvWrite c _ r => Some (c, r) | _ => None end) es.

(** The lengths [Flush] has read, in order. *)
Definition polls (done : list FlushEvent) : list nat :=
  omap (λ e, match e with FlLen n => Some n | _ => None end) done.

(** What [Flush] does in the iterations that read the lengths [lens], all
    of them non-zero: lock, unlock, read, sleep. *)
Definition busyPolls (lens : list nat) : list FlushEvent :=
  lens ≫= λ n, [FlLock; FlUnlock; FlLen n; FlSleep time.Millisecond].

(** What [Flush] meets while no other goroutine takes a step: the lock is
    free or held for good, and the channel keeps its length.  The clock
    runs as [start], [elapsed] and [overslept] say. *)
Definition frozenEnv (m : Machine) (start : Z) (elapsed overslept : nat → N)
    : FlushEnv :=
  {| startTime := start; elapsed := elapsed;
     lockWait := λ _, if sendingLocker (hook m) then None else Some 0%N;
     queueLen := λ _, length (buf (fireChannel (hook m)));
     overslept := overslept |}.

(** The hook of the test of [Fire] with a write timeout of five seconds. *)
Definition timeoutHook : Hook :=
  {| sendingLocker := sendingLocker fireTestHook; conn := conn fireTestHook;
     protocol := "tcp"; address := "logs:5000";
     appName := appName fireTestHook;
     alwaysSentFields := alwaysSentFields fireTestHook;
     hookOnlyPrefix := hookOnlyPrefix fireTestHook;
     TimeFormat := TimeFormat fireTestHook;
     fireChannel := fireChannel fireTestHook;
     WaitUntilBufferFrees := false; Timeout := (5 * time.Second)%Z;
     MaxSendRetries := 0%Z; ReconnectBaseDelay := 0%Z;
     ReconnectDelayMultiplier := S754_zero false;
     MaxReconnectRetries := 0%Z |}.

(** The entries passed to [Fire] by a schedule, in the order of the
    calls. *)
Definition fired (schedule : list Action) : list loc :=
  omap (λ a, match a with ActFire entry => Some entry | _ => None end) schedule.

(** The hook of the test of [Fire] with room for one entry and with
    producers that wait. *)
Definition waitingHook : Hook :=
  {| sendingLocker := sendingLocker fireTestHook; conn := conn fireTestHook;
     protocol := protocol fireTestHook; address := address fireTestHook;
     appName := appName fireTestHook;
     alwaysSentFields := alwaysSentFields fireTestHook;
     hookOnlyPrefix := hookOnlyPrefix fireTestHook;
     TimeFormat := TimeFormat fireTestHook;
     fireChannel := {| buf := []; cap := 1 |};
     WaitUntilBufferFrees := true; Timeout := 0%Z;
     MaxSendRetries := 0%Z; ReconnectBaseDelay := 0%Z;
     ReconnectDelayMultiplier := S754_zero false;
     MaxReconnectRetries := 0%Z |}.
(** * Properties *)

(** ** Constructors and setters *)

(** What the package's test of the constructors checks. *)
Example NewHook_state :
  let '(h, err) :=
    NewHookWithFieldsAndPrefix "udp" "localhost:9999" "prefix"
      (Some {[ "id" := logrus.VInt 1 ]}) "-->" in
  err = None ∧ conn h = None ∧ appName h = "prefix"
  ∧ alwaysSentFields h = Some {[ "id" := logrus.VInt 1 ]}
  ∧ hookOnlyPrefix h = "-->"
  ∧ buf (fireChannel h) = [] ∧ cap (fireChannel h) = 2 ^ 16.
Proof.
  cbv beta iota delta
    [NewHookWithFieldsAndPrefix NewHookWithFieldsAndConnAndPrefix].
  split_and!; reflexivity.
Qed.

Lemma Fields_lookup_made (f : gmap string logrus.Value) k :
  (Some f : logrus.Fields) !! k = f !! k.
Proof. done. Qed.

Lemma Fields_lookup_nil k : (None : logrus.Fields) !! k = None.
Proof. done. Qed.

Lemma set_alwaysSentFields_twice f g h :
  set_alwaysSentFields f (set_alwaysSentFields g h) = set_alwaysSentFields f h.
Proof. done. Qed.

Lemma set_alwaysSentFields_id h :
  set_alwaysSentFields (alwaysSentFields h) h = h.
Proof. by destruct h. Qed.

(** [SetField] on a map that was made, and on the nil map. *)
Lemma SetField_eq key value m :
  SetField key value m =
  match alwaysSentFields (hook m) with
  | Some f =>
      Done tt (with_hook (set_alwaysSentFields (Some (<[key := value]> f))) m)
  | None => Panicked "assignment to entry in nil map" m
  end.
Proof.
  unfold SetField, mapassign, get_hook, modify_hook, panic, mbind, M_bind.
  by destruct (alwaysSentFields (hook m)).
Qed.

Lemma foldl_insert_union (l : list (string * logrus.Value)) :
  ∀ m : gmap string logrus.Value,
  NoDup l.*1 →
  foldl (λ m kv, <[kv.1 := kv.2]> m) m l = list_to_map l ∪ m.
Proof.
  induction l as [|[k v] l IH]; intros m Hnd.
  - simpl. by rewrite (left_id_L ∅ (∪)).
  - rewrite fmap_cons in Hnd. apply NoDup_cons in Hnd as [Hk Hnd].
    cbn [foldl]. rewrite IH by done. rewrite list_to_map_cons.
    rewrite <- insert_union_l. symmetry. apply insert_union_r.
    by apply not_elem_of_list_to_map_1.
Qed.

(** The loop of [SetFields] on a map that was made: every pair is
    assigned, a later pair of the same key over an earlier one. *)
Lemma SetFields_range_made fields : ∀ m f,
  alwaysSentFields (hook m) = Some f →
  SetFields_range fields m
  = Done tt (with_hook
               (set_alwaysSentFields
                  (Some (foldl (λ m kv, <[kv.1 := kv.2]> m) f fields))) m).
Proof.
  induction fields as [|[k v] rest IH]; intros m f Hf.
  - simpl. unfold mret, M_ret. f_equal. destruct m as [h σ w]. simpl in *.
    unfold with_hook. simpl. f_equal. rewrite <- Hf.
    by rewrite set_alwaysSentFields_id.
  - cbn [SetFields_range]. unfold mbind, M_bind.
    rewrite SetField_eq, Hf. rewrite (IH _ (<[k := v]> f)) by done.
    done.
Qed.

(** On the nil map the first assignment panics. *)
Lemma SetFields_range_nil fields m :
  alwaysSentFields (hook m) = None →
  SetFields_range fields m
  = match fields with
    | [] => Done tt m
    | _ :: _ => Panicked "assignment to entry in nil map" m
    end.
Proof.
  intros Hf. destruct fields as [|[k v] rest]; [done|].
  cbn [SetFields_range]. unfold mbind, M_bind. by rewrite SetField_eq, Hf.
Qed.

(** ** The backoff sequence *)

Lemma backoff_table :
  backoff <$> seq 0 27 =
  [ 10000000; 12000000; 14400000; 17280000; 20736000; 24883200; 29859840;
    35831808; 42998169; 51597802; 61917362; 74300834; 89161000; 106993200;
    128391840; 154070208; 184884249; 221861098; 266233317; 319479980;
    383375976; 460051171; 552061405; 662473686; 794968423; 953962107;
    1000000000 ]%Z.
Proof. vm_compute. reflexivity. Qed.

Lemma nextDelay_capped d : (nextDelay d ≤ time.Second)%Z.
Proof.
  unfold nextDelay.
  destruct (Z.ltb_spec time.Second
    (float64.to_int
       (float64.div (float64.mul (float64.of_int d) (float64.of_int 6))
          (float64.of_int 5)))); lia.
Qed.

Lemma backoff_saturates n : 26 ≤ n → backoff n = time.Second.
Proof.
  induction 1 as [|n Hn IH].
  - vm_compute. reflexivity.
  - simpl. rewrite IH. vm_compute. reflexivity.
Qed.

Lemma backoff_small n :
  n < 26 →
  backoff (S n) = Z.min time.Second (6 * backoff n / 5)%Z
  ∧ (initialDelay ≤ backoff n ≤ backoff (S n))%Z.
Proof.
  intros Hn.
  do 26 (destruct n as [|n]; [vm_compute; intuition congruence|]).
  lia.
Qed.

Lemma backoff_ratio n :
  backoff (S n) = Z.min time.Second (6 * backoff n / 5)%Z.
Proof.
  destruct (decide (n < 26)) as [Hn|Hn].
  - apply backoff_small, Hn.
  - rewrite !backoff_saturates by lia. vm_compute. reflexivity.
Qed.

Lemma backoff_bounds n :
  (initialDelay ≤ backoff n ≤ time.Second)%Z.
Proof.
  destruct (decide (n < 26)) as [Hn|Hn].
  - split; [apply backoff_small, Hn|].
    destruct n; [vm_compute; discriminate|apply nextDelay_capped].
  - rewrite backoff_saturates by lia. vm_compute. split; discriminate.
Qed.

Lemma backoff_mono_step n : (backoff n ≤ backoff (S n))%Z.
Proof.
  destruct (decide (n < 26)) as [Hn|Hn].
  - apply backoff_small, Hn.
  - rewrite !backoff_saturates by lia. lia.
Qed.

Lemma backoff_mono i j : i ≤ j → (backoff i ≤ backoff j)%Z.
Proof.
  induction 1 as [|j Hj IH]; [lia|].
  pose proof (backoff_mono_step j). lia.
Qed.

(** ** Reconnecting *)

Lemma reconnect_loop_complete k : ∀ fuel i m,
  (∀ j, j < k → dialResult (network (world m)) (dials (world m) + j) ≠ None) →
  dialResult (network (world m)) (dials (world m) + k) = None →
  k < fuel →
  reconnect_loop fuel (backoff i) m = Done tt (reconnected m i k).
Proof.
  induction k as [|k IH]; intros fuel i m Hfail Hok Hfuel;
    (destruct fuel as [|fuel]; [lia|]).
  - simpl. unfold mbind, M_bind, get_hook, netDial. simpl.
    rewrite Nat.add_0_r in Hok. rewrite Hok. simpl.
    unfold modify_hook, reconnected, with_hook, with_world, emit. simpl.
    by rewrite Nat.add_0_r, Nat.add_1_r.
  - simpl. unfold mbind, M_bind, get_hook, netDial. simpl.
    destruct (dialResult (network (world m)) (dials (world m))) as [err|] eqn:E.
    2:{ exfalso. apply (Hfail 0); [lia|]. by rewrite Nat.add_0_r. }
    simpl. unfold logErrorf, timeSleep, do_event. simpl.
    change (nextDelay (backoff i)) with (backoff (S i)).
    rewrite IH; simpl.
    + unfold reconnected. simpl. rewrite E, !Nat.add_succ_r.
      by rewrite <- !app_assoc.
    + intros j Hj. simpl. specialize (Hfail (S j)).
      rewrite Nat.add_succ_r in Hfail. apply Hfail. lia.
    + simpl. by rewrite Nat.add_succ_r in Hok.
    + lia.
Qed.

Ltac munfold :=
  repeat progress
    (unfold mbind, M_bind, mret, M_ret, get_hook, netDial, connWrite,
       logErrorf, timeSleep, do_event, modify_hook, the_conn, panic, starve,
       connSetWriteDeadline, load, store; simpl).

Lemma reconnect_loop_sound fuel : ∀ i m u m',
  reconnect_loop fuel (backoff i) m = Done u m' →
  ∃ k, k < fuel
    ∧ (∀ j, j < k → dialResult (network (world m)) (dials (world m) + j) ≠ None)
    ∧ dialResult (network (world m)) (dials (world m) + k) = None
    ∧ m' = reconnected m i k.
Proof.
  induction fuel as [|fuel IH]; intros i m u m'; [discriminate|].
  simpl. munfold.
  destruct (dialResult (network (world m)) (dials (world m))) as [err|] eqn:E; simpl.
  - change (nextDelay (backoff i)) with (backoff (S i)).
    intros H. apply IH in H as (k & Hk & Hfail & Hok & ->). simpl in *.
    exists (S k). split; [lia|]. split; [|split].
    + intros [|j] Hj; [rewrite Nat.add_0_r; congruence|].
      rewrite Nat.add_succ_r. apply Hfail. lia.
    + by rewrite Nat.add_succ_r.
    + unfold reconnected. simpl. rewrite E, !Nat.add_succ_r.
      by rewrite <- !app_assoc.
  - intros [= _ <-]. exists 0. split; [lia|]. split; [intros; lia|].
    split; [by rewrite Nat.add_0_r|].
    unfold reconnected, with_hook, with_world, emit. simpl.
    by rewrite Nat.add_0_r, Nat.add_1_r.
Qed.

Lemma reconnect_loop_no_panic fuel : ∀ delay m msg m',
  reconnect_loop fuel delay m ≠ Panicked msg m'.
Proof.
  induction fuel as [|fuel IH]; intros delay m msg m'; [discriminate|].
  simpl. munfold.
  destruct (dialResult (network (world m)) (dials (world m))); simpl;
    [apply IH | discriminate].
Qed.

Lemma reconnect_loop_starved fuel : ∀ delay m,
  (∀ j, dialResult (network (world m)) (dials (world m) + j) ≠ None) →
  reconnect_loop fuel delay m = Starved.
Proof.
  induction fuel as [|fuel IH]; intros delay m Hfail; [done|].
  simpl. munfold.
  destruct (dialResult (network (world m)) (dials (world m))) as [err|] eqn:E; simpl.
  - apply IH. simpl. intros j. rewrite <- Nat.add_succ_r. apply Hfail.
  - exfalso. apply (Hfail 0). by rewrite Nat.add_0_r.
Qed.

Lemma reconnectTrace_sleeps h n d i k :
  (∀ j, j < k → dialResult n (d + j) ≠ None) →
  sleeps (reconnectTrace h n d i k) = backoff <$> seq i k
  ∧ dialBackoffs (reconnectTrace h n d i k) = backoff <$> seq i k
  ∧ successfulWrites (reconnectTrace h n d i k) = []
  ∧ failedWrites (reconnectTrace h n d i k) = []
  ∧ writeBackoffs (reconnectTrace h n d i k) = []
  ∧ length (dialAttempts (reconnectTrace h n d i k)) = S k.
Proof.
  revert d i. induction k as [|k IH]; intros d i Hfail; [done|].
  simpl. destruct (dialResult n d) as [err|] eqn:E.
  2:{ exfalso. apply (Hfail 0); [lia|]. by rewrite Nat.add_0_r. }
  destruct (IH (S d) (S i)) as (H1 & H2 & H3 & H4 & H5 & H6).
  { intros j Hj. simpl. rewrite <- Nat.add_succ_r. apply Hfail. lia. }
  simpl. rewrite H1, H2, H3, H4, H5, H6. done.
Qed.

(** ** The write loop *)

Lemma performSend_loop_step fuel data i m c err :
  conn (hook m) = Some c →
  writeResult (network (world m)) (writes (world m)) = Some err →
  performSend_loop (S fuel) data (backoff i) m =
  (reconnect fuel;; performSend_loop fuel data (backoff (S i))) (failedWrite m data i).
Proof.
  intros Hc Hw. simpl. munfold. rewrite Hc. simpl. rewrite Hw. simpl.
  unfold failedWrite. rewrite Hc, Hw.
  unfold with_world, emit. simpl. by rewrite <- !app_assoc.
Qed.

Lemma failedWrite_frame m data i :
  hook (failedWrite m data i) = hook m
  ∧ heap (failedWrite m data i) = heap m
  ∧ network (world (failedWrite m data i)) = network (world m)
  ∧ dials (world (failedWrite m data i)) = dials (world m).
Proof.
  unfold failedWrite.
  destruct (conn (hook m)); [|done].
  by destruct (writeResult (network (world m)) (writes (world m))).
Qed.

Lemma performSend_loop_complete data ks : ∀ fuel i m,
  sendScript m data i ks →
  length ks + list_sum ks < fuel →
  performSend_loop fuel data (backoff i) m = Done tt (afterSend m data i ks).
Proof.
  induction ks as [|k ks IH]; intros fuel i m Hs Hfuel;
    (destruct fuel as [|fuel]; [simpl in Hfuel; lia|]).
  - destruct Hs as [[c Hc] Hw]. simpl. munfold. rewrite Hc. simpl.
    rewrite Hw. simpl. done.
  - destruct Hs as ([c Hc] & Hw & Hfail & Hok & Hs).
    destruct (writeResult (network (world m)) (writes (world m))) as [err|] eqn:E;
      [|done].
    rewrite (performSend_loop_step _ _ _ _ c err) by done.
    destruct (failedWrite_frame m data i) as (Hh & Hp & Hn & Hd).
    unfold mbind, M_bind, reconnect.
    change initialDelay with (backoff 0).
    rewrite (reconnect_loop_complete k).
    + apply (IH fuel (S i)); [done|simpl in Hfuel; lia].
    + by rewrite Hn, Hd.
    + by rewrite Hn, Hd.
    + simpl in Hfuel. lia.
Qed.

Lemma performSend_loop_sound fuel data : ∀ i m u m',
  performSend_loop fuel data (backoff i) m = Done u m' →
  ∃ ks, length ks < fuel ∧ sendScript m data i ks ∧ m' = afterSend m data i ks.
Proof.
  induction fuel as [|fuel IH]; intros i m u m'; [discriminate|].
  destruct (conn (hook m)) as [c|] eqn:Hc.
  2:{ simpl. munfold. by rewrite Hc. }
  destruct (writeResult (network (world m)) (writes (world m))) as [err|] eqn:Hw.
  - rewrite (performSend_loop_step _ _ _ _ c err) by done.
    destruct (failedWrite_frame m data i) as (Hh & Hp & Hn & Hd).
    unfold mbind, M_bind, reconnect. change initialDelay with (backoff 0).
    destruct (reconnect_loop fuel (backoff 0) (failedWrite m data i))
      as [[] m1|msg m1|] eqn:Hr; [|discriminate..].
    apply reconnect_loop_sound in Hr as (k & Hk & Hfail & Hok & ->).
    intros H. apply IH in H as (ks & Hlen & Hs & ->).
    exists (k :: ks). simpl. split; [lia|]. split; [|done].
    rewrite Hc, Hw. rewrite Hn, Hd in Hfail, Hok. eauto 10.
  - simpl. munfold. rewrite Hc. simpl. rewrite Hw. simpl.
    intros [= _ <-]. exists []. simpl. rewrite Hc, Hw. split; [lia|]. eauto.
Qed.

Lemma performSend_loop_panic fuel data : ∀ delay m msg m',
  performSend_loop fuel data delay m = Panicked msg m' →
  conn (hook m) = None.
Proof.
  induction fuel as [|fuel IH]; intros delay m msg m'; [discriminate|].
  destruct (conn (hook m)) as [c|] eqn:Hc; [|done].
  simpl. munfold. rewrite Hc. simpl.
  destruct (writeResult (network (world m)) (writes (world m))) as [err|];
    simpl; [|discriminate].
  unfold reconnect.
  match goal with |- context [reconnect_loop fuel ?d ?x] =>
    destruct (reconnect_loop fuel d x) as [[] m1|msg1 m1|] eqn:Hr end;
    [|by apply reconnect_loop_no_panic in Hr|discriminate].
  intros H. apply IH in H.
  change initialDelay with (backoff 0) in Hr.
  apply reconnect_loop_sound in Hr as (k & _ & _ & _ & ->). done.
Qed.

Lemma reconnectTrace_app h n d i k rest :
  (∀ j, j < k → dialResult n (d + j) ≠ None) →
  dialBackoffs (reconnectTrace h n d i k ++ rest)
    = (backoff <$> seq i k) ++ dialBackoffs rest
  ∧ writeBackoffs (reconnectTrace h n d i k ++ rest) = writeBackoffs rest.
Proof.
  revert d i. induction k as [|k IH]; intros d i Hfail; [done|].
  simpl. destruct (dialResult n d) as [err|] eqn:E.
  2:{ exfalso. apply (Hfail 0); [lia|]. by rewrite Nat.add_0_r. }
  destruct (IH (S d) (S i)) as [H1 H2].
  { intros j Hj. simpl. rewrite <- Nat.add_succ_r. apply Hfail. lia. }
  simpl. by rewrite H1, H2.
Qed.

Lemma reconnected_frame m i k :
  heap (reconnected m i k) = heap m
  ∧ network (world (reconnected m i k)) = network (world m)
  ∧ writes (world (reconnected m i k)) = writes (world m)
  ∧ hook (reconnected m i k)
      = set_conn (Some (Dialled (dials (world m) + k))) (hook m)
  ∧ trace (reconnected m i k) =
      trace m ++ reconnectTrace (hook m) (network (world m)) (dials (world m)) i k.
Proof. done. Qed.

(** What a finished write loop has added to the trace. *)
Lemma afterSend_events data ks : ∀ i m,
  sendScript m data i ks →
  ∃ es c,
    trace (afterSend m data i ks) = trace m ++ es ++ [EvWrite c data None]
    ∧ conn (hook (afterSend m data i ks)) = Some c
    ∧ successfulWrites es = []
    ∧ failedWrites es = replicate (length ks) data
    ∧ writeBackoffs (es ++ [EvWrite c data None]) = backoff <$> seq i (length ks)
    ∧ dialBackoffs (es ++ [EvWrite c data None])
        = mjoin ((λ k, backoff <$> seq 0 k) <$> ks).
Proof.
  induction ks as [|k ks IH]; intros i m Hs.
  - destruct Hs as [[c Hc] Hw]. exists [], c. simpl. rewrite Hc. done.
  - destruct Hs as ([c Hc] & Hw & Hfail & Hok & Hs).
    destruct (writeResult (network (world m)) (writes (world m))) as [err|] eqn:E;
      [|done].
    destruct (IH _ _ Hs) as (es & c' & Ht & Hc' & H1 & H2 & H3 & H4).
    simpl afterSend.
    set (m1 := failedWrite m data i) in *.
    assert (Hm1 : trace m1 = trace m ++
      [EvWrite c data (Some err); EvLogError ("unable to write: " +:+ err);
       EvSleep (backoff i)]
      ∧ hook m1 = hook m ∧ network (world m1) = network (world m)
      ∧ dials (world m1) = dials (world m)).
    { unfold m1, failedWrite. rewrite Hc, E. done. }
    destruct Hm1 as (Ht1 & Hh1 & Hn1 & Hd1).
    destruct (reconnectTrace_sleeps (hook m) (network (world m))
                (dials (world m)) 0 k Hfail) as (_ & _ & R3 & R4 & _ & _).
    exists ([EvWrite c data (Some err); EvLogError ("unable to write: " +:+ err);
             EvSleep (backoff i)] ++
            reconnectTrace (hook m) (network (world m)) (dials (world m)) 0 k ++ es), c'.
    split; [|split; [done|]].
    { rewrite Ht. destruct (reconnected_frame m1 0 k) as (_ & _ & _ & _ & ->).
      rewrite Ht1, Hh1, Hn1, Hd1. by rewrite <- !app_assoc. }
    split; [|split; [|split]].
    + unfold successfulWrites in *. rewrite !omap_app, R3, H1. done.
    + unfold failedWrites in *. rewrite !omap_app, R4, H2. done.
    + simpl. rewrite <- app_assoc.
      destruct (reconnectTrace_app (hook m) (network (world m))
                  (dials (world m)) 0 k (es ++ [EvWrite c' data None]) Hfail)
        as [_ ->].
      by rewrite H3.
    + simpl. rewrite <- app_assoc.
      destruct (reconnectTrace_app (hook m) (network (world m))
                  (dials (world m)) 0 k (es ++ [EvWrite c' data None]) Hfail)
        as [-> _].
      by rewrite H4.
Qed.

Lemma set_conn_id h : set_conn (conn h) h = h.
Proof. by destruct h. Qed.

Lemma set_conn_twice c c' h : set_conn c (set_conn c' h) = set_conn c h.
Proof. done. Qed.

Lemma afterSend_frame data ks : ∀ i m,
  heap (afterSend m data i ks) = heap m
  ∧ network (world (afterSend m data i ks)) = network (world m)
  ∧ hook (afterSend m data i ks)
      = set_conn (conn (hook (afterSend m data i ks))) (hook m).
Proof.
  induction ks as [|k ks IH]; intros i m.
  - simpl. destruct (conn (hook m)) eqn:E; simpl;
      by rewrite set_conn_id.
  - simpl. destruct (IH (S i) (reconnected (failedWrite m data i) 0 k))
      as (-> & -> & ->).
    destruct (failedWrite_frame m data i) as (Hh & Hp & Hn & Hd).
    simpl. by rewrite Hh, Hp, Hn.
Qed.

(** ** The two range loops compute what the specification says *)

(** On a map that was made the loop never panics. *)
Lemma mergeFields_range_union static : ∀ data : gmap string logrus.Value,
  mergeFields_range static (Some data) = inl (Some (data ∪ list_to_map static)).
Proof.
  induction static as [|[k v] static IH]; intros data; cbn [mergeFields_range].
  - by rewrite list_to_map_nil, (right_id_L ∅ (∪)).
  - rewrite Fields_lookup_made, list_to_map_cons.
    destruct (data !! k) as [x|] eqn:E.
    + rewrite IH. do 2 f_equal. apply map_eq. intros j. rewrite !lookup_union.
      destruct (decide (k = j)) as [<-|Hne].
      * rewrite E, lookup_insert_eq. by destruct (list_to_map static !! k).
      * by rewrite lookup_insert_ne.
    + cbn [mapassign]. rewrite IH. do 2 f_equal.
      by rewrite <- insert_union_l, insert_union_r.
Qed.

(** On the nil map the first assignment panics. *)
Lemma mergeFields_range_nil static :
  mergeFields_range static None
  = match static with
    | [] => inl None
    | _ :: _ => inr "assignment to entry in nil map"
    end.
Proof. by destruct static as [|[k v] static]. Qed.

Lemma mergeFields_range_any_order (static : gmap string logrus.Value) order
    (data : logrus.Fields) :
  order ≡ₚ map_to_list static →
  mergeFields_range order data
  = match data with
    | Some d => inl (Some (d ∪ static))
    | None => if decide (static = ∅) then inl None
              else inr "assignment to entry in nil map"
    end.
Proof.
  intros Hp. destruct data as [d|].
  - rewrite mergeFields_range_union. do 3 f_equal.
    rewrite <- (list_to_map_to_list static).
    apply list_to_map_proper; [|done].
    rewrite Hp. apply NoDup_fst_map_to_list.
  - rewrite mergeFields_range_nil. destruct order as [|kv order].
    + symmetry in Hp. apply Permutation_nil_r in Hp.
      apply map_to_list_empty_iff in Hp. by rewrite decide_True.
    + rewrite decide_False; [done|]. intros ->.
      rewrite map_to_list_empty in Hp. symmetry in Hp.
      by apply Permutation_nil_cons in Hp.
Qed.

Lemma filterHookOnly_range_made prefix keys : ∀ data : gmap string logrus.Value,
  filterHookOnly_range prefix keys (Some data)
  = Some (foldl (λ d key, if HasPrefix key prefix then delete key d else d)
            data keys).
Proof.
  unfold filterHookOnly_range.
  induction keys as [|key keys IH]; intros data; cbn [foldl]; [done|].
  destruct (HasPrefix key prefix); apply IH.
Qed.

Lemma filterHookOnly_range_nil prefix keys :
  filterHookOnly_range prefix keys None = None.
Proof.
  unfold filterHookOnly_range.
  induction keys as [|key keys IH]; cbn [foldl]; [done|].
  by destruct (HasPrefix key prefix).
Qed.

Lemma filterHookOnly_range_lookup prefix keys : ∀ (data : logrus.Fields) k,
  filterHookOnly_range prefix keys data !! k =
  if decide (k ∈ keys ∧ HasPrefix k prefix = true) then None else data !! k.
Proof.
  intros [data|] k.
  2:{ rewrite filterHookOnly_range_nil, Fields_lookup_nil. by case_decide. }
  rewrite filterHookOnly_range_made, !Fields_lookup_made.
  revert data.
  induction keys as [|key keys IH]; intros data; cbn [foldl].
  - case_decide as H; [|done]. destruct H as [H _]. by apply not_elem_of_nil in H.
  - rewrite IH.
    destruct (decide (k ∈ keys ∧ HasPrefix k prefix = true)) as [[H1 H2]|Hn];
      destruct (decide (k ∈ key :: keys ∧ HasPrefix k prefix = true))
        as [[H3 H4]|Hn'].
    + done.
    + exfalso. apply Hn'. split; [by apply list_elem_of_further|done].
    + apply elem_of_cons in H3 as [->|H3]; [|exfalso; by apply Hn].
      rewrite H4. apply lookup_delete_eq.
    + destruct (HasPrefix key prefix) eqn:Hp; [|done].
      apply lookup_delete_ne. intros ->. apply Hn'.
      split; [apply list_elem_of_here|done].
Qed.

Lemma filterHookOnly_range_filter prefix keys (data : logrus.Fields) :
  (∀ k, is_Some (data !! k) → k ∈ keys) →
  filterHookOnly_range prefix keys data
  = filter (λ kv, HasPrefix kv.1 prefix = false) <$> data.
Proof.
  intros Hkeys. destruct data as [data|];
    [|by rewrite filterHookOnly_range_nil].
  pose proof (filterHookOnly_range_lookup prefix keys (Some data)) as Hl.
  rewrite filterHookOnly_range_made in *. cbn [fmap option_fmap option_map].
  f_equal. apply map_eq. intros k. specialize (Hl k).
  rewrite !Fields_lookup_made in Hl. rewrite Hl.
  specialize (Hkeys k). rewrite Fields_lookup_made in Hkeys.
  destruct (data !! k) as [v|] eqn:E.
  - case_decide as H.
    + symmetry. apply map_lookup_filter_None. right. intros x _. simpl.
      destruct H as [_ ->]. done.
    + symmetry. apply map_lookup_filter_Some. split; [done|]. simpl.
      destruct (HasPrefix k prefix) eqn:Hp; [|done].
      exfalso. apply H. split; [|done]. by apply Hkeys.
  - case_decide; symmetry; apply map_lookup_filter_None; by left.
Qed.

Lemma filterHookOnly_range_keys prefix (data : logrus.Fields) :
  filterHookOnly_range prefix (map_to_list (logrus.contents data)).*1 data
  = filter (λ kv, HasPrefix kv.1 prefix = false) <$> data.
Proof.
  apply filterHookOnly_range_filter. intros k [v Hv].
  apply list_elem_of_fmap. exists (k, v). split; [done|].
  by apply elem_of_map_to_list.
Qed.

(** ** Sending *)

Lemma withDeadline_frame m :
  hook (withDeadline m) = hook m
  ∧ heap (withDeadline m) = heap m
  ∧ network (world (withDeadline m)) = network (world m)
  ∧ dials (world (withDeadline m)) = dials (world m)
  ∧ writes (world (withDeadline m)) = writes (world m)
  ∧ ∃ es, trace (withDeadline m) = trace m ++ es
          ∧ successfulWrites es = [] ∧ failedWrites es = []
          ∧ sleeps es = [] ∧ dialAttempts es = []
          ∧ ∀ rest, writeBackoffs (es ++ rest) = writeBackoffs rest
                    ∧ dialBackoffs (es ++ rest) = dialBackoffs rest.
Proof.
  unfold withDeadline.
  destruct (0 <? Timeout (hook m))%Z; [destruct (conn (hook m))|].
  - repeat split; try done. by eexists [_].
  - repeat split; try done. exists []. by rewrite app_nil_r.
  - repeat split; try done. exists []. by rewrite app_nil_r.
Qed.

Lemma performSend_eq fuel data m :
  is_Some (conn (hook m)) →
  performSend fuel data m = performSend_loop fuel data (backoff 0) (withDeadline m).
Proof.
  intros [c Hc]. unfold performSend, withDeadline. munfold.
  destruct (0 <? Timeout (hook m))%Z; [|done].
  munfold. rewrite Hc. done.
Qed.

Lemma performSend_loop_panic_state fuel data : ∀ delay m msg m',
  performSend_loop fuel data delay m = Panicked msg m' → m' = m.
Proof.
  intros delay m msg m' H.
  pose proof (performSend_loop_panic _ _ _ _ _ _ H) as Hc.
  destruct fuel as [|fuel]; [discriminate|].
  simpl in H. revert H. munfold. rewrite Hc. by intros [= _ <-].
Qed.

Lemma performSend_panic fuel data m msg m' :
  performSend fuel data m = Panicked msg m' →
  conn (hook m) = None ∧ m' = m.
Proof.
  destruct (conn (hook m)) as [c|] eqn:Hc.
  - rewrite performSend_eq by (by rewrite Hc). intros H.
    apply performSend_loop_panic in H.
    destruct (withDeadline_frame m) as (Hh & _). rewrite Hh in H. congruence.
  - unfold performSend. munfold.
    destruct (0 <? Timeout (hook m))%Z.
    + munfold. rewrite Hc. by intros [= _ <-].
    + intros H. split; [done|]. by apply performSend_loop_panic_state in H.
Qed.

Lemma performSend_done fuel data m u m' :
  performSend fuel data m = Done u m' →
  ∃ ks, length ks < fuel
    ∧ sendScript (withDeadline m) data 0 ks
    ∧ m' = afterSend (withDeadline m) data 0 ks.
Proof.
  destruct (conn (hook m)) as [c|] eqn:Hc.
  - rewrite performSend_eq by (by rewrite Hc). apply performSend_loop_sound.
  - unfold performSend. munfold.
    destruct (0 <? Timeout (hook m))%Z.
    + munfold. by rewrite Hc.
    + destruct fuel as [|fuel]; [done|]. simpl. munfold. by rewrite Hc.
Qed.

Lemma performSend_frame fuel data m u m' :
  performSend fuel data m = Done u m' →
  heap m' = heap m
  ∧ network (world m') = network (world m)
  ∧ hook m' = set_conn (conn (hook m')) (hook m)
  ∧ is_Some (conn (hook m'))
  ∧ ∃ es, trace m' = trace m ++ es ∧ successfulWrites es = [data].
Proof.
  intros H. apply performSend_done in H as (ks & _ & Hs & ->).
  destruct (afterSend_frame data ks 0 (withDeadline m)) as (Hp & Hn & Hh).
  destruct (withDeadline_frame m) as (Wh & Wp & Wn & _ & _ & es0 & Wt & W1 & _).
  destruct (afterSend_events data ks 0 _ Hs) as (es & c & Ht & Hc & E1 & _).
  rewrite Hp, Hn, Wp, Wn. rewrite Wh in Hh.
  split_and!; [done..| |].
  - by rewrite Hc.
  - exists (es0 ++ es ++ [EvWrite c data None]).
    rewrite Ht, Wt, <- !app_assoc. split; [done|].
    unfold successfulWrites in *. by rewrite !omap_app, W1, E1.
Qed.

(** ** Sending one entry *)

Lemma merged_range h e :
  mergeFields_range (map_to_list (logrus.contents (alwaysSentFields h)))
    (logrus.Data e)
  = if decide (mergeable h e) then inl (logrus.Data (merged h e))
    else inr "assignment to entry in nil map".
Proof.
  rewrite (mergeFields_range_any_order (logrus.contents (alwaysSentFields h)))
    by done.
  destruct (decide (mergeable h e)) as [Hm|Hm]; unfold mergeable in Hm;
    unfold merged; simpl; destruct (logrus.Data e) as [d|]; simpl.
  - done.
  - by rewrite decide_True by auto.
  - exfalso. apply Hm. by intros [=].
  - rewrite decide_False; [done|]. intros H. apply Hm. by intros _.
Qed.

Lemma with_Data_merged h e :
  logrus.with_Data (logrus.Data (merged h e)) e = merged h e.
Proof. done. Qed.

(** Storing what is there already changes nothing. *)
Lemma stored_id entry e m : heap m !! entry = Some e → stored entry e m = m.
Proof.
  intros He. unfold stored, with_heap. rewrite insert_id by done.
  by destruct m.
Qed.

(** The deferred [filterHookOnly], run on a machine whose entry holds the
    merged record. *)
Lemma filterHookOnly_settles entry e0 m :
  heap m !! entry = Some e0 →
  filterHookOnly entry m = Done tt (stored entry (stripped (hook m) e0) m).
Proof.
  intros He. unfold filterHookOnly, stripped. munfold.
  destruct (decide (hookOnlyPrefix (hook m) = "")) as [Hp|Hp].
  - munfold. by rewrite stored_id.
  - munfold. rewrite He.
    by rewrite filterHookOnly_range_keys.
Qed.

(** The filter leaves a nil map alone. *)
Lemma stripped_nil h e : logrus.Data e = None → stripped h e = e.
Proof.
  intros Hd. unfold stripped. case_decide; [done|].
  rewrite Hd. destruct e. simpl in *. by subst.
Qed.

Lemma filterHookOnly_nil entry m :
  heap m !! entry = None →
  filterHookOnly entry m = Done tt m
  ∨ filterHookOnly entry m
    = Panicked "runtime error: invalid memory address or nil pointer dereference" m.
Proof.
  intros He. unfold filterHookOnly. munfold.
  destruct (decide (hookOnlyPrefix (hook m) = "")); [by left|].
  right. munfold. by rewrite He.
Qed.

Lemma sendMessage_eq F fuel entry m e :
  heap m !! entry = Some e →
  mergeable (hook m) e →
  sendMessage F fuel entry m =
  match serialized F (hook m) e with
  | inr err => Done (Some err) (stored entry (settled (hook m) e) m)
  | inl data =>
      match performSend fuel data (locked (stored entry (merged (hook m) e) m)) with
      | Done _ m' => Done None (stored entry (settled (hook m) e) (unlocked m'))
      | Panicked msg m' =>
          Panicked msg (stored entry (settled (hook m) e) (unlocked m'))
      | Starved => Starved
      end
  end.
Proof.
  intros He Hm. unfold sendMessage, defer, serialized, settled.
  munfold. rewrite He. munfold.
  rewrite merged_range, decide_True by done. munfold.
  fold (merged (hook m) e).
  fold (stored entry (merged (hook m) e) m).
  destruct (F (formatterOf (hook m)) (merged (hook m) e) (hookOnlyPrefix (hook m)))
    as [data|err]; munfold.
  - unfold lock. munfold.
    fold (locked (stored entry (merged (hook m) e) m)).
    destruct (performSend fuel data (locked (stored entry (merged (hook m) e) m)))
      as [[] m'|msg m'|] eqn:Hs; [| |done].
    + destruct (performSend_frame _ _ _ _ _ Hs) as (Hp & _ & Hh & _).
      unfold unlock. munfold. fold (unlocked m').
      rewrite (filterHookOnly_settles entry (merged (hook m) e)).
      * simpl. unfold stripped. simpl. rewrite Hh. done.
      * simpl. rewrite Hp. simpl. apply lookup_insert_eq.
    + apply performSend_panic in Hs as [_ ->].
      unfold unlock. munfold.
      rewrite (filterHookOnly_settles entry (merged (hook m) e)).
      * done.
      * simpl. apply lookup_insert_eq.
  - rewrite (filterHookOnly_settles entry (merged (hook m) e)).
    + unfold stored, with_heap. simpl. by rewrite insert_insert_eq.
    + simpl. apply lookup_insert_eq.
Qed.

(** A nil map and a static field to add: the assignment panics, the
    deferred filter finds nothing to delete, and the machine is as it
    was. *)
Lemma sendMessage_unmergeable F fuel entry m e :
  heap m !! entry = Some e →
  ¬ mergeable (hook m) e →
  sendMessage F fuel entry m = Panicked "assignment to entry in nil map" m.
Proof.
  intros He Hm. unfold sendMessage, defer. munfold. rewrite He. munfold.
  rewrite merged_range, decide_False by done. munfold.
  rewrite (filterHookOnly_settles entry e) by done.
  assert (Hd : logrus.Data e = None).
  { destruct (logrus.Data e) eqn:E; [|done]. exfalso. apply Hm.
    unfold mergeable. by rewrite E. }
  by rewrite stripped_nil, stored_id.
Qed.

Lemma sendMessage_nil F fuel entry m :
  heap m !! entry = None →
  sendMessage F fuel entry m
  = Panicked "runtime error: invalid memory address or nil pointer dereference" m.
Proof.
  intros He. unfold sendMessage, defer. munfold.
  rewrite He.
  by destruct (filterHookOnly_nil entry m He) as [->| ->].
Qed.

(** ** Retrying without bound *)

Lemma added_app m m' es : trace m' = trace m ++ es → added m m' = es.
Proof. intros H. unfold added. rewrite H. apply drop_app_length. Qed.

Lemma reconnect_done fuel m u m' :
  reconnect fuel m = Done u m' →
  ∃ k, k < fuel
    ∧ sleeps (added m m') = backoff <$> seq 0 k
    ∧ dialBackoffs (added m m') = backoff <$> seq 0 k
    ∧ length (dialAttempts (added m m')) = S k
    ∧ conn (hook m') = Some (Dialled (dials (world m) + k)).
Proof.
  unfold reconnect. change initialDelay with (backoff 0). intros H.
  apply reconnect_loop_sound in H as (k & Hk & Hfail & Hok & ->).
  exists k. split; [done|].
  rewrite (added_app m (reconnected m 0 k) _ eq_refl).
  destruct (reconnectTrace_sleeps (hook m) _ _ 0 k Hfail) as (-> & -> & _ & _ & _ & ->).
  done.
Qed.

Lemma reconnect_retries k fuel m :
  (∀ j, j < k → dialResult (network (world m)) (dials (world m) + j) ≠ None) →
  dialResult (network (world m)) (dials (world m) + k) = None →
  k < fuel →
  ∃ m', reconnect fuel m = Done tt m'
    ∧ length (dialAttempts (added m m')) = S k
    ∧ sleeps (added m m') = backoff <$> seq 0 k.
Proof.
  intros Hfail Hok Hfuel. exists (reconnected m 0 k).
  unfold reconnect. change initialDelay with (backoff 0).
  rewrite (reconnect_loop_complete k) by done. split; [done|].
  rewrite (added_app m (reconnected m 0 k) _ eq_refl).
  by destruct (reconnectTrace_sleeps (hook m) _ _ 0 k Hfail) as (-> & _ & _ & _ & _ & ->).
Qed.

Lemma reconnect_starved fuel m :
  (∀ j, dialResult (network (world m)) (dials (world m) + j) ≠ None) →
  reconnect fuel m = Starved.
Proof. apply reconnect_loop_starved. Qed.

Lemma afterSend_added data ks m :
  sendScript (withDeadline m) data 0 ks →
  let m' := afterSend (withDeadline m) data 0 ks in
  writeBackoffs (added m m') = backoff <$> seq 0 (length ks)
  ∧ failedWrites (added m m') = replicate (length ks) data
  ∧ successfulWrites (added m m') = [data]
  ∧ dialBackoffs (added m m') = mjoin ((λ k, backoff <$> seq 0 k) <$> ks).
Proof.
  intros Hs m'.
  destruct (withDeadline_frame m)
    as (_ & _ & _ & _ & _ & es0 & Wt & W1 & W2 & _ & _ & W3).
  destruct (afterSend_events data ks 0 _ Hs)
    as (es & c & Ht & _ & E1 & E2 & E3 & E4).
  rewrite (added_app m m' (es0 ++ es ++ [EvWrite c data None])).
  2:{ unfold m'. by rewrite Ht, Wt, <- !app_assoc. }
  destruct (W3 (es ++ [EvWrite c data None])) as [-> ->].
  unfold failedWrites, successfulWrites in *.
  rewrite !omap_app, W1, W2, E1, E2. simpl. rewrite app_nil_r. done.
Qed.

Lemma performSend_done_backoffs fuel data m u m' :
  performSend fuel data m = Done u m' →
  ∃ k, k < fuel
    ∧ writeBackoffs (added m m') = backoff <$> seq 0 k
    ∧ failedWrites (added m m') = replicate k data
    ∧ successfulWrites (added m m') = [data].
Proof.
  intros H. apply performSend_done in H as (ks & Hlen & Hs & ->).
  destruct (afterSend_added data ks m Hs) as (H1 & H2 & H3 & _).
  exists (length ks). done.
Qed.

Lemma performSend_loop_starved fuel data : ∀ i m,
  (∀ j, writeResult (network (world m)) (writes (world m) + j) ≠ None) →
  performSend_loop fuel data (backoff i) m = Starved
  ∨ ∃ msg m', performSend_loop fuel data (backoff i) m = Panicked msg m'.
Proof.
  induction fuel as [|fuel IH]; intros i m Hfail; [by left|].
  destruct (conn (hook m)) as [c|] eqn:Hc.
  2:{ right. simpl. munfold. rewrite Hc. eauto. }
  destruct (writeResult (network (world m)) (writes (world m))) as [err|] eqn:Hw.
  2:{ exfalso. apply (Hfail 0). by rewrite Nat.add_0_r. }
  rewrite (performSend_loop_step _ _ _ _ c err) by done.
  unfold mbind, M_bind, reconnect. change initialDelay with (backoff 0).
  destruct (reconnect_loop fuel (backoff 0) (failedWrite m data i))
    as [[] m1|msg m1|] eqn:Hr; [|by apply reconnect_loop_no_panic in Hr|by left].
  apply reconnect_loop_sound in Hr as (k & _ & _ & _ & ->).
  apply IH. simpl. unfold failedWrite. rewrite Hc, Hw. simpl.
  intros j. rewrite <- Nat.add_succ_r. apply Hfail.
Qed.

Lemma performSend_starved fuel data m :
  is_Some (conn (hook m)) →
  (∀ j, writeResult (network (world m)) (writes (world m) + j) ≠ None) →
  performSend fuel data m = Starved.
Proof.
  intros Hc Hfail. rewrite performSend_eq by done.
  destruct (withDeadline_frame m) as (Hh & _ & Hn & _ & Hw & _).
  destruct (performSend_loop_starved fuel data 0 (withDeadline m))
    as [H|(msg & m' & H)]; [by rewrite Hn, Hw|done|].
  apply performSend_loop_panic in H. rewrite Hh in H.
  destruct Hc as [c Hc]. congruence.
Qed.

Lemma sendScript_quiet_dials data k : ∀ i m,
  is_Some (conn (hook m)) →
  (∀ j, dialResult (network (world m)) (dials (world m) + j) = None) →
  (∀ j, j < k → writeResult (network (world m)) (writes (world m) + j) ≠ None) →
  writeResult (network (world m)) (writes (world m) + k) = None →
  sendScript m data i (replicate k 0).
Proof.
  induction k as [|k IH]; intros i m Hc Hd Hfail Hok.
  - split; [done|]. by rewrite Nat.add_0_r in Hok.
  - destruct Hc as [c Hc].
    destruct (writeResult (network (world m)) (writes (world m))) as [err|] eqn:Hw.
    2:{ exfalso. apply (Hfail 0); [lia|]. by rewrite Nat.add_0_r. }
    simpl. split; [by rewrite Hc|]. rewrite Hw. split; [done|].
    split; [intros; lia|]. split; [apply Hd|].
    apply IH; simpl; unfold failedWrite; rewrite Hc, Hw; simpl.
    + done.
    + intros j. replace (dials (world m) + 1 + j) with (dials (world m) + S j)
        by lia. apply Hd.
    + intros j Hj. rewrite <- Nat.add_succ_r. apply Hfail. lia.
    + by rewrite <- Nat.add_succ_r.
Qed.

Lemma performSend_retries k fuel data m :
  is_Some (conn (hook m)) →
  (∀ j, dialResult (network (world m)) (dials (world m) + j) = None) →
  (∀ j, j < k → writeResult (network (world m)) (writes (world m) + j) ≠ None) →
  writeResult (network (world m)) (writes (world m) + k) = None →
  k < fuel →
  ∃ m', performSend fuel data m = Done tt m'
    ∧ failedWrites (added m m') = replicate k data
    ∧ writeBackoffs (added m m') = backoff <$> seq 0 k
    ∧ successfulWrites (added m m') = [data].
Proof.
  intros Hc Hd Hfail Hok Hfuel.
  destruct (withDeadline_frame m) as (Hh & _ & Hn & Hdl & Hw & _).
  assert (Hs : sendScript (withDeadline m) data 0 (replicate k 0)).
  { apply sendScript_quiet_dials; rewrite ?Hh, ?Hn, ?Hdl, ?Hw; done. }
  assert (Hrun : performSend fuel data m
                 = Done tt (afterSend (withDeadline m) data 0 (replicate k 0))).
  { rewrite performSend_eq by done. apply performSend_loop_complete; [done|].
    rewrite length_replicate.
    assert (list_sum (replicate k 0) = 0) as -> by (clear; induction k; simpl; lia).
    lia. }
  eexists. split; [exact Hrun|].
  destruct (afterSend_added data (replicate k 0) m Hs) as (H1 & H2 & H3 & _).
  rewrite length_replicate in H1, H2. done.
Qed.

(** ** Claims about the levels, the backoff and the write retry *)

(** C8. [Levels()] returns the fixed ordered list of all seven standard
    severities -- panic, fatal, error, warn, info, debug, trace -- for
    every hook, whatever its configuration; no severity is missing from
    it and none occurs twice. *)
Theorem Levels_fixed (h : Hook) :
  Levels h = [ logrus.PanicLevel; logrus.FatalLevel; logrus.ErrorLevel;
               logrus.WarnLevel; logrus.InfoLevel; logrus.DebugLevel;
               logrus.TraceLevel ]
  ∧ (∀ l : logrus.Level, l ∈ Levels h)
  ∧ NoDup (Levels h).
Proof.
  split; [done|]. split.
  - intros l. apply list_elem_of_In. destruct l; simpl; tauto.
  - apply (bool_decide_unpack (NoDup (Levels h))). vm_compute. exact I.
Qed.

(** C6. In the connect loop and in the write loop alike the delay
    starts at 10 ms, is multiplied by 6/5 (and cut to whole nanoseconds)
    after every failed attempt, and is capped at one second, so the
    delays never decrease; the sleeps of a finished [reconnect] and of a
    finished [performSend] are exactly the first delays of that sequence,
    one per failed attempt; and neither loop gives up: it returns after
    any number of failures followed by a success, and never returns while
    every attempt fails. *)
Theorem backoff_schedule :
  backoff 0 = (10 * time.Millisecond)%Z
  ∧ (∀ n, backoff (S n) = Z.min time.Second (6 * backoff n / 5)%Z)
  ∧ (∀ n, (backoff n ≤ time.Second)%Z)
  ∧ (∀ i j, i ≤ j → (backoff i ≤ backoff j)%Z)
  ∧ (∀ fuel m u m',
       reconnect fuel m = Done u m' →
       ∃ k, dialBackoffs (added m m') = backoff <$> seq 0 k
            ∧ sleeps (added m m') = backoff <$> seq 0 k
            ∧ length (dialAttempts (added m m')) = S k)
  ∧ (∀ fuel data m u m',
       performSend fuel data m = Done u m' →
       ∃ k, writeBackoffs (added m m') = backoff <$> seq 0 k
            ∧ failedWrites (added m m') = replicate k data)
  ∧ (∀ k fuel m,
       (∀ j, j < k → dialResult (network (world m)) (dials (world m) + j) ≠ None) →
       dialResult (network (world m)) (dials (world m) + k) = None →
       k < fuel →
       ∃ m', reconnect fuel m = Done tt m'
             ∧ length (dialAttempts (added m m')) = S k)
  ∧ (∀ fuel m,
       (∀ j, dialResult (network (world m)) (dials (world m) + j) ≠ None) →
       reconnect fuel m = Starved)
  ∧ (∀ k fuel data m,
       is_Some (conn (hook m)) →
       (∀ j, dialResult (network (world m)) (dials (world m) + j) = None) →
       (∀ j, j < k → writeResult (network (world m)) (writes (world m) + j) ≠ None) →
       writeResult (network (world m)) (writes (world m) + k) = None →
       k < fuel →
       ∃ m', performSend fuel data m = Done tt m'
             ∧ failedWrites (added m m') = replicate k data)
  ∧ (∀ fuel data m,
       is_Some (conn (hook m)) →
       (∀ j, writeResult (network (world m)) (writes (world m) + j) ≠ None) →
       performSend fuel data m = Starved).
Proof.
  split_and!.
  - done.
  - apply backoff_ratio.
  - apply backoff_bounds.
  - apply backoff_mono.
  - intros fuel m u m' H.
    apply reconnect_done in H as (k & _ & H1 & H2 & H3 & _). eauto.
  - intros fuel data m u m' H.
    apply performSend_done_backoffs in H as (k & _ & H1 & H2 & _). eauto.
  - intros k fuel m Hfail Hok Hfuel.
    destruct (reconnect_retries k fuel m Hfail Hok Hfuel) as (m' & ? & ? & _).
    eauto.
  - apply reconnect_starved.
  - intros k fuel data m Hc Hd Hfail Hok Hfuel.
    destruct (performSend_retries k fuel data m Hc Hd Hfail Hok Hfuel)
      as (m' & ? & ? & _).
    eauto.
  - apply performSend_starved.
Qed.

Lemma backoff_schedule_witness :
  (∃ m', reconnect 3 (sampleMachine fireTestHook flakyNet) = Done tt m'
         ∧ length (dialAttempts
                     (added (sampleMachine fireTestHook flakyNet) m')) = 2)
  ∧ reconnect 5 (sampleMachine fireTestHook deadNet) = Starved
  ∧ (∃ m', performSend 3 [] (sampleMachine fireTestHook lossyNet) = Done tt m'
           ∧ failedWrites (added (sampleMachine fireTestHook lossyNet) m')
             = replicate 2 [])
  ∧ performSend 5 [] (sampleMachine fireTestHook deadNet) = Starved.
Proof.
  destruct backoff_schedule
    as (_ & _ & _ & _ & _ & _ & Hdial & Hnodial & Hwrite & Hnowrite).
  split_and!.
  - apply (Hdial 1 3 (sampleMachine fireTestHook flakyNet));
      [|reflexivity|lia].
    intros j Hj. assert (j = 0) as -> by lia. discriminate.
  - apply Hnodial. intros j. discriminate.
  - apply (Hwrite 2 3 [] (sampleMachine fireTestHook lossyNet));
      [by eexists|reflexivity| |reflexivity|lia].
    intros j Hj. simpl. destruct j as [|[|j]]; [discriminate..|lia].
  - apply Hnowrite; [by eexists|]. intros j. discriminate.
Defined.

(** C7. When a write of a record's bytes fails once and the next write
    succeeds, [performSend] returns, and what it added to the trace is:
    the failed write, its log line, a sleep of the first backoff delay,
    the reconnect, and one successful write of the whole record (on the
    connection the reconnect obtained).  The record is thus written
    successfully exactly once, with a sleep between the two writes. *)
Theorem write_fails_once fuel data m c err k :
  conn (hook m) = Some c →
  writeResult (network (world m)) (writes (world m)) = Some err →
  writeResult (network (world m)) (S (writes (world m))) = None →
  (∀ j, j < k → dialResult (network (world m)) (dials (world m) + j) ≠ None) →
  dialResult (network (world m)) (dials (world m) + k) = None →
  S k < fuel →
  ∃ m', performSend fuel data m = Done tt m'
    ∧ added (withDeadline m) m' =
        [ EvWrite c data (Some err);
          EvLogError ("unable to write: " +:+ err);
          EvSleep initialDelay ]
        ++ reconnectTrace (hook m) (network (world m)) (dials (world m)) 0 k
        ++ [ EvWrite (Dialled (dials (world m) + k)) data None ]
    ∧ successfulWrites (added m m') = [data]
    ∧ failedWrites (added m m') = [data]
    ∧ writeBackoffs (added m m') = [initialDelay].
Proof.
  intros Hc Hw Hw' Hfail Hok Hfuel.
  destruct (withDeadline_frame m) as (Hh & _ & Hn & Hd & Hwr & _).
  assert (Hs : sendScript (withDeadline m) data 0 [k]).
  { simpl. rewrite Hh, Hn, Hd, Hwr, Hc, Hw. split_and!; try done.
    unfold failedWrite. rewrite Hh, Hn, Hwr, Hc, Hw. simpl.
    by rewrite Hn, Hwr. }
  assert (Hrun : performSend fuel data m
                 = Done tt (afterSend (withDeadline m) data 0 [k])).
  { rewrite performSend_eq by (by rewrite Hc).
    apply performSend_loop_complete; [done|]. simpl. lia. }
  eexists. split; [exact Hrun|].
  destruct (afterSend_added data [k] m Hs) as (H1 & H2 & H3 & _).
  split; [|done].
  apply added_app. simpl. unfold failedWrite.
  rewrite Hh, Hn, Hwr, Hc, Hw. simpl. rewrite ?Hh, ?Hn, ?Hd.
  unfold trace. simpl. rewrite ?Hh, ?Hn, ?Hd.
  by rewrite <- !app_assoc.
Qed.

(** ** Claims about the fields of a record *)

Lemma merged_lookup h e k :
  mergeable h e →
  logrus.Data (merged h e) !! k =
  match logrus.Data e !! k with
  | Some v => Some v
  | None => alwaysSentFields h !! k
  end.
Proof.
  unfold mergeable, merged, lookup, Fields_lookup. simpl. intros Hm.
  destruct (logrus.Data e) as [d|]; simpl.
  - rewrite lookup_union.
    destruct (d !! k), (logrus.contents (alwaysSentFields h) !! k); done.
  - by rewrite Hm, !lookup_empty.
Qed.

(** Without the static fields: the record's own fields are never
    touched by the merge. *)
Lemma merged_lookup_own h e k v :
  logrus.Data e !! k = Some v → logrus.Data (merged h e) !! k = Some v.
Proof.
  unfold merged, lookup, Fields_lookup. simpl.
  destruct (logrus.Data e) as [d|]; simpl; [|done].
  intros Hk. by apply lookup_union_Some_l.
Qed.

Lemma stripped_lookup h e k :
  logrus.Data (stripped h e) !! k =
  if decide (hookOnlyPrefix h = "") then logrus.Data e !! k
  else if HasPrefix k (hookOnlyPrefix h) then None else logrus.Data e !! k.
Proof.
  unfold stripped. case_decide; [done|].
  unfold lookup, Fields_lookup. simpl.
  destruct (logrus.Data e) as [d|]; simpl.
  2:{ rewrite lookup_empty. by destruct (HasPrefix k (hookOnlyPrefix h)). }
  destruct (HasPrefix k (hookOnlyPrefix h)) eqn:Hp.
  - apply map_lookup_filter_None. right. intros x _. simpl. by rewrite Hp.
  - destruct (d !! k) as [v|] eqn:E.
    + by apply map_lookup_filter_Some.
    + apply map_lookup_filter_None. by left.
Qed.

(** A call that returns has merged: on a nil map with a static field to
    add it panics. *)
Lemma sendMessage_returns_mergeable F fuel entry m e r m' :
  heap m !! entry = Some e →
  sendMessage F fuel entry m = Done r m' →
  mergeable (hook m) e.
Proof.
  intros He Hrun. destruct (decide (mergeable (hook m) e)) as [|Hn]; [done|].
  by rewrite (sendMessage_unmergeable F fuel entry m e He Hn) in Hrun.
Qed.

(** What a returned [sendMessage] has done, in terms of the record it
    formatted and the record it left behind. *)
Lemma sendMessage_done F fuel entry m e r m' :
  heap m !! entry = Some e →
  sendMessage F fuel entry m = Done r m' →
  heap m' = <[entry := settled (hook m) e]> (heap m)
  ∧ network (world m') = network (world m)
  ∧ (∃ c, hook m' = set_conn c (set_sendingLocker (sendingLocker (hook m')) (hook m)))
  ∧ ∃ es, trace m' = trace m ++ es
     ∧ match r with
       | Some err => serialized F (hook m) e = inr err ∧ es = []
                     ∧ hook m' = hook m
       | None => ∃ data, serialized F (hook m) e = inl data
                         ∧ successfulWrites es = [data]
                         ∧ is_Some (conn (hook m'))
       end.
Proof.
  intros He Hrun.
  pose proof (sendMessage_returns_mergeable F fuel entry m e r m' He Hrun) as Hm.
  revert Hrun. rewrite (sendMessage_eq F fuel entry m e He Hm).
  destruct (serialized F (hook m) e) as [data|err] eqn:Hser.
  - destruct (performSend fuel data (locked (stored entry (merged (hook m) e) m)))
      as [[] m1|msg m1|] eqn:Hs; [|done..].
    intros [= <- <-].
    destruct (performSend_frame _ _ _ _ _ Hs) as (Hp & Hn & Hh & Hc & es & Ht & Hes).
    simpl. rewrite Hp, Hn. simpl. split_and!.
    + by rewrite insert_insert_eq.
    + done.
    + exists (conn (hook m1)). rewrite Hh. simpl. by destruct (hook m).
    + exists ([EvLock] ++ es ++ [EvUnlock]). split.
      * unfold trace in *. simpl. rewrite Ht. simpl. by rewrite <- !app_assoc.
      * exists data. split; [done|]. split; [|done].
        unfold successfulWrites in *. rewrite !omap_app, Hes. done.
  - intros [= <- <-]. simpl. split_and!; try done.
    + exists (conn (hook m)). by destruct (hook m).
    + exists []. by rewrite app_nil_r.
Qed.

(** C3. For every record and every set of static fields.  When the map
    of the record was made, or there is no static field, a [sendMessage]
    that returns has given the formatter a record in which every key of
    the record keeps the record's own value and every other key of the
    static fields carries the static value; the record it leaves behind
    holds the same values (apart from the keys the hook-only filter
    removes).  A static field is thus added only where the record has no
    field of that name.  When the map of the record is nil and there is a
    static field to add, the assignment panics: nothing is added, nothing
    is formatted or written, the lock is not taken, and the record is left
    as it was. *)
Theorem static_fields_never_override F fuel entry m e :
  heap m !! entry = Some e →
  (∀ r m',
     sendMessage F fuel entry m = Done r m' →
     mergeable (hook m) e
     ∧ ∃ formatted left : logrus.Entry,
         (∀ k, logrus.Data formatted !! k =
                 match logrus.Data e !! k with
                 | Some v => Some v
                 | None => alwaysSentFields (hook m) !! k
                 end)
         ∧ match r with
           | Some err =>
               F (formatterOf (hook m)) formatted (hookOnlyPrefix (hook m))
               = inr err
           | None =>
               ∃ data,
                 F (formatterOf (hook m)) formatted (hookOnlyPrefix (hook m))
                 = inl data
                 ∧ successfulWrites (added m m') = [data]
           end
         ∧ heap m' !! entry = Some left
         ∧ (∀ k, hookOnlyPrefix (hook m) = ""
                 ∨ HasPrefix k (hookOnlyPrefix (hook m)) = false →
                 logrus.Data left !! k = logrus.Data formatted !! k))
  ∧ (¬ mergeable (hook m) e →
       sendMessage F fuel entry m = Panicked "assignment to entry in nil map" m).
Proof.
  intros He. split; [|by apply sendMessage_unmergeable].
  intros r m' Hrun.
  pose proof (sendMessage_returns_mergeable F fuel entry m e r m' He Hrun) as Hm.
  split; [done|].
  destruct (sendMessage_done F fuel entry m e r m' He Hrun)
    as (Hp & _ & _ & es & Ht & Hr).
  exists (merged (hook m) e), (settled (hook m) e). split_and!.
  - intros k. by apply merged_lookup.
  - rewrite (added_app m m' es Ht). unfold serialized in Hr.
    destruct r as [err|].
    + by destruct Hr as (-> & _).
    + destruct Hr as (data & -> & -> & _). eauto.
  - rewrite Hp. apply lookup_insert_eq.
  - intros k Hk. unfold settled. rewrite stripped_lookup.
    case_decide as Hprefix; [done|].
    destruct Hk as [Hk|Hk]; [done|]. by rewrite Hk.
Qed.

Lemma static_fields_never_override_witness :
  let m := sampleMachine fireTestHook steadyNet in
  (∃ m',
     sendMessage messageFormatter 1 1%positive m = Done None m'
     ∧ mergeable (hook m) fireTestEntry
     ∧ ∃ formatted left : logrus.Entry,
         (∀ k, logrus.Data formatted !! k =
                 match logrus.Data fireTestEntry !! k with
                 | Some v => Some v
                 | None => alwaysSentFields fireTestHook !! k
                 end)
         ∧ (∃ data,
              messageFormatter (formatterOf fireTestHook) formatted "->" = inl data
              ∧ successfulWrites (added m m') = [data])
         ∧ heap m' !! 1%positive = Some left
         ∧ (∀ k, "->" = "" ∨ HasPrefix k "->" = false →
                 logrus.Data left !! k = logrus.Data formatted !! k))
  ∧ sendMessage messageFormatter 1 3%positive
      (with_heap <[3%positive := timeTestEntry]> m)
    = Panicked "assignment to entry in nil map"
        (with_heap <[3%positive := timeTestEntry]> m).
Proof.
  intros m. split.
  - eexists. split; [vm_compute; reflexivity|].
    apply (proj1 (static_fields_never_override messageFormatter 1 1%positive m
                    fireTestEntry ltac:(vm_compute; reflexivity)) None).
    vm_compute. reflexivity.
  - assert (He : heap (with_heap <[3%positive := timeTestEntry]> m) !! 3%positive
                  = Some timeTestEntry) by (vm_compute; reflexivity).
    apply (proj2 (static_fields_never_override messageFormatter 1 3%positive
                    _ timeTestEntry He)).
    unfold mergeable. intros H. specialize (H eq_refl). vm_compute in H.
    discriminate H.
Defined.

(** C4. With a non-empty hook-only prefix, after [sendMessage] has
    returned -- with or without a formatting error -- the record holds
    no key that starts with the prefix, and it holds every other key of
    the record and of the static fields, with the value it had when the
    record was formatted.  The filter is deferred, so the same holds of
    the record when the call panics instead (in the write, on a hook
    without a connection): no key starts with the prefix and every other
    key of the record is still there; when the panic is that of the merge
    into a nil map, no static field has been added. *)
Theorem hook_only_fields_removed F fuel entry m e m' :
  heap m !! entry = Some e →
  hookOnlyPrefix (hook m) ≠ "" →
  (∃ r, sendMessage F fuel entry m = Done r m')
  ∨ (∃ msg, sendMessage F fuel entry m = Panicked msg m') →
  ∃ left : logrus.Entry,
    heap m' !! entry = Some left
    ∧ (∀ k, HasPrefix k (hookOnlyPrefix (hook m)) = true →
            logrus.Data left !! k = None)
    ∧ (∀ k, HasPrefix k (hookOnlyPrefix (hook m)) = false →
            logrus.Data left !! k =
              match logrus.Data e !! k with
              | Some v => Some v
              | None => if decide (mergeable (hook m) e)
                        then alwaysSentFields (hook m) !! k else None
              end).
Proof.
  intros He Hprefix Hrun.
  destruct (decide (mergeable (hook m) e)) as [Hm|Hm].
  - assert (Hp : heap m' !! entry = Some (settled (hook m) e)).
    { revert Hrun. rewrite (sendMessage_eq F fuel entry m e He Hm).
      destruct (serialized F (hook m) e) as [data|err].
      - destruct (performSend fuel data
                    (locked (stored entry (merged (hook m) e) m)))
          as [[] m1|msg m1|];
          intros [[r [=]]|[msg' [=]]]; subst; apply lookup_insert_eq.
      - intros [[r [=]]|[msg' [=]]]; subst; apply lookup_insert_eq. }
    exists (settled (hook m) e). split_and!; [done| |].
    + intros k Hk. unfold settled. rewrite stripped_lookup.
      case_decide; [done|]. by rewrite Hk.
    + intros k Hk. unfold settled. rewrite stripped_lookup.
      case_decide; [done|]. rewrite Hk. by apply merged_lookup.
  - rewrite (sendMessage_unmergeable F fuel entry m e He Hm) in Hrun.
    assert (m' = m) as -> by (destruct Hrun as [[r [=]]|[msg [=]]]; done).
    assert (Hd : logrus.Data e = None).
    { destruct (logrus.Data e) eqn:E; [|done]. exfalso. apply Hm.
      unfold mergeable. by rewrite E. }
    exists e. rewrite Hd. split_and!; done.
Qed.

Lemma hook_only_fields_removed_witness :
  let m := sampleMachine fireTestHook steadyNet in
  ∃ m',
    sendMessage messageFormatter 1 1%positive m = Done None m'
    ∧ ∃ left : logrus.Entry,
        heap m' !! 1%positive = Some left
        ∧ (∀ k, HasPrefix k "->" = true → logrus.Data left !! k = None)
        ∧ (∀ k, HasPrefix k "->" = false →
                logrus.Data left !! k =
                  match logrus.Data fireTestEntry !! k with
                  | Some v => Some v
                  | None => if decide (mergeable (hook m) fireTestEntry)
                            then alwaysSentFields fireTestHook !! k else None
                  end).
Proof.
  intros m. eexists. split; [vm_compute; reflexivity|].
  apply (hook_only_fields_removed messageFormatter 1 1%positive m
           fireTestEntry);
    [vm_compute; reflexivity | discriminate |].
  left. exists None. vm_compute. reflexivity.
Defined.

(** The record of the package's test of [Fire], once sent: the record's
    own ["override"] wins, ["test-name"] is added, ["->ignore"] is gone. *)
Example fire_test_record :
  ∃ m' left,
    sendMessage messageFormatter 1 1%positive (sampleMachine fireTestHook steadyNet)
      = Done None m'
    ∧ heap m' !! 1%positive = Some left
    ∧ logrus.Data left =
        Some (<["override" := logrus.VString "yes"]>
                (<["test-name" := logrus.VString "fire-test"]> ∅))
    ∧ successfulWrites (trace m') = [String.list_byte_of_string "hello world!"].
Proof. eexists _, _. split_and!; vm_compute; reflexivity. Qed.

(** A record that does not serialize is stripped all the same, and
    nothing is written. *)
Example bad_record_is_stripped :
  ∃ m' left,
    sendMessage messageFormatter 1 2%positive (sampleMachine fireTestHook steadyNet)
      = Done (Some "json: unsupported type") m'
    ∧ heap m' !! 2%positive = Some left
    ∧ logrus.Data left !! "->secret" = None
    ∧ logrus.Data left !! "bad" = Some (logrus.VOpaque 1)
    ∧ trace m' = [].
Proof. eexists _, _. split_and!; vm_compute; reflexivity. Qed.

Lemma write_fails_once_witness :
  let m := sampleMachine fireTestHook flakyNet in
  let data := String.list_byte_of_string "hello world!" in
  ∃ m', performSend 3 data m = Done tt m'
    ∧ added (withDeadline m) m' =
        [ EvWrite (Supplied 0) data (Some "broken pipe");
          EvLogError ("unable to write: " +:+ "broken pipe");
          EvSleep initialDelay ]
        ++ reconnectTrace (hook m) (network (world m)) (dials (world m)) 0 1
        ++ [ EvWrite (Dialled (dials (world m) + 1)) data None ]
    ∧ successfulWrites (added m m') = [data]
    ∧ failedWrites (added m m') = [data]
    ∧ writeBackoffs (added m m') = [initialDelay].
Proof.
  intros m data.
  apply (write_fails_once 3 data m (Supplied 0) "broken pipe" 1);
    [reflexivity | reflexivity | reflexivity | | reflexivity | lia].
  intros j Hj. assert (j = 0) as -> by lia. discriminate.
Defined.


(** ** The retry limits are dead configuration *)

Lemma sameButRetries_set h1 h2 :
  sameButRetries h1 h2 ↔
  h2 = set_retries (MaxSendRetries h2) (MaxReconnectRetries h2) h1.
Proof.
  unfold sameButRetries. destruct h1, h2; simpl. split.
  - intros (-> & -> & -> & -> & -> & -> & -> & -> & -> & -> & -> & -> & ->).
    done.
  - intros [= -> -> -> -> -> -> -> -> -> -> -> -> ->]. done.
Qed.

Lemma reconnect_loop_retries a b fuel : ∀ delay h σ w,
  reconnect_loop fuel delay {| hook := set_retries a b h; heap := σ; world := w |}
  = res_map (with_hook (set_retries a b))
      (reconnect_loop fuel delay {| hook := h; heap := σ; world := w |}).
Proof.
  induction fuel as [|fuel IH]; intros delay h σ w; [done|].
  simpl. munfold. unfold with_world, with_hook. simpl.
  destruct (dialResult (network w) (dials w)); simpl; [apply IH|done].
Qed.

Lemma performSend_loop_retries a b fuel data : ∀ delay h σ w,
  performSend_loop fuel data delay
    {| hook := set_retries a b h; heap := σ; world := w |}
  = res_map (with_hook (set_retries a b))
      (performSend_loop fuel data delay {| hook := h; heap := σ; world := w |}).
Proof.
  induction fuel as [|fuel IH]; intros delay h σ w; [done|].
  simpl. munfold. unfold with_world, with_hook. simpl.
  destruct (conn h); simpl; [|done].
  destruct (writeResult (network w) (writes w)); simpl; [|done].
  unfold reconnect. rewrite reconnect_loop_retries.
  match goal with |- context [reconnect_loop fuel ?d ?x] =>
    destruct (reconnect_loop fuel d x) as [[] [h1 σ1 w1]|msg m1|] end;
    simpl; [apply IH|done..].
Qed.

Lemma performSend_retries_ignored a b fuel data h σ w :
  performSend fuel data {| hook := set_retries a b h; heap := σ; world := w |}
  = res_map (with_hook (set_retries a b))
      (performSend fuel data {| hook := h; heap := σ; world := w |}).
Proof.
  unfold performSend. munfold.
  destruct (0 <? Timeout h)%Z; munfold.
  - destruct (conn h); simpl; [|done].
    unfold with_world. simpl. apply performSend_loop_retries.
  - apply performSend_loop_retries.
Qed.

Lemma sameRun_res_map {A} a b (r : Res A) :
  sameRun r (res_map (with_hook (set_retries a b)) r).
Proof.
  destruct r as [x m|msg m|]; simpl; [| |done];
    (split_and!; [done| |done..]);
    apply sameButRetries_set; by destruct (hook m).
Qed.

(** C9. [MaxSendRetries] and [MaxReconnectRetries] are never read: run
    from two hooks that differ only in these two fields, on the same
    entries and in the same world, [performSend] ends the same way
    (returns, panics or keeps looping alike) with the same world, that
    is the same trace of writes, sleeps and dials and the same position
    in the network's answers, and so does [reconnect].  How often they
    retry is told by the network alone. *)
Theorem retry_limits_ignored (h1 h2 : Hook) (σ : gmap loc logrus.Entry)
    (w : World) (fuel : nat) (data : list Byte.byte) :
  sameButRetries h1 h2 →
  sameRun (performSend fuel data {| hook := h1; heap := σ; world := w |})
          (performSend fuel data {| hook := h2; heap := σ; world := w |})
  ∧ sameRun (reconnect fuel {| hook := h1; heap := σ; world := w |})
            (reconnect fuel {| hook := h2; heap := σ; world := w |}).
Proof.
  intros H. apply sameButRetries_set in H. rewrite H. split.
  - rewrite performSend_retries_ignored. apply sameRun_res_map.
  - unfold reconnect. rewrite reconnect_loop_retries. apply sameRun_res_map.
Qed.

Lemma retry_limits_ignored_witness :
  let h2 := set_retries 3 0 fireTestHook in
  let σ := heap (sampleMachine fireTestHook flakyNet) in
  let w := world (sampleMachine fireTestHook flakyNet) in
  sameRun (performSend 3 [] {| hook := fireTestHook; heap := σ; world := w |})
          (performSend 3 [] {| hook := h2; heap := σ; world := w |})
  ∧ sameRun (reconnect 3 {| hook := fireTestHook; heap := σ; world := w |})
            (reconnect 3 {| hook := h2; heap := σ; world := w |}).
Proof.
  intros h2 σ w.
  apply (retry_limits_ignored fireTestHook h2 σ w 3 []).
  unfold sameButRetries. simpl. split_and!; reflexivity.
Defined.

(** ** Fire *)

(** C2. [Fire] never returns an error, in any configuration: with room
    in the channel the entry is appended at once and [nil] is returned;
    with a full channel and [WaitUntilBufferFrees] the call waits,
    changing nothing, stays waiting for as long as the channel is full,
    and appends the entry and returns [nil] once it is scheduled with
    room in the channel; with a full channel otherwise the entry is
    dropped, ["dropped a message"] is logged (through [log.Errorf]) and
    [nil] is returned. *)
Theorem Fire_never_fails (entry : loc) (m : Machine) :
  let ch := fireChannel (hook m) in
  (∃ st m', Fire entry m = Done st m'
            ∧ (st = FireReturned None ∨ st = FireBlocked entry))
  ∧ (∃ st m', Fire_step (FireBlocked entry) m = Done st m'
              ∧ (st = FireReturned None ∨ st = FireBlocked entry))
  ∧ (length (buf ch) < cap ch →
       Fire entry m = Done (FireReturned None) (enqueue entry m)
       ∧ Fire_step (FireBlocked entry) m
           = Done (FireReturned None) (enqueue entry m))
  ∧ (cap ch ≤ length (buf ch) → WaitUntilBufferFrees (hook m) = true →
       Fire entry m = Done (FireBlocked entry) m)
  ∧ (cap ch ≤ length (buf ch) →
       Fire_step (FireBlocked entry) m = Done (FireBlocked entry) m)
  ∧ (cap ch ≤ length (buf ch) → WaitUntilBufferFrees (hook m) = false →
       Fire entry m
       = Done (FireReturned None)
              (with_world (emit (EvLogError "dropped a message")) m)).
Proof.
  intros ch. unfold Fire, Fire_step, chansend. munfold. fold ch.
  destruct (decide (length (buf ch) < cap ch)) as [Hroom|Hfull];
    destruct (WaitUntilBufferFrees (hook m)); munfold;
    split_and!; intros; try done; try lia; eauto.
Qed.

Lemma Fire_never_fails_witness :
  let full := set_fireChannel {| buf := [1%positive]; cap := 1 |} fireTestHook in
  Fire 2%positive (sampleMachine fireTestHook steadyNet)
    = Done (FireReturned None) (enqueue 2%positive (sampleMachine fireTestHook steadyNet))
  ∧ Fire 2%positive (sampleMachine full steadyNet)
    = Done (FireReturned None)
        (with_world (emit (EvLogError "dropped a message"))
           (sampleMachine full steadyNet)).
Proof.
  intros full. split.
  - apply (Fire_never_fails 2%positive (sampleMachine fireTestHook steadyNet)).
    simpl. lia.
  - apply (Fire_never_fails 2%positive (sampleMachine full steadyNet));
      [simpl; lia|reflexivity].
Defined.

(** The second record of a channel of capacity 1 is dropped. *)
Example overflow_is_dropped :
  let h := set_fireChannel {| buf := [1%positive]; cap := 1 |} fireTestHook in
  ∃ m', Fire 2%positive (sampleMachine h steadyNet) = Done (FireReturned None) m'
        ∧ buf (fireChannel (hook m')) = [1%positive]
        ∧ trace m' = [EvLogError "dropped a message"].
Proof. eexists. split_and!; reflexivity. Qed.

(** ** Flush *)

(** C10. With a timeout of zero or less [Flush] returns the
    deadline-exceeded error at the first test of its loop condition: it
    has not taken the send lock, has not read the length of the queue and
    has not slept, so nothing of the hook was touched. *)
Theorem Flush_nonpositive_timeout (env : FlushEnv) (timeout : time.Duration)
    (fuel : nat) :
  (timeout ≤ 0)%Z →
  Flush (S fuel) env timeout = (FlushReturned (Some DeadlineExceeded), []).
Proof.
  intros Ht. unfold Flush. simpl. unfold clockAtTest.
  destruct (Z.ltb_spec (startTime env + Z.of_N (elapsed env 0))
                       (startTime env + timeout)); [lia|done].
Qed.

Lemma Flush_nonpositive_timeout_witness :
  Flush 1 drainingEnv (-5)%Z = (FlushReturned (Some DeadlineExceeded), []).
Proof. apply (Flush_nonpositive_timeout drainingEnv (-5)%Z 0). lia. Defined.




(** In that environment the third poll finds the queue empty. *)
Example Flush_drains :
  Flush 3 drainingEnv time.Second
  = (FlushReturned None,
     [ FlLock; FlUnlock; FlLen 2; FlSleep time.Millisecond;
       FlLock; FlUnlock; FlLen 1; FlSleep time.Millisecond;
       FlLock; FlUnlock; FlLen 0 ]).
Proof. vm_compute. reflexivity. Qed.

(** A poll that had to wait for the lock beyond the deadline still
    returns [nil] when it finds the queue empty. *)
Example Flush_late_poll :
  let env := {| startTime := 0%Z; elapsed := λ _, 0%N;
                lockWait := λ _, Some 10000000%N;    (* 10 ms *)
                queueLen := λ _, 0; overslept := λ _, 0%N |} in
  Flush 1 env (5 * time.Millisecond)%Z
  = (FlushReturned None, [FlLock; FlUnlock; FlLen 0]).
Proof. vm_compute. reflexivity. Qed.

(** On a dead network the sender never comes back from [sendMessage]:
    it has taken the send lock and is retrying the write, so the lock is
    not released. *)
Example sender_stuck_under_lock (fuel : nat) :
  sendMessage messageFormatter fuel 1%positive (sampleMachine fireTestHook deadNet)
  = Starved.
Proof.
  rewrite (sendMessage_eq _ _ _ _ fireTestEntry)
    by (reflexivity || by intros [=]).
  change (serialized messageFormatter
            (hook (sampleMachine fireTestHook deadNet)) fireTestEntry)
    with (inl (String.list_byte_of_string "hello world!") : list Byte.byte + error).
  cbv iota. rewrite performSend_starved; [done|by eexists|].
  intros j. discriminate.
Qed.


(** ** The reference image, one record at a time *)

Lemma mergeable_settled h e : mergeable h e → mergeable h (settled h e).
Proof.
  unfold mergeable, settled, stripped, merged. intros Hm Hd. apply Hm.
  case_decide; simpl in Hd; by destruct (logrus.Data e).
Qed.

Lemma allSendable_insert h σ k v sent :
  mergeable h v →
  allSendable h σ sent → allSendable h (<[k := v]> σ) sent.
Proof.
  unfold allSendable. intros Hv H. eapply Forall_impl; [exact H|].
  simpl. intros l (e & He & Hm).
  destruct (decide (k = l)) as [->|Hne].
  - exists v. by rewrite lookup_insert_eq.
  - exists e. by rewrite lookup_insert_ne.
Qed.

Lemma heapAfter_snoc h sent : ∀ σ l,
  allSendable h σ sent →
  heapAfter h σ (sent ++ [l]) =
  match heapAfter h σ sent !! l with
  | None => heapAfter h σ sent
  | Some e =>
      if decide (mergeable h e)
      then <[l := settled h e]> (heapAfter h σ sent)
      else heapAfter h σ sent
  end.
Proof.
  induction sent as [|x sent IH]; intros σ l Hp; simpl.
  - destruct (σ !! l) as [e|]; [|done]. by case_decide.
  - apply Forall_cons in Hp as [(e & He & Hm) Hp]. rewrite He.
    destruct (decide (mergeable h e)) as [_|Hn]; [|by destruct Hn].
    apply IH. apply allSendable_insert; [by apply mergeable_settled|done].
Qed.

Lemma wireImage_snoc F h sent : ∀ σ l,
  allSendable h σ sent →
  wireImage F h σ (sent ++ [l]) =
  wireImage F h σ sent ++
  match heapAfter h σ sent !! l with
  | None => []
  | Some e =>
      if decide (mergeable h e) then
        match serialized F h e with
        | inl bytes => [bytes]
        | inr _ => []
        end
      else []
  end.
Proof.
  induction sent as [|x sent IH]; intros σ l Hp; simpl.
  - destruct (σ !! l) as [e|]; [|done]. case_decide; [|done].
    by destruct (serialized F h e).
  - apply Forall_cons in Hp as [(e & He & Hm) Hp]. rewrite He.
    destruct (decide (mergeable h e)) as [_|Hn]; [|by destruct Hn].
    rewrite IH
      by (apply allSendable_insert; [by apply mergeable_settled|done]).
    by destruct (serialized F h e).
Qed.

Lemma payloadOf_insert_ne F h σ x v y :
  x ≠ y → payloadOf F h (<[x := v]> σ) y = payloadOf F h σ y.
Proof. intros Hne. unfold payloadOf. by rewrite lookup_insert_ne. Qed.

Lemma omap_payloadOf_insert F h σ x v (sent : list loc) :
  x ∉ sent →
  omap (payloadOf F h (<[x := v]> σ)) sent = omap (payloadOf F h σ) sent.
Proof.
  induction sent as [|y sent IH]; intros Hx; [done|].
  apply not_elem_of_cons in Hx as [Hne Hx].
  cbn. rewrite payloadOf_insert_ne by done.
  fold (omap (payloadOf F h (<[x := v]> σ)) sent).
  fold (omap (payloadOf F h σ) sent).
  by rewrite IH.
Qed.

(** With pairwise distinct pointers the image is the list of the
    payloads of the records as they were enqueued. *)
Lemma wireImage_distinct F h sent : ∀ σ,
  NoDup sent → allSendable h σ sent →
  wireImage F h σ sent = omap (payloadOf F h σ) sent.
Proof.
  induction sent as [|x sent IH]; intros σ Hnd Hp; [done|].
  apply NoDup_cons in Hnd as [Hx Hnd].
  apply Forall_cons in Hp as [(e & He & Hm) Hp].
  cbn [wireImage]. rewrite He.
  destruct (decide (mergeable h e)) as [_|Hn]; [|by destruct Hn].
  rewrite IH;
    [|done|apply allSendable_insert; [by apply mergeable_settled|done]].
  rewrite omap_payloadOf_insert by done.
  change (omap (payloadOf F h σ) (x :: sent))
    with (match payloadOf F h σ x with
          | Some y => y :: omap (payloadOf F h σ) sent
          | None => omap (payloadOf F h σ) sent
          end).
  assert (payloadOf F h σ x
          = match serialized F h e with
            | inl bytes => Some bytes
            | inr _ => None
            end) as ->.
  { unfold payloadOf. by rewrite He. }
  by destruct (serialized F h e).
Qed.

Lemma sameConfig_settled h h' e :
  sameConfig h h' → settled h' e = settled h e.
Proof.
  intros (_ & Hs & Hp & _). unfold settled, stripped, merged.
  by rewrite Hs, Hp.
Qed.

Lemma sameConfig_mergeable h h' e :
  sameConfig h h' → mergeable h' e ↔ mergeable h e.
Proof. intros (_ & Hs & _). unfold mergeable. by rewrite Hs. Qed.

(** A record that can be sent after others have been processed could be
    sent from the start. *)
Lemma heapAfter_sendable h sent : ∀ σ l e,
  allSendable h σ sent →
  heapAfter h σ sent !! l = Some e → mergeable h e →
  sendable h σ l.
Proof.
  induction sent as [|x sent IH]; intros σ l e Hp; simpl.
  - intros He Hm. by exists e.
  - apply Forall_cons in Hp as [(ex & Hex & Hmx) Hp]. rewrite Hex.
    destruct (decide (mergeable h ex)) as [_|Hn]; [|by destruct Hn].
    intros He Hm.
    destruct (IH (<[x := settled h ex]> σ) l e) as (e0 & He0 & Hm0);
      [apply allSendable_insert; [by apply mergeable_settled|done]|done..|].
    destruct (decide (x = l)) as [->|Hne]; [by exists ex|].
    exists e0. by rewrite lookup_insert_ne in He0.
Qed.

Lemma sameConfig_serialized F h h' e :
  sameConfig h h' → serialized F h' e = serialized F h e.
Proof.
  intros (Ha & Hs & Hp & Ht). unfold serialized, merged, formatterOf.
  by rewrite Ha, Hs, Hp, Ht.
Qed.

(** ** Steps of the system keep the invariant *)

Lemma Fire_step_outcome s m e :
  s = FireCalled e ∨ s = FireBlocked e →
  ∃ st m', Fire_step s m = Done st m'
    ∧ (st = FireReturned None ∨ st = FireBlocked e)
    ∧ (m' = enqueue e m ∨ m' = m
       ∨ m' = with_world (emit (EvLogError "dropped a message")) m).
Proof.
  intros [->| ->]; unfold Fire_step, chansend; munfold;
    destruct (decide (length (buf (fireChannel (hook m)))
                      < cap (fireChannel (hook m))));
    try destruct (WaitUntilBufferFrees (hook m)); munfold; eauto 10.
Qed.

Lemma appended_cases e m m' :
  m' = enqueue e m ∨ m' = m
  ∨ m' = with_world (emit (EvLogError "dropped a message")) m →
  buf (fireChannel (hook m')) = buf (fireChannel (hook m)) ++ appended m m'
  ∧ successfulWrites (trace m') = successfulWrites (trace m)
  ∧ heap m' = heap m
  ∧ network (world m') = network (world m)
  ∧ conn (hook m') = conn (hook m)
  ∧ ∀ h0, sameConfig h0 (hook m) → sameConfig h0 (hook m').
Proof.
  unfold appended.
  intros [->|[->| ->]]; simpl; split_and!; try done.
  - by rewrite drop_app_length.
  - by rewrite drop_all, app_nil_r.
  - by rewrite drop_all, app_nil_r.
  - unfold trace, successfulWrites. simpl. by rewrite omap_app, app_nil_r.
Qed.

Lemma pipelineInv_produce F h0 σ0 n0 s e m' parked' :
  pipelineInv F h0 σ0 n0 s →
  m' = enqueue e (machine s) ∨ m' = machine s
  ∨ m' = with_world (emit (EvLogError "dropped a message")) (machine s) →
  pipelineInv F h0 σ0 n0
    {| machine := m'; sender := sender s; parked := parked';
       enqueued := enqueued s ++ appended (machine s) m' |}.
Proof.
  intros (sent & Henq & Hw & Hp & Hcfg & Hn & Hc & Hall) Hm'.
  destruct (appended_cases e (machine s) m' Hm')
    as (Hbuf & Hw' & Hp' & Hn' & Hc' & Hcfg').
  exists sent. simpl. rewrite Hbuf, Hw', Hp', Hn', Hc', Henq.
  split_and!; try done.
  - by rewrite app_assoc.
  - by apply Hcfg'.
Qed.

Lemma sendMessage_present F fuel entry m e msg m' :
  heap m !! entry = Some e →
  mergeable (hook m) e →
  is_Some (conn (hook m)) →
  sendMessage F fuel entry m ≠ Panicked msg m'.
Proof.
  intros He Hm Hc. rewrite (sendMessage_eq F fuel entry m e He Hm).
  destruct (serialized F (hook m) e) as [data|err]; [|done].
  destruct (performSend fuel data (locked (stored entry (merged (hook m) e) m)))
    as [[] m1|msg1 m1|] eqn:Hs; [done| |done].
  apply performSend_panic in Hs as [Hnone _]. simpl in Hnone.
  destruct Hc as [c Hc]. congruence.
Qed.

Lemma trace_emit e m : trace (with_world (emit e) m) = trace m ++ [e].
Proof. done. Qed.

Lemma successfulWrites_app a b :
  successfulWrites (a ++ b) = successfulWrites a ++ successfulWrites b.
Proof. apply omap_app. Qed.

Lemma sameConfig_set h0 h c b :
  sameConfig h0 h → sameConfig h0 (set_conn c (set_sendingLocker b h)).
Proof. done. Qed.

Lemma sameConfig_set_channel h0 h ch :
  sameConfig h0 h → sameConfig h0 (set_fireChannel ch h).
Proof. done. Qed.

Lemma pipelineInv_sender F fuel h0 σ0 n0 s phase' m' :
  pipelineInv F h0 σ0 n0 s →
  senderStep F fuel (sender s) (machine s) = Done phase' m' →
  pipelineInv F h0 σ0 n0
    {| machine := m'; sender := phase'; parked := parked s;
       enqueued := enqueued s |}.
Proof.
  intros (sent & Henq & Hw & Hp & Hcfg & Hn & Hc & Hall).
  unfold senderStep, init_turn.
  destruct (sender s) eqn:Hphase.
  - (* the initial connect *)
    munfold. destruct (conn (hook (machine s))) as [c|] eqn:Hconn; munfold.
    + intros [= <- <-]. exists sent. simpl. rewrite Hconn.
      split_and!; eauto.
    + unfold reconnect. change initialDelay with (backoff 0).
      destruct (reconnect_loop fuel (backoff 0) (machine s))
        as [[] m1|msg m1|] eqn:Hr;
        [|by apply reconnect_loop_no_panic in Hr|done].
      apply reconnect_loop_sound in Hr as (k & _ & Hfail & _ & ->).
      intros [= <- <-]. exists sent. simpl.
      destruct (reconnectTrace_sleeps (hook (machine s))
                  (network (world (machine s))) (dials (world (machine s)))
                  0 k Hfail) as (_ & _ & Hnone & _).
      unfold trace in *. simpl. unfold successfulWrites in *.
      rewrite omap_app, Hnone, app_nil_r.
      split_and!; eauto.
  - (* one iteration of the range loop *)
    unfold chanrecv. munfold.
    destruct (buf (fireChannel (hook (machine s)))) as [|entry rest] eqn:Hbuf;
      munfold.
    + intros [= <- <-]. exists sent. simpl. rewrite Hbuf.
      split_and!; eauto.
    + set (m1 := with_hook
                   (set_fireChannel
                      {| buf := rest; cap := cap (fireChannel (hook (machine s))) |})
                   (machine s)).
      assert (Hpresent : allSendable h0 σ0 sent) by (apply Hall; congruence).
      assert (Hcfg1 : sameConfig h0 (hook m1)) by done.
      destruct (heap m1 !! entry) as [e|] eqn:He.
      * assert (He' : heapAfter h0 σ0 sent !! entry = Some e)
          by (by rewrite <- Hp).
        destruct (decide (mergeable (hook m1) e)) as [Hm1|Hm1].
        -- (* a record that can be sent is behind the pointer *)
           assert (Hm0 : mergeable h0 e)
             by (by apply (sameConfig_mergeable h0 (hook m1))).
           destruct (sendMessage F fuel entry m1) as [r m2|msg m2|] eqn:Hs;
             [|by apply (sendMessage_present _ _ _ _ e) in Hs; eauto|done].
           destruct (sendMessage_done F fuel entry m1 e r m2 He Hs)
             as (Hp2 & Hn2 & [c Hh2] & es & Ht2 & Hr).
           rewrite (sameConfig_settled h0 (hook m1)) in Hp2 by done.
           rewrite (sameConfig_serialized F h0 (hook m1)) in Hr by done.
           assert (Hc2 : conn (hook m2) = c) by (by rewrite Hh2).
           assert (Ht1 : trace m1 = trace (machine s)) by done.
           rewrite Ht1 in Ht2.
           assert (Hall' : allSendable h0 σ0 (sent ++ [entry])).
           { apply Forall_app. split; [done|]. apply Forall_singleton.
             by apply (heapAfter_sendable h0 sent σ0 entry e). }
           destruct r as [err|]; munfold; intros [= <- <-];
             exists (sent ++ [entry]); simpl;
             rewrite Hp2, Hn2, Hh2;
             rewrite heapAfter_snoc, wireImage_snoc by done; rewrite He';
             rewrite !decide_True by done;
             simpl; rewrite <- Hp.
           ++ destruct Hr as (-> & -> & Hh). split_and!; try done.
              ** by rewrite Henq, ?Hbuf, <- app_assoc.
              ** rewrite trace_emit, Ht2, !successfulWrites_app, Hw. simpl.
                 by rewrite !app_nil_r.
              ** intros _. rewrite <- Hc2, Hh. simpl. apply Hc. done.
           ++ destruct Hr as (data & -> & Hdata & Hsome). split_and!; try done.
              ** by rewrite Henq, ?Hbuf, <- app_assoc.
              ** by rewrite Ht2, successfulWrites_app, Hw, Hdata.
              ** intros _. by rewrite <- Hc2.
        -- (* a nil map and a static field: the goroutine panics and ends *)
           assert (Hm0 : ¬ mergeable h0 e).
           { intros H. by apply Hm1, (sameConfig_mergeable h0 (hook m1)). }
           rewrite (sendMessage_unmergeable F fuel entry m1 e He Hm1).
           munfold. intros [= <- <-]. exists (sent ++ [entry]). simpl.
           rewrite heapAfter_snoc, wireImage_snoc by done.
           rewrite He', !decide_False, app_nil_r by done.
           split_and!; try done.
           ++ by rewrite Henq, ?Hbuf, <- app_assoc.
           ++ rewrite !trace_emit, !successfulWrites_app. simpl.
              by rewrite !app_nil_r.
      * (* a nil pointer: the goroutine panics and ends *)
        rewrite (sendMessage_nil F fuel entry m1 He).
        munfold. intros [= <- <-]. exists (sent ++ [entry]). simpl.
        rewrite heapAfter_snoc, wireImage_snoc by done.
        assert (He' : heapAfter h0 σ0 sent !! entry = None)
          by (by rewrite <- Hp).
        rewrite He', app_nil_r. split_and!; try done.
        -- by rewrite Henq, ?Hbuf, <- app_assoc.
        -- rewrite !trace_emit, !successfulWrites_app. simpl.
           by rewrite !app_nil_r.
  - (* the goroutine has ended *)
    munfold. intros [= <- <-]. exists sent. split_and!; done.
Qed.

Lemma pipelineInv_boot F h σ n : pipelineInv F h σ n (boot h σ n).
Proof. exists []. simpl. split_and!; try done. intros _. apply Forall_nil_2. Qed.

Lemma pipelineInv_step F fuel h0 σ0 n0 a s s' :
  pipelineInv F h0 σ0 n0 s →
  step F fuel a s = Some s' →
  pipelineInv F h0 σ0 n0 s'.
Proof.
  intros Hinv. destruct a as [entry|i|]; simpl.
  - destruct (Fire_step_outcome (FireCalled entry) (machine s) entry)
      as (st & m' & Hrun & _ & Hm'); [by left|].
    unfold Fire. rewrite Hrun. intros [= <-].
    by apply (pipelineInv_produce _ _ _ _ _ entry).
  - destruct (parked s !! i) as [entry|]; [|by intros [= <-]].
    destruct (Fire_step_outcome (FireBlocked entry) (machine s) entry)
      as (st & m' & Hrun & _ & Hm'); [by right|].
    rewrite Hrun. intros [= <-].
    by apply (pipelineInv_produce _ _ _ _ _ entry).
  - destruct (senderStep F fuel (sender s) (machine s))
      as [phase' m'|msg m'|] eqn:Hs; [|done..].
    intros [= <-]. by apply (pipelineInv_sender _ fuel).
Qed.

Lemma pipelineInv_run F fuel h0 σ0 n0 schedule : ∀ s s',
  pipelineInv F h0 σ0 n0 s →
  run F fuel schedule s = Some s' →
  pipelineInv F h0 σ0 n0 s'.
Proof.
  induction schedule as [|a schedule IH]; intros s s' Hinv; simpl.
  - by intros [= <-].
  - destruct (step F fuel a s) as [s1|] eqn:Hstep; [|done].
    apply IH. by apply (pipelineInv_step _ fuel _ _ _ a s).
Qed.

(** ** On a network that recovers, nothing loops for ever *)

Lemma first_success (f : nat → option error) B : ∀ k,
  (∃ j, j ≤ B ∧ f (k + j) = None) →
  ∃ j, j ≤ B ∧ f (k + j) = None ∧ ∀ i, i < j → f (k + i) ≠ None.
Proof.
  induction B as [|B IH]; intros k (j & Hj & Hf).
  - exists 0. assert (j = 0) as -> by lia. split_and!; [lia|done|intros; lia].
  - destruct (f (k + 0)) as [err|] eqn:E.
    + destruct j as [|j]; [congruence|].
      destruct (IH (S k)) as (j0 & Hj0 & Hf0 & Hmin).
      { exists j. split; [lia|]. by rewrite Nat.add_succ_comm. }
      exists (S j0). split_and!; [lia|by rewrite <- Nat.add_succ_comm|].
      intros [|i] Hi; [congruence|].
      rewrite <- Nat.add_succ_comm. apply Hmin. lia.
    + exists 0. split_and!; [lia|done|intros; lia].
Qed.

Lemma recovering_reconnect B fuel m :
  recovers (network (world m)) B → B < fuel →
  ∃ k, reconnect fuel m = Done tt (reconnected m 0 k).
Proof.
  intros [Hd _] Hfuel.
  destruct (first_success (dialResult (network (world m))) B (dials (world m))
              (Hd _)) as (k & Hk & Hok & Hfail).
  exists k. unfold reconnect. change initialDelay with (backoff 0).
  apply reconnect_loop_complete; [done..|lia].
Qed.

Lemma recovering_script data B j : ∀ i m,
  recovers (network (world m)) B →
  is_Some (conn (hook m)) →
  (∀ x, x < j → writeResult (network (world m)) (writes (world m) + x) ≠ None) →
  writeResult (network (world m)) (writes (world m) + j) = None →
  ∃ ks, sendScript m data i ks ∧ length ks = j ∧ list_sum ks ≤ B * j.
Proof.
  induction j as [|j IH]; intros i m Hrec Hc Hfail Hok.
  - exists []. split_and!; [|done|simpl; lia].
    split; [done|]. by rewrite Nat.add_0_r in Hok.
  - destruct Hc as [c Hc].
    destruct (writeResult (network (world m)) (writes (world m))) as [err|] eqn:Hw.
    2:{ exfalso. apply (Hfail 0); [lia|]. by rewrite Nat.add_0_r. }
    destruct (first_success (dialResult (network (world m))) B
                (dials (world m)) (proj1 Hrec _)) as (k & Hk & Hdok & Hdfail).
    set (m1 := reconnected (failedWrite m data i) 0 k).
    assert (Hm1 : network (world m1) = network (world m)
                  ∧ writes (world m1) = S (writes (world m))
                  ∧ is_Some (conn (hook m1))).
    { unfold m1, failedWrite. rewrite Hc, Hw. simpl. eauto. }
    destruct Hm1 as (Hn1 & Hw1 & Hc1).
    destruct (IH (S i) m1) as (ks & Hs & Hlen & Hsum).
    { by rewrite Hn1. }
    { done. }
    { intros x Hx. rewrite Hn1, Hw1. simpl. rewrite <- Nat.add_succ_r.
      apply Hfail. lia. }
    { rewrite Hn1, Hw1. simpl. by rewrite <- Nat.add_succ_r. }
    exists (k :: ks). split_and!.
    + simpl. rewrite Hc, Hw. split_and!; eauto.
    + simpl. lia.
    + simpl. nia.
Qed.

Lemma recovering_performSend B fuel data m :
  recovers (network (world m)) B →
  is_Some (conn (hook m)) →
  B + B * B < fuel →
  ∃ m', performSend fuel data m = Done tt m'.
Proof.
  intros Hrec Hc Hfuel.
  destruct (withDeadline_frame m) as (Hh & _ & Hn & _ & Hw & _).
  destruct (first_success (writeResult (network (world m))) B
              (writes (world m)) (proj2 Hrec _)) as (j & Hj & Hok & Hfail).
  destruct (recovering_script data B j 0 (withDeadline m))
    as (ks & Hs & Hlen & Hsum); rewrite ?Hh, ?Hn, ?Hw; try done.
  eexists. rewrite performSend_eq by done.
  apply performSend_loop_complete; [exact Hs|]. nia.
Qed.

Lemma recovering_sendMessage F B fuel entry m e :
  recovers (network (world m)) B →
  heap m !! entry = Some e →
  mergeable (hook m) e →
  is_Some (conn (hook m)) →
  B + B * B < fuel →
  ∃ r m', sendMessage F fuel entry m = Done r m'.
Proof.
  intros Hrec He Hm Hc Hfuel. rewrite (sendMessage_eq F fuel entry m e He Hm).
  destruct (serialized F (hook m) e) as [data|err]; [|eauto].
  destruct (recovering_performSend B fuel data
              (locked (stored entry (merged (hook m) e) m)))
    as (m' & ->); eauto.
Qed.

Lemma recovering_step F B fuel h0 σ0 n0 a s :
  recovers n0 B → B + B * B < fuel →
  pipelineInv F h0 σ0 n0 s →
  ∃ s', step F fuel a s = Some s'.
Proof.
  intros Hrec Hfuel (sent & _ & _ & _ & _ & Hn & Hc & _).
  destruct a as [entry|i|]; simpl.
  - destruct (Fire_step_outcome (FireCalled entry) (machine s) entry)
      as (st & m' & Hrun & _); [by left|].
    unfold Fire. rewrite Hrun. eauto.
  - destruct (parked s !! i) as [entry|]; [|eauto].
    destruct (Fire_step_outcome (FireBlocked entry) (machine s) entry)
      as (st & m' & Hrun & _); [by right|].
    rewrite Hrun. eauto.
  - assert (∃ phase' m', senderStep F fuel (sender s) (machine s)
                         = Done phase' m') as (phase' & m' & ->); [|eauto].
    unfold senderStep, init_turn. rewrite <- Hn in Hrec.
    destruct (sender s) eqn:Hphase.
    + munfold. destruct (conn (hook (machine s))); munfold; [eauto|].
      destruct (recovering_reconnect B fuel (machine s)) as (k & ->);
        [done|nia|]. eauto.
    + unfold chanrecv. munfold.
      destruct (buf (fireChannel (hook (machine s)))) as [|entry rest];
        munfold; [eauto|].
      match goal with |- context [sendMessage F fuel entry ?x] =>
        set (m1 := x) end.
      destruct (heap m1 !! entry) as [e|] eqn:He.
      * destruct (decide (mergeable (hook m1) e)) as [Hm|Hm].
        -- destruct (recovering_sendMessage F B fuel entry m1 e)
             as (r & m2 & ->); try done.
           { apply Hc. done. }
           destruct r; munfold; eauto.
        -- rewrite (sendMessage_unmergeable F fuel entry m1 e He Hm). eauto.
      * rewrite (sendMessage_nil F fuel entry m1 He). eauto.
    + munfold. eauto.
Qed.

Lemma recovering_run F B fuel h0 σ0 n0 schedule : ∀ s,
  recovers n0 B → B + B * B < fuel →
  pipelineInv F h0 σ0 n0 s →
  ∃ s', run F fuel schedule s = Some s'.
Proof.
  induction schedule as [|a schedule IH]; intros s Hrec Hfuel Hinv; simpl;
    [eauto|].
  destruct (recovering_step F B fuel h0 σ0 n0 a s) as [s1 Hs1]; try done.
  rewrite Hs1. apply IH; try done.
  by apply (pipelineInv_step _ fuel _ _ _ a s).
Qed.

(** ** Order of delivery *)

(** The history [enqueued] grows by exactly the entries whose send found
    room in the channel. *)
Lemma step_history F fuel a s s' :
  step F fuel a s = Some s' →
  let room := bool_decide (length (buf (fireChannel (hook (machine s))))
                           < cap (fireChannel (hook (machine s)))) in
  enqueued s' = enqueued s ++
    match a with
    | ActFire entry => if room then [entry] else []
    | ActWake i =>
        match parked s !! i with
        | Some entry => if room then [entry] else []
        | None => []
        end
    | ActSender => []
    end.
Proof.
  intros Hstep room. unfold room. destruct a as [entry|i|]; simpl in Hstep.
  - revert Hstep. unfold Fire, Fire_step, chansend, appended. munfold.
    case_bool_decide as Hroom.
    + rewrite decide_True by done. munfold. intros [= <-]. simpl.
      by rewrite drop_app_length.
    + rewrite decide_False by done.
      destruct (WaitUntilBufferFrees (hook (machine s))); munfold;
        intros [= <-]; simpl; by rewrite drop_all.
  - destruct (parked s !! i) as [entry|]; [|injection Hstep as <-; by rewrite app_nil_r].
    revert Hstep. unfold Fire_step, chansend, appended. munfold.
    case_bool_decide as Hroom.
    + rewrite decide_True by done. munfold. intros [= <-]. simpl.
      by rewrite drop_app_length.
    + rewrite decide_False by done. munfold.
      intros [= <-]; simpl; by rewrite drop_all.
  - destruct (senderStep F fuel (sender s) (machine s)); [|done..].
    injection Hstep as <-. simpl. by rewrite app_nil_r.
Qed.

(** ** The sender takes what is in the channel *)

(** Of the hook, [sendMessage] changes the connection and the lock at
    most, however it ends. *)
Lemma sendMessage_hook F fuel entry m :
  match sendMessage F fuel entry m with
  | Done _ m' | Panicked _ m' =>
      ∃ c b, hook m' = set_conn c (set_sendingLocker b (hook m))
  | Starved => True
  end.
Proof.
  assert (Hid : ∃ c b, hook m = set_conn c (set_sendingLocker b (hook m))).
  { exists (conn (hook m)), (sendingLocker (hook m)). by destruct (hook m). }
  destruct (heap m !! entry) as [e|] eqn:He;
    [|by rewrite (sendMessage_nil F fuel entry m He)].
  destruct (decide (mergeable (hook m) e)) as [Hm|Hm];
    [|by rewrite (sendMessage_unmergeable F fuel entry m e He Hm)].
  rewrite (sendMessage_eq F fuel entry m e He Hm).
  destruct (serialized F (hook m) e) as [data|err]; [|done].
  destruct (performSend fuel data (locked (stored entry (merged (hook m) e) m)))
    as [[] m1|msg m1|] eqn:Hs; [| |done].
  - apply performSend_frame in Hs as (_ & _ & Hh & _).
    exists (conn (hook m1)), false. simpl. by rewrite Hh.
  - apply performSend_panic in Hs as [_ ->].
    exists (conn (hook m)), false. simpl. by destruct (hook m).
Qed.

(** A turn of the sender goroutine: the first one connects, every later
    one takes the oldest entry out of the channel, if there is one. *)
Lemma sender_takes_head F fuel s s' :
  step F fuel ActSender s = Some s' →
  match sender s with
  | Spawned =>
      sender s' = Receiving
      ∧ buf (fireChannel (hook (machine s')))
        = buf (fireChannel (hook (machine s)))
  | Receiving =>
      buf (fireChannel (hook (machine s')))
      = tail (buf (fireChannel (hook (machine s))))
  | Exited =>
      sender s' = Exited
      ∧ buf (fireChannel (hook (machine s')))
        = buf (fireChannel (hook (machine s)))
  end.
Proof.
  simpl. unfold senderStep, init_turn. destruct (sender s).
  - munfold. destruct (conn (hook (machine s))); munfold;
      [by intros [= <-]|].
    unfold reconnect. change initialDelay with (backoff 0).
    destruct (reconnect_loop fuel (backoff 0) (machine s))
      as [[] m1|msg m1|] eqn:Hr;
      [|by apply reconnect_loop_no_panic in Hr|done].
    apply reconnect_loop_sound in Hr as (k & _ & _ & _ & ->).
    by intros [= <-].
  - unfold chanrecv. munfold.
    destruct (buf (fireChannel (hook (machine s)))) as [|entry rest] eqn:Hbuf;
      munfold.
    { intros [= <-]. simpl. by rewrite Hbuf. }
    match goal with |- context [sendMessage F fuel entry ?x] =>
      pose proof (sendMessage_hook F fuel entry x) as Hh;
      destruct (sendMessage F fuel entry x) as [r m1|msg m1|]
    end; [| |done].
    + destruct Hh as (c & b & Hh).
      destruct r; munfold; intros [= <-]; simpl; by rewrite Hh.
    + destruct Hh as (c & b & Hh). munfold. intros [= <-]. simpl.
      by rewrite Hh.
  - munfold. by intros [= <-].
Qed.

Lemma sendable_config h h' σ l :
  alwaysSentFields h = alwaysSentFields h' → sendable h σ l → sendable h' σ l.
Proof.
  intros Hs (e & He & Hm). exists e. split; [done|].
  unfold mergeable in *. by rewrite <- Hs.
Qed.

(** A turn of the receiving goroutine on a network that recovers, with
    only records in the channel that can be sent: the oldest one is
    taken and the goroutine goes on receiving. *)
Lemma sender_turn F B fuel h0 σ0 n0 s :
  pipelineInv F h0 σ0 n0 s →
  recovers n0 B → B + B * B < fuel →
  sender s = Receiving →
  Forall (sendable h0 (heap (machine s)))
         (buf (fireChannel (hook (machine s)))) →
  ∃ s1, step F fuel ActSender s = Some s1
    ∧ sender s1 = Receiving
    ∧ buf (fireChannel (hook (machine s1)))
      = tail (buf (fireChannel (hook (machine s))))
    ∧ enqueued s1 = enqueued s
    ∧ Forall (sendable h0 (heap (machine s1)))
             (buf (fireChannel (hook (machine s1))))
    ∧ pipelineInv F h0 σ0 n0 s1.
Proof.
  intros Hinv Hrec Hfuel Hs Hall.
  destruct (recovering_step F B fuel h0 σ0 n0 ActSender s) as [s1 Hstep];
    try done.
  pose proof (pipelineInv_step F fuel h0 σ0 n0 ActSender s s1 Hinv Hstep) as Hinv1.
  pose proof (sender_takes_head F fuel s s1 Hstep) as Hhead.
  rewrite Hs in Hhead.
  exists s1. split; [done|].
  destruct Hinv as (sent & _ & _ & _ & Hcfg & _ & Hc & _).
  specialize (Hc Hs).
  revert Hstep. simpl. rewrite Hs.
  unfold senderStep, init_turn, chanrecv. munfold.
  destruct (buf (fireChannel (hook (machine s)))) as [|entry rest] eqn:Hbuf;
    munfold.
  - intros [= <-]. simpl in *. rewrite Hbuf. split_and!; done.
  - apply Forall_cons in Hall as [(e & He & Hm0) Hrest].
    match goal with |- context [sendMessage F fuel entry ?x] =>
      set (m1 := x) end.
    assert (Hm1 : mergeable (hook m1) e).
    { by apply (sameConfig_mergeable h0 (hook m1)). }
    destruct (sendMessage F fuel entry m1) as [r m2|msg m2|] eqn:Hsend;
      [| |done].
    2:{ by apply (sendMessage_present F fuel entry m1 e) in Hsend. }
    destruct (sendMessage_done F fuel entry m1 e r m2 He Hsend)
      as (Hp & _ & [c Hh] & _).
    assert (Hpresent : Forall (sendable h0 (heap m2)) rest).
    { rewrite Hp. apply (allSendable_insert h0); [|done].
      rewrite (sameConfig_settled h0 (hook m1)) by done.
      by apply mergeable_settled. }
    destruct r; munfold; intros [= <-]; simpl in *;
      rewrite Hhead; split_and!; done.
Qed.

Lemma drain F B fuel h0 σ0 n0 : ∀ k s,
  length (buf (fireChannel (hook (machine s)))) ≤ k →
  pipelineInv F h0 σ0 n0 s →
  recovers n0 B → B + B * B < fuel →
  sender s = Receiving →
  Forall (sendable h0 (heap (machine s)))
         (buf (fireChannel (hook (machine s)))) →
  ∃ s', run F fuel (replicate k ActSender) s = Some s'
    ∧ sender s' = Receiving
    ∧ buf (fireChannel (hook (machine s'))) = []
    ∧ enqueued s' = enqueued s
    ∧ pipelineInv F h0 σ0 n0 s'.
Proof.
  induction k as [|k IH]; intros s Hk Hinv Hrec Hfuel Hs Hall.
  - exists s. split_and!; try done.
    destruct (buf (fireChannel (hook (machine s)))); [done|simpl in Hk; lia].
  - destruct (sender_turn F B fuel h0 σ0 n0 s)
      as (s1 & Hstep & Hs1 & Hb1 & He1 & Hall1 & Hinv1); try done.
    destruct (IH s1) as (s' & Hrun & Hs' & Hb' & He' & Hinv'); try done.
    { rewrite Hb1. destruct (buf (fireChannel (hook (machine s))));
        simpl in *; lia. }
    exists s'. cbn [replicate run]. rewrite Hstep.
    split_and!; try done. congruence.
Qed.

(** From any state a run has reached, with the goroutine alive. *)
Lemma drain_reached F B fuel h σ n s :
  pipelineInv F h σ n s →
  recovers n B → B + B * B < fuel →
  sender s ≠ Exited →
  Forall (sendable h (heap (machine s)))
         (buf (fireChannel (hook (machine s)))) →
  ∃ s',
    run F fuel
      (replicate (S (length (buf (fireChannel (hook (machine s)))))) ActSender) s
    = Some s'
    ∧ sender s' = Receiving
    ∧ buf (fireChannel (hook (machine s'))) = []
    ∧ enqueued s' = enqueued s
    ∧ successfulWrites (trace (machine s')) = wireImage F h σ (enqueued s).
Proof.
  intros Hinv Hrec Hfuel Hs Hall.
  set (k := length (buf (fireChannel (hook (machine s))))).
  assert (∃ s', run F fuel (replicate (S k) ActSender) s = Some s'
            ∧ sender s' = Receiving
            ∧ buf (fireChannel (hook (machine s'))) = []
            ∧ enqueued s' = enqueued s
            ∧ pipelineInv F h σ n s')
    as (s' & Hrun' & Hs' & Hb' & He' & Hinv').
  { destruct (sender s) eqn:Hphase; [| |done].
    - (* the first turn connects *)
      destruct (recovering_step F B fuel h σ n ActSender s) as [s1 Hstep];
        try done.
      pose proof (pipelineInv_step F fuel h σ n ActSender s s1 Hinv Hstep)
        as Hinv1.
      pose proof (sender_takes_head F fuel s s1 Hstep) as Hhead.
      rewrite Hphase in Hhead. destruct Hhead as [Hs1 Hb1].
      assert (heap (machine s1) = heap (machine s)
              ∧ enqueued s1 = enqueued s) as (Hh1 & He1).
      { revert Hstep. simpl. rewrite Hphase.
        unfold senderStep, init_turn. munfold.
        destruct (conn (hook (machine s))); munfold; [by intros [= <-]|].
        unfold reconnect. change initialDelay with (backoff 0).
        destruct (reconnect_loop fuel (backoff 0) (machine s))
          as [[] m1|msg m1|] eqn:Hr;
          [|by apply reconnect_loop_no_panic in Hr|done].
        apply reconnect_loop_sound in Hr as (j & _ & _ & _ & ->).
        by intros [= <-]. }
      destruct (drain F B fuel h σ n k s1)
        as (s' & Hrun' & Hs' & Hb' & He' & Hinv'); try done.
      { by rewrite Hb1. }
      { by rewrite Hb1, Hh1. }
      exists s'. cbn [replicate run]. rewrite Hstep.
      split_and!; try done. congruence.
    - destruct (drain F B fuel h σ n (S k) s)
        as (s' & Hrun' & Hs' & Hb' & He' & Hinv'); try done.
      { unfold k. lia. }
      by exists s'. }
  exists s'. split_and!; try done.
  destruct Hinv' as (sent & Henq & Hw & _).
  rewrite Hb', app_nil_r in Henq. by rewrite Hw, <- Henq, He'.
Qed.

(** C1. Whatever the producers and the sender goroutine do in whatever
    interleaving, the payloads of the writes that succeeded are, in
    order and without repetition, the serialized records of the entries
    the sender has taken from the channel, and these entries are a prefix
    of the entries that were enqueued, in the order they were enqueued
    (the rest is still buffered); every successful write carries one
    whole record.  A record that does not serialize leaves no write, and
    the image ends at the first entry that makes the goroutine panic (a
    nil pointer, or a nil map with a static field to add).  With pairwise
    distinct entries the writes are simply the payloads of the entries as
    they were when enqueued.  On a network that recovers the run never
    gets stuck in a retry loop.  An entry is enqueued exactly when its
    send, from [Fire] directly or from a call of [Fire] that was waiting,
    finds room in the channel.  The sender does take what is enqueued:
    its first turn connects, every later turn removes the oldest entry
    from the channel, and on a network that recovers a goroutine that is
    alive, given one turn more than there are buffered records (all of
    which can be sent), empties the channel and has then written the
    records of everything that was ever enqueued, in order. *)
Theorem sender_keeps_order (F : Formatter) (fuel : nat)
    (schedule : list Action) (h : Hook) (σ : gmap loc logrus.Entry) (n : Net) :
  (∀ s', run F fuel schedule (boot h σ n) = Some s' →
     ∃ sent,
       enqueued s' = sent ++ buf (fireChannel (hook (machine s')))
       ∧ successfulWrites (trace (machine s')) = wireImage F h σ sent
       ∧ (NoDup sent → sender s' ≠ Exited →
            successfulWrites (trace (machine s')) = omap (payloadOf F h σ) sent))
  ∧ (∀ B, recovers n B → B + B * B < fuel →
       ∃ s', run F fuel schedule (boot h σ n) = Some s')
  ∧ (∀ a s s',
       step F fuel a s = Some s' →
       let room := bool_decide (length (buf (fireChannel (hook (machine s))))
                                < cap (fireChannel (hook (machine s)))) in
       enqueued s' = enqueued s ++
         match a with
         | ActFire entry => if room then [entry] else []
         | ActWake i =>
             match parked s !! i with
             | Some entry => if room then [entry] else []
             | None => []
             end
         | ActSender => []
         end)
  ∧ (∀ s s',
       step F fuel ActSender s = Some s' →
       match sender s with
       | Spawned =>
           sender s' = Receiving
           ∧ buf (fireChannel (hook (machine s')))
             = buf (fireChannel (hook (machine s)))
       | Receiving =>
           buf (fireChannel (hook (machine s')))
           = tail (buf (fireChannel (hook (machine s))))
       | Exited =>
           sender s' = Exited
           ∧ buf (fireChannel (hook (machine s')))
             = buf (fireChannel (hook (machine s)))
       end)
  ∧ (∀ B s,
       recovers n B → B + B * B < fuel →
       run F fuel schedule (boot h σ n) = Some s →
       sender s ≠ Exited →
       Forall (sendable h (heap (machine s)))
              (buf (fireChannel (hook (machine s)))) →
       ∃ s',
         run F fuel
           (replicate (S (length (buf (fireChannel (hook (machine s))))))
              ActSender) s
         = Some s'
         ∧ buf (fireChannel (hook (machine s'))) = []
         ∧ enqueued s' = enqueued s
         ∧ successfulWrites (trace (machine s'))
           = wireImage F h σ (enqueued s)).
Proof.
  split_and!.
  - intros s' Hrun.
    destruct (pipelineInv_run F fuel h σ n schedule _ _
                (pipelineInv_boot F h σ n) Hrun)
      as (sent & Henq & Hw & _ & _ & _ & _ & Hall).
    exists sent. split_and!; [done..|].
    intros Hnd Hphase. rewrite Hw. apply wireImage_distinct; [done|].
    by apply Hall.
  - intros B Hrec Hfuel.
    apply (recovering_run F B fuel h σ n); [done..|].
    apply pipelineInv_boot.
  - apply step_history.
  - apply sender_takes_head.
  - intros B s Hrec Hfuel Hrun Hs Hall.
    pose proof (pipelineInv_run F fuel h σ n schedule _ _
                  (pipelineInv_boot F h σ n) Hrun) as Hinv.
    destruct (drain_reached F B fuel h σ n s Hinv Hrec Hfuel Hs Hall)
      as (s' & Hrun' & _ & Hb' & He' & Hw').
    by exists s'.
Qed.

Lemma sender_keeps_order_witness :
  let σ := heap (sampleMachine fireTestHook steadyNet) in
  ∃ s' sent,
    run messageFormatter 1 sampleSchedule (boot fireTestHook σ steadyNet) = Some s'
    ∧ enqueued s' = sent ++ buf (fireChannel (hook (machine s')))
    ∧ successfulWrites (trace (machine s'))
      = wireImage messageFormatter fireTestHook σ sent.
Proof.
  intros σ.
  destruct (sender_keeps_order messageFormatter 1 sampleSchedule
              fireTestHook σ steadyNet) as (Hsafe & Hlive & _).
  destruct (Hlive 0) as [s' Hrun].
  { split; intros k; exists 0; split; (lia || reflexivity). }
  { simpl. lia. }
  destruct (Hsafe s' Hrun) as (sent & Henq & Hw & _).
  exists s', sent. split_and!; assumption.
Defined.

(** The sample schedule: the first record is written twice, because it
    was fired twice; the second time it is serialized as the first send
    left it.  The record that does not serialize is skipped. *)
Example sample_run :
  ∃ s', run messageFormatter 1 sampleSchedule
          (boot fireTestHook (heap (sampleMachine fireTestHook steadyNet)) steadyNet)
        = Some s'
    ∧ enqueued s' = [1%positive; 2%positive; 1%positive]
    ∧ buf (fireChannel (hook (machine s'))) = []
    ∧ successfulWrites (trace (machine s'))
      = [ String.list_byte_of_string "hello world!";
          String.list_byte_of_string "hello world!" ].
Proof. eexists. split_and!; vm_compute; reflexivity. Qed.


(** * Further properties of the code *)

(** ** The setters *)

Lemma SetFields_made (fields : logrus.Fields) m static :
  alwaysSentFields (hook m) = Some static →
  SetFields fields m
  = Done tt (with_hook
               (set_alwaysSentFields
                  (Some (logrus.contents fields ∪ static))) m).
Proof.
  intros Hs. unfold SetFields.
  rewrite (SetFields_range_made _ m static Hs).
  rewrite foldl_insert_union by apply NoDup_fst_map_to_list.
  by rewrite list_to_map_to_list.
Qed.

Lemma SetFields_nil (fields : logrus.Fields) m :
  alwaysSentFields (hook m) = None →
  SetFields fields m
  = if decide (logrus.contents fields = ∅) then Done tt m
    else Panicked "assignment to entry in nil map" m.
Proof.
  intros Hs. unfold SetFields. rewrite (SetFields_range_nil _ m Hs).
  destruct (map_to_list (logrus.contents fields)) as [|kv kvs] eqn:E.
  - apply map_to_list_empty_iff in E. by rewrite decide_True.
  - rewrite decide_False; [done|]. intros H.
    by rewrite H, map_to_list_empty in E.
Qed.

(** X1. On a hook whose static fields are a map that was made,
    [SetFields] adds every given field, overwriting a static field of
    the same name and keeping every other one, and [SetField] sets the
    one field; nothing else of the hook changes and neither call panics.
    On a hook whose static fields are the nil map, [SetField] panics, and
    so does [SetFields] as soon as it is given a field; the hook is left
    as it was.  [NewHook] makes the map, so that [SetField] is safe on
    the hook it returns; on the hook that [NewHookWithFields] returns
    when it is given the nil map, [SetField] panics. *)
Theorem SetFields_overwrites (fields : logrus.Fields) (key : string)
    (value : logrus.Value) (m : Machine)
    (protocol address appName : string) :
  match alwaysSentFields (hook m) with
  | Some static =>
      SetFields fields m
      = Done tt (with_hook
                   (set_alwaysSentFields
                      (Some (logrus.contents fields ∪ static))) m)
      ∧ SetField key value m
        = Done tt (with_hook
                     (set_alwaysSentFields (Some (<[key := value]> static))) m)
  | None =>
      SetFields fields m
      = (if decide (logrus.contents fields = ∅) then Done tt m
         else Panicked "assignment to entry in nil map" m)
      ∧ SetField key value m = Panicked "assignment to entry in nil map" m
  end
  ∧ (hook m = (NewHook protocol address appName).1 →
       SetField key value m
       = Done tt (with_hook
                    (set_alwaysSentFields (Some {[ key := value ]})) m))
  ∧ (hook m = (NewHookWithFields protocol address appName None).1 →
       SetField key value m = Panicked "assignment to entry in nil map" m).
Proof.
  split_and!.
  - destruct (alwaysSentFields (hook m)) as [static|] eqn:Hs.
    + split; [by apply SetFields_made|]. by rewrite SetField_eq, Hs.
    + split; [by apply SetFields_nil|]. by rewrite SetField_eq, Hs.
  - intros Hh. rewrite SetField_eq, Hh.
    cbv beta iota delta
      [NewHook NewHookWithFields NewHookWithFieldsAndPrefix
       NewHookWithFieldsAndConnAndPrefix fst alwaysSentFields].
    by rewrite insert_empty.
  - intros Hh. rewrite SetField_eq, Hh. reflexivity.
Qed.

(** The hook of the package's test of the timestamp format has no static
    fields at all: setting one panics. *)
Example SetField_on_nil_fields :
  SetField "host" (logrus.VString "a1") (sampleMachine timeTestHook steadyNet)
  = Panicked "assignment to entry in nil map"
      (sampleMachine timeTestHook steadyNet).
Proof. reflexivity. Qed.

(** X2. A field set with [SetField] (on a hook whose static fields were
    made, so that the call returns) reaches the formatter with the next
    record sent, unless the record has a field of that name, which then
    keeps the record's value; the formatter is otherwise called as before
    the call (same type, same timestamp format, same prefix).  A record
    whose map is nil is not sent any more: with a static field to add,
    the merge panics. *)
Theorem SetField_reaches_formatter F fuel entry m m0 e key value :
  heap m !! entry = Some e →
  SetField key value m = Done tt m0 →
  (∀ r m',
     sendMessage F fuel entry m0 = Done r m' →
     ∃ formatted : logrus.Entry,
       logrus.Data formatted !! key =
         match logrus.Data e !! key with
         | Some own => Some own
         | None => Some value
         end
       ∧ (∀ k, k ≠ key →
            logrus.Data formatted !! k =
              match logrus.Data e !! k with
              | Some own => Some own
              | None => alwaysSentFields (hook m) !! k
              end)
       ∧ match r with
         | Some err =>
             F (formatterOf (hook m)) formatted (hookOnlyPrefix (hook m))
             = inr err
         | None =>
             ∃ data,
               F (formatterOf (hook m)) formatted (hookOnlyPrefix (hook m))
               = inl data
               ∧ successfulWrites (added m0 m') = [data]
         end)
  ∧ (logrus.Data e = None →
       sendMessage F fuel entry m0
       = Panicked "assignment to entry in nil map" m0).
Proof.
  intros He Hset. rewrite SetField_eq in Hset.
  destruct (alwaysSentFields (hook m)) as [static|] eqn:Hs; [|done].
  injection Hset as <-.
  set (m0 := with_hook
               (set_alwaysSentFields (Some (<[key := value]> static))) m).
  assert (He0 : heap m0 !! entry = Some e) by done.
  split.
  - intros r m' Hrun.
    pose proof (sendMessage_returns_mergeable F fuel entry m0 e r m' He0 Hrun)
      as Hm.
    destruct (sendMessage_done F fuel entry m0 e r m' He0 Hrun)
      as (_ & _ & _ & es & Ht & Hr).
    exists (merged (hook m0) e). split_and!.
    + rewrite merged_lookup by done. simpl.
      rewrite Fields_lookup_made, lookup_insert_eq. done.
    + intros k Hk. rewrite merged_lookup by done. simpl.
      rewrite !Fields_lookup_made. by rewrite lookup_insert_ne.
    + rewrite (added_app m0 m' es Ht). unfold serialized in Hr.
      change (formatterOf (hook m0)) with (formatterOf (hook m)) in Hr.
      change (hookOnlyPrefix (hook m0)) with (hookOnlyPrefix (hook m)) in Hr.
      destruct r as [err|].
      * by destruct Hr as (-> & _).
      * destruct Hr as (data & -> & -> & _). eauto.
  - intros Hd. apply (sendMessage_unmergeable F fuel entry m0 e He0).
    unfold mergeable. intros H. specialize (H Hd). simpl in H.
    by apply insert_non_empty in H.
Qed.

Lemma SetField_reaches_formatter_witness :
  let m := sampleMachine fireTestHook steadyNet in
  ∃ m0 m',
    SetField "host" (logrus.VString "a1") m = Done tt m0
    ∧ sendMessage messageFormatter 1 1%positive m0 = Done None m'
    ∧ ∃ formatted : logrus.Entry,
        logrus.Data formatted !! "host" =
          match logrus.Data fireTestEntry !! "host" with
          | Some own => Some own
          | None => Some (logrus.VString "a1")
          end
        ∧ (∀ k, k ≠ "host" →
             logrus.Data formatted !! k =
               match logrus.Data fireTestEntry !! k with
               | Some own => Some own
               | None => alwaysSentFields (hook m) !! k
               end)
        ∧ ∃ data,
            messageFormatter (formatterOf (hook m)) formatted
              (hookOnlyPrefix (hook m)) = inl data
            ∧ successfulWrites (added m0 m') = [data].
Proof.
  intros m. eexists _, _.
  split; [vm_compute; reflexivity|]. split; [vm_compute; reflexivity|].
  assert (He : heap m !! 1%positive = Some fireTestEntry)
    by (vm_compute; reflexivity).
  apply (proj1 (SetField_reaches_formatter messageFormatter 1 1%positive m _
                  fireTestEntry "host" (logrus.VString "a1") He
                  ltac:(vm_compute; reflexivity)) None).
  vm_compute. reflexivity.
Defined.




(** ** The two range loops *)

(** X4. Go yields the keys of a map in an order of its choosing.  The
    result of neither loop depends on it: in whatever order the static
    fields are ranged over, the merge gives the record's fields with the
    missing static fields added when the map of the record was made, and
    on a nil map it panics exactly when there is a static field; and in
    whatever order the keys of the record are ranged over, deleting as it
    goes, the filter leaves exactly the fields whose key does not start
    with the prefix (a nil map stays nil). *)
Theorem range_order_is_irrelevant (static : gmap string logrus.Value)
    (data : logrus.Fields)
    (order : list (string * logrus.Value)) (prefix : string)
    (keys : list string) :
  (order ≡ₚ map_to_list static →
     mergeFields_range order data
     = match data with
       | Some d => inl (Some (d ∪ static))
       | None => if decide (static = ∅) then inl None
                 else inr "assignment to entry in nil map"
       end)
  ∧ (keys ≡ₚ (map_to_list (logrus.contents data)).*1 →
       filterHookOnly_range prefix keys data
       = filter (λ kv, HasPrefix kv.1 prefix = false) <$> data).
Proof.
  split.
  - apply mergeFields_range_any_order.
  - intros Hp. apply filterHookOnly_range_filter. intros k [v Hv].
    rewrite Hp. apply list_elem_of_fmap. exists (k, v). split; [done|].
    by apply elem_of_map_to_list.
Qed.

Lemma range_order_is_irrelevant_witness :
  let static := logrus.contents (alwaysSentFields fireTestHook) in
  let data : logrus.Fields := logrus.Data badEntry in
  mergeFields_range (reverse (map_to_list static)) data
  = match data with
    | Some d => inl (Some (d ∪ static))
    | None => if decide (static = ∅) then inl None
              else inr "assignment to entry in nil map"
    end
  ∧ filterHookOnly_range "->"
      (reverse (map_to_list (logrus.contents data)).*1) data
    = filter (λ kv, HasPrefix kv.1 "->" = false) <$> data.
Proof.
  intros static data.
  destruct (range_order_is_irrelevant static data
              (reverse (map_to_list static)) "->"
              (reverse (map_to_list (logrus.contents data)).*1)) as [H1 H2].
  split; [apply H1|apply H2]; apply reverse_Permutation.
Defined.

(** ** The hook-only filter on its own *)

Lemma stripped_twice h e : stripped h (stripped h e) = stripped h e.
Proof.
  unfold stripped. destruct (decide (hookOnlyPrefix h = "")); [done|].
  unfold logrus.with_Data. simpl. f_equal.
  destruct (logrus.Data e) as [d|]; [|done]. simpl. f_equal.
  apply map_eq. intros k.
  destruct (filter (λ kv : string * logrus.Value,
                      HasPrefix kv.1 (hookOnlyPrefix h) = false) d !! k)
    as [v|] eqn:E.
  - apply map_lookup_filter_Some. split; [done|].
    by apply map_lookup_filter_Some in E as [_ ?].
  - apply map_lookup_filter_None. by left.
Qed.

(** X5. [filterHookOnly] only ever takes fields away from the record it
    is given: what is left is a part of what was there, with the same
    values (a nil map stays nil, a map that was made stays made), and the
    time, the level and the message are as before; the hook, the other
    records and the world are not touched.  Running it again changes
    nothing. *)
Theorem filterHookOnly_only_removes (entry : loc) (m : Machine) (e : logrus.Entry) :
  heap m !! entry = Some e →
  ∃ left : logrus.Entry,
    filterHookOnly entry m = Done tt (stored entry left m)
    ∧ logrus.contents (logrus.Data left) ⊆ logrus.contents (logrus.Data e)
    ∧ (logrus.Data left = None ↔ logrus.Data e = None)
    ∧ logrus.Time left = logrus.Time e
    ∧ logrus.Level_ left = logrus.Level_ e
    ∧ logrus.Message left = logrus.Message e
    ∧ filterHookOnly entry (stored entry left m)
      = Done tt (stored entry left m).
Proof.
  intros He. exists (stripped (hook m) e).
  rewrite (filterHookOnly_settles entry e m He).
  split_and!; try done.
  - unfold stripped. case_decide; [done|]. simpl.
    destruct (logrus.Data e) as [d|]; [|done]. simpl.
    apply map_filter_subseteq.
  - unfold stripped. case_decide; [done|]. simpl.
    by destruct (logrus.Data e).
  - unfold stripped. by case_decide.
  - unfold stripped. by case_decide.
  - unfold stripped. by case_decide.
  - rewrite (filterHookOnly_settles entry (stripped (hook m) e)).
    + simpl. rewrite stripped_twice. unfold stored, with_heap. simpl.
      by rewrite insert_insert_eq.
    + simpl. apply lookup_insert_eq.
Qed.

Lemma filterHookOnly_only_removes_witness :
  ∃ left : logrus.Entry,
    filterHookOnly 2%positive (sampleMachine fireTestHook steadyNet)
      = Done tt (stored 2%positive left (sampleMachine fireTestHook steadyNet))
    ∧ logrus.contents (logrus.Data left) ⊆ logrus.contents (logrus.Data badEntry)
    ∧ (logrus.Data left = None ↔ logrus.Data badEntry = None)
    ∧ logrus.Time left = logrus.Time badEntry
    ∧ logrus.Level_ left = logrus.Level_ badEntry
    ∧ logrus.Message left = logrus.Message badEntry
    ∧ filterHookOnly 2%positive
        (stored 2%positive left (sampleMachine fireTestHook steadyNet))
      = Done tt (stored 2%positive left (sampleMachine fireTestHook steadyNet)).
Proof.
  apply (filterHookOnly_only_removes 2%positive
           (sampleMachine fireTestHook steadyNet) badEntry).
  reflexivity.
Defined.

(** ** What the retry loops add to the trace *)

Lemma reconnectTrace_loop h n k : ∀ d i,
  Forall (λ e, isLoopEvent e = true) (reconnectTrace h n d i k).
Proof.
  induction k as [|k IH]; intros d i; simpl.
  - by apply Forall_singleton.
  - destruct (dialResult n d); [|apply Forall_nil_2].
    repeat (apply Forall_cons; split; [done|]). apply IH.
Qed.

Lemma afterSend_loop data ks : ∀ i m,
  ∃ es, trace (afterSend m data i ks) = trace m ++ es
        ∧ Forall (λ e, isLoopEvent e = true) es.
Proof.
  induction ks as [|k ks IH]; intros i m; simpl.
  - destruct (conn (hook m)).
    + eexists [_]. split; [done|]. by apply Forall_singleton.
    + exists []. split; [by rewrite app_nil_r|apply Forall_nil_2].
  - destruct (IH (S i) (reconnected (failedWrite m data i) 0 k))
      as (es & -> & Hes).
    assert (∃ es0, trace (failedWrite m data i) = trace m ++ es0
                   ∧ Forall (λ e, isLoopEvent e = true) es0)
      as (es0 & Ht0 & Hes0).
    { unfold failedWrite.
      destruct (conn (hook m));
        [destruct (writeResult (network (world m)) (writes (world m)))|].
      - eexists [_; _; _]. split; [done|].
        by repeat (apply Forall_cons; split; [done|]).
      - exists []. split; [by rewrite app_nil_r|apply Forall_nil_2].
      - exists []. split; [by rewrite app_nil_r|apply Forall_nil_2]. }
    destruct (reconnected_frame (failedWrite m data i) 0 k)
      as (_ & _ & _ & _ & ->).
    rewrite Ht0.
    exists (es0 ++ reconnectTrace (hook (failedWrite m data i))
                     (network (world (failedWrite m data i)))
                     (dials (world (failedWrite m data i))) 0 k ++ es).
    split; [by rewrite <- !app_assoc|].
    apply Forall_app. split; [done|]. apply Forall_app. split; [|done].
    apply reconnectTrace_loop.
Qed.

Lemma afterSend_redialled data ks : ∀ i m,
  ks ≠ [] → sendScript m data i ks →
  ∃ a, conn (hook (afterSend m data i ks)) = Some (Dialled a)
       ∧ dials (world m) ≤ a.
Proof.
  induction ks as [|k ks IH]; intros i m Hne Hs; [done|].
  destruct Hs as ([c Hc] & Hw & _ & _ & Hs).
  destruct (writeResult (network (world m)) (writes (world m))) as [err|] eqn:E;
    [|done].
  cbn [afterSend]. set (m1 := reconnected (failedWrite m data i) 0 k) in *.
  assert (Hm1 : conn (hook m1) = Some (Dialled (dials (world m) + k))
                ∧ dials (world m1) = dials (world m) + S k).
  { unfold m1, failedWrite. rewrite Hc, E. done. }
  destruct Hm1 as [Hc1 Hd1].
  destruct ks as [|k' ks].
  - cbn [afterSend]. rewrite Hc1. exists (dials (world m) + k).
    split; [done|lia].
  - destruct (IH (S i) m1) as (a & Ha & Hle); [done|done|].
    exists a. split; [done|lia].
Qed.

Lemma performSend_shape fuel data m u m' :
  performSend fuel data m = Done u m' →
  ∃ c es,
    conn (hook m) = Some c
    ∧ trace m' = trace m ++
        (if (0 <? Timeout (hook m))%Z
         then [EvSetWriteDeadline c (Timeout (hook m))] else []) ++ es
    ∧ Forall (λ e, isLoopEvent e = true) es
    ∧ successfulWrites es = [data]
    ∧ hook m' = set_conn (conn (hook m')) (hook m)
    ∧ heap m' = heap m
    ∧ (failedWrites es ≠ [] →
         ∃ a, conn (hook m') = Some (Dialled a) ∧ dials (world m) ≤ a)
    ∧ (failedWrites es = [] → conn (hook m') = Some c).
Proof.
  intros H. apply performSend_done in H as (ks & _ & Hs & ->).
  destruct (afterSend_frame data ks 0 (withDeadline m)) as (Hp & _ & Hh).
  destruct (afterSend_loop data ks 0 (withDeadline m)) as (es & Ht & Hes).
  destruct (afterSend_events data ks 0 _ Hs)
    as (es' & c' & Ht' & Hc' & E1 & E2 & _).
  assert (es = es' ++ [EvWrite c' data None]) as Hsame.
  { rewrite Ht in Ht'. by apply app_inv_head in Ht'. }
  assert (Hc : is_Some (conn (hook m))).
  { destruct (withDeadline_frame m) as (Wh0 & _). rewrite <- Wh0.
    destruct ks; simpl in Hs; apply Hs. }
  destruct Hc as [c Hc]. exists c, es.
  assert (Hwd : hook (withDeadline m) = hook m
                ∧ heap (withDeadline m) = heap m
                ∧ dials (world (withDeadline m)) = dials (world m)
                ∧ trace (withDeadline m) = trace m ++
                    (if (0 <? Timeout (hook m))%Z
                     then [EvSetWriteDeadline c (Timeout (hook m))] else [])).
  { unfold withDeadline. rewrite Hc.
    destruct (0 <? Timeout (hook m))%Z; split_and!; try done.
    by rewrite app_nil_r. }
  destruct Hwd as (Wh & Wp & Wd & Wt).
  rewrite Wh in Hh. rewrite Wp in Hp.
  split_and!; try done.
  - by rewrite Ht, Wt, <- app_assoc.
  - subst es. unfold successfulWrites in *. by rewrite omap_app, E1.
  - intros Hfail. subst es.
    assert (ks ≠ []) as Hne.
    { intros ->. apply Hfail. unfold failedWrites in *.
      rewrite omap_app, E2. done. }
    destruct (afterSend_redialled data ks 0 (withDeadline m) Hne Hs)
      as (a & Ha & Hle).
    exists a. split; [done|lia].
  - intros Hnofail. subst es.
    assert (ks = []) as ->.
    { unfold failedWrites in *. rewrite omap_app, E2 in Hnofail.
      simpl in Hnofail. rewrite app_nil_r in Hnofail.
      by destruct ks. }
    simpl. rewrite Wh, Hc. simpl. by rewrite Wh.
Qed.

(** ** Deadlines *)

(** X6. [performSend] sets the write deadline at most once, before the
    first write, on the connection the hook holds on entry, and only
    when [Timeout] is positive.  When a write has failed, the write that
    ends the call is made on a connection dialled during the call, for
    which the call sets no deadline. *)
Theorem deadline_set_once fuel data m u m' :
  performSend fuel data m = Done u m' →
  ∃ c es,
    conn (hook m) = Some c
    ∧ added m m' =
        (if (0 <? Timeout (hook m))%Z
         then [EvSetWriteDeadline c (Timeout (hook m))] else []) ++ es
    ∧ deadlines es = []
    ∧ deadlines (added m m') =
        (if (0 <? Timeout (hook m))%Z then [(c, Timeout (hook m))] else [])
    ∧ (failedWrites es ≠ [] →
         ∃ a, conn (hook m') = Some (Dialled a) ∧ dials (world m) ≤ a).
Proof.
  intros H.
  destruct (performSend_shape fuel data m u m' H)
    as (c & es & Hc & Ha & Hes & _ & _ & _ & Hre & _).
  exists c, es.
  assert (Hd : deadlines es = []).
  { clear -Hes. induction Hes as [|e es He _ IH]; [done|].
    unfold deadlines in *. cbn. destruct e; try done; by rewrite IH. }
  split_and!; try done.
  - by apply added_app.
  - rewrite (added_app _ _ _ Ha). unfold deadlines in *.
    rewrite omap_app, Hd. by destruct (0 <? Timeout (hook m))%Z.
Qed.

Lemma deadline_set_once_witness :
  let m := sampleMachine timeoutHook lossyNet in
  ∃ m', performSend 3 [] m = Done tt m'
    ∧ ∃ c es,
        conn (hook m) = Some c
        ∧ added m m' =
            (if (0 <? Timeout (hook m))%Z
             then [EvSetWriteDeadline c (Timeout (hook m))] else []) ++ es
        ∧ deadlines es = []
        ∧ deadlines (added m m') =
            (if (0 <? Timeout (hook m))%Z then [(c, Timeout (hook m))] else [])
        ∧ (failedWrites es ≠ [] →
             ∃ a, conn (hook m') = Some (Dialled a) ∧ dials (world m) ≤ a).
Proof.
  intros m. eexists. split; [vm_compute; reflexivity|].
  apply (deadline_set_once 3 [] m tt). vm_compute. reflexivity.
Defined.

(** The same run, spelled out: one deadline on the connection supplied,
    two failed writes, and the third write on a fresh connection. *)
Example deadline_not_renewed :
  ∃ m', performSend 3 [] (sampleMachine timeoutHook lossyNet) = Done tt m'
    ∧ deadlines (trace m') = [(Supplied 0, (5 * time.Second)%Z)]
    ∧ writeTargets (trace m')
      = [ (Supplied 0, Some "broken pipe"); (Dialled 0, Some "broken pipe");
          (Dialled 1, None) ].
Proof. eexists. split_and!; vm_compute; reflexivity. Qed.

(** ** The send lock *)

Lemma loop_event_not_lock es :
  Forall (λ e, isLoopEvent e = true) es →
  Forall (λ e, e ≠ EvLock ∧ e ≠ EvUnlock) es.
Proof.
  intros H. eapply Forall_impl; [exact H|]. simpl.
  intros e He. split; intros ->; done.
Qed.

(** X7. [sendMessage] takes the send lock only once the record has been
    formatted, and writes only while it holds it: when formatting fails
    nothing is added to the trace and the lock is not touched; otherwise
    the trace gains a lock, then the events of [performSend] (among them
    the one successful write), then an unlock, and the lock is free when
    the call returns. *)
Theorem writes_only_under_lock F fuel entry m e r m' :
  heap m !! entry = Some e →
  sendMessage F fuel entry m = Done r m' →
  match r with
  | Some _ => added m m' = [] ∧ sendingLocker (hook m') = sendingLocker (hook m)
  | None =>
      ∃ es, added m m' = [EvLock] ++ es ++ [EvUnlock]
            ∧ Forall (λ e, e ≠ EvLock ∧ e ≠ EvUnlock) es
            ∧ length (successfulWrites es) = 1
            ∧ sendingLocker (hook m') = false
  end.
Proof.
  intros He Hrun.
  pose proof (sendMessage_returns_mergeable F fuel entry m e r m' He Hrun) as Hm.
  revert Hrun. rewrite (sendMessage_eq F fuel entry m e He Hm).
  destruct (serialized F (hook m) e) as [data|err].
  - destruct (performSend fuel data (locked (stored entry (merged (hook m) e) m)))
      as [[] m1|msg m1|] eqn:Hs; [|done..].
    intros [= <- <-].
    destruct (performSend_shape _ _ _ _ _ Hs)
      as (c & es & _ & Ha & Hes & Hw & Hh & _).
    set (pre := if (0 <? Timeout
                      (hook (locked (stored entry (merged (hook m) e) m))))%Z
                then [EvSetWriteDeadline c
                        (Timeout (hook (locked (stored entry (merged (hook m) e) m))))]
                else []) in *.
    exists (pre ++ es). split_and!.
    + apply added_app. unfold trace in *. simpl in *. rewrite Ha.
      by rewrite <- !app_assoc.
    + apply Forall_app. split; [|by apply loop_event_not_lock].
      unfold pre. destruct (0 <? _)%Z; [|apply Forall_nil_2].
      apply Forall_singleton. done.
    + unfold successfulWrites in *. rewrite omap_app, Hw.
      unfold pre. by destruct (0 <? _)%Z.
    + simpl. done.
  - intros [= <- <-]. split; [|done]. apply added_app. simpl.
    by rewrite app_nil_r.
Qed.

Lemma writes_only_under_lock_witness :
  let m := sampleMachine fireTestHook flakyNet in
  ∃ m', sendMessage messageFormatter 3 1%positive m = Done None m'
    ∧ ∃ es, added m m' = [EvLock] ++ es ++ [EvUnlock]
            ∧ Forall (λ e, e ≠ EvLock ∧ e ≠ EvUnlock) es
            ∧ length (successfulWrites es) = 1
            ∧ sendingLocker (hook m') = false.
Proof.
  intros m. eexists. split; [vm_compute; reflexivity|].
  apply (writes_only_under_lock messageFormatter 3 1%positive m
           fireTestEntry None);
    vm_compute; reflexivity.
Defined.

(** X8. The deferred calls of [sendMessage] run when [performSend]
    panics: on a hook without a connection (and with fuel for one turn of
    the write loop), for a record into which the static fields can be
    merged and which the formatter accepts, the call panics with a nil
    pointer dereference, yet the lock it took is released, the hook-only
    fields are stripped from the record, and nothing was written, slept
    or dialled.  For a record with a nil map and a static field to add
    the panic is that of the merge, before the lock is taken: nothing is
    added to the trace and the machine is as it was. *)
Theorem panic_releases_lock F fuel entry m e data :
  heap m !! entry = Some e →
  conn (hook m) = None →
  serialized F (hook m) e = inl data →
  if decide (mergeable (hook m) e) then
    ∃ m', sendMessage F (S fuel) entry m
          = Panicked
              "runtime error: invalid memory address or nil pointer dereference"
              m'
      ∧ added m m' = [EvLock; EvUnlock]
      ∧ sendingLocker (hook m') = false
      ∧ heap m' !! entry = Some (settled (hook m) e)
  else
    sendMessage F (S fuel) entry m
    = Panicked "assignment to entry in nil map" m.
Proof.
  intros He Hc Hser. case_decide as Hm;
    [|by apply (sendMessage_unmergeable F (S fuel) entry m e)].
  rewrite (sendMessage_eq F (S fuel) entry m e He Hm), Hser.
  set (m1 := locked (stored entry (merged (hook m) e) m)).
  assert (Hp : performSend (S fuel) data m1
               = Panicked
                   "runtime error: invalid memory address or nil pointer dereference"
                   m1).
  { unfold m1, performSend, locked, stored. munfold.
    destruct (0 <? Timeout (hook m))%Z; munfold; rewrite Hc; done. }
  rewrite Hp. eexists. split; [done|]. split_and!.
  - apply added_app. unfold trace. simpl. by rewrite <- app_assoc.
  - done.
  - simpl. apply lookup_insert_eq.
Qed.

Lemma panic_releases_lock_witness :
  let m := sampleMachine (set_conn None fireTestHook) steadyNet in
  ∃ m', sendMessage messageFormatter 1 1%positive m
        = Panicked
            "runtime error: invalid memory address or nil pointer dereference"
            m'
    ∧ added m m' = [EvLock; EvUnlock]
    ∧ sendingLocker (hook m') = false
    ∧ heap m' !! 1%positive = Some (settled (hook m) fireTestEntry).
Proof.
  intros m.
  apply (panic_releases_lock messageFormatter 0 1%positive m fireTestEntry
           (String.list_byte_of_string "hello world!"));
    vm_compute; reflexivity.
Defined.

(** ** Reconnecting *)

(** X9. When [reconnect] returns, the hook holds the connection of the
    last dial, which is a new one; whatever connection it held before is
    dropped without a call on it.  Every dial went to the protocol and
    address of the hook, every dial but the last failed, nothing was
    written, and the entries and every other field of the hook are as
    before.  [reconnect] never panics. *)
Theorem reconnect_replaces_connection fuel m :
  (∀ msg m', reconnect fuel m ≠ Panicked msg m')
  ∧ ∀ u m',
      reconnect fuel m = Done u m' →
      ∃ k,
        hook m' = set_conn (Some (Dialled (dials (world m) + k))) (hook m)
        ∧ heap m' = heap m
        ∧ writes (world m') = writes (world m)
        ∧ dials (world m') = dials (world m) + S k
        ∧ writeTargets (added m m') = []
        ∧ (∃ errs, length errs = k
             ∧ dialAttempts (added m m')
               = (inr <$> errs) ++ [inl (Dialled (dials (world m) + k))])
        ∧ Forall (λ e, match e with
                       | EvDial p a _ => p = protocol (hook m) ∧ a = address (hook m)
                       | _ => True
                       end) (added m m').
Proof.
  split; [intros msg m'; apply reconnect_loop_no_panic|].
  intros u m'. unfold reconnect. change initialDelay with (backoff 0).
  intros H. apply reconnect_loop_sound in H as (k & _ & Hfail & _ & ->).
  exists k. rewrite (added_app m (reconnected m 0 k) _ eq_refl).
  split_and!; try done.
  - generalize (hook m) (network (world m)) (dials (world m)) 0.
    clear. induction k as [|k IH]; intros h n d i; simpl; [done|].
    destruct (dialResult n d); [|done]. simpl. apply IH.
  - revert Hfail. generalize (hook m) (network (world m)) (dials (world m)) 0.
    clear. induction k as [|k IH]; intros h n d i Hfail; simpl.
    + exists []. by rewrite Nat.add_0_r.
    + destruct (dialResult n d) as [err|] eqn:E.
      2:{ exfalso. apply (Hfail 0); [lia|]. by rewrite Nat.add_0_r. }
      destruct (IH h n (S d) (S i)) as (errs & Hlen & Hd).
      { intros j Hj. simpl. rewrite <- Nat.add_succ_r. apply Hfail. lia. }
      exists (err :: errs). split; [simpl; lia|].
      cbn. unfold dialAttempts in Hd. rewrite Hd. simpl.
      by rewrite Nat.add_succ_r.
  - generalize (network (world m)) (dials (world m)) 0.
    clear. induction k as [|k IH]; intros n d i; simpl.
    + by apply Forall_singleton.
    + destruct (dialResult n d); [|apply Forall_nil_2].
      repeat (apply Forall_cons; split; [done|]). apply IH.
Qed.

Lemma reconnect_replaces_connection_witness :
  let m := sampleMachine timeoutHook flakyNet in
  ∃ m' k,
    reconnect 2 m = Done tt m'
    ∧ hook m' = set_conn (Some (Dialled (dials (world m) + k))) (hook m)
    ∧ heap m' = heap m
    ∧ writes (world m') = writes (world m)
    ∧ dials (world m') = dials (world m) + S k
    ∧ writeTargets (added m m') = []
    ∧ (∃ errs, length errs = k
         ∧ dialAttempts (added m m')
           = (inr <$> errs) ++ [inl (Dialled (dials (world m) + k))])
    ∧ Forall (λ e, match e with
                   | EvDial p a _ => p = protocol (hook m) ∧ a = address (hook m)
                   | _ => True
                   end) (added m m').
Proof.
  intros m. eexists.
  destruct (reconnect_replaces_connection 2 m) as [_ H].
  destruct (H tt _ ltac:(vm_compute; reflexivity)) as (k & Hk).
  exists k. split; [vm_compute; reflexivity|exact Hk].
Defined.

(** ** The sender goroutine, turn by turn *)

(** X11. The first turn of the sender goroutine receives nothing: the
    channel and the entries are as before and nothing is written.  It
    dials, until a dial succeeds, exactly when the hook has no
    connection; a hook that was given one is left as it is.  Either way
    the hook has a connection when the goroutine starts to receive. *)
Theorem sender_connects_first F fuel m phase' m' :
  senderStep F fuel Spawned m = Done phase' m' →
  phase' = Receiving
  ∧ fireChannel (hook m') = fireChannel (hook m)
  ∧ heap m' = heap m
  ∧ writes (world m') = writes (world m)
  ∧ is_Some (conn (hook m'))
  ∧ (is_Some (conn (hook m)) → m' = m)
  ∧ (conn (hook m) = None →
       ∃ k, m' = reconnected m 0 k
            ∧ length (dialAttempts (added m m')) = S k).
Proof.
  unfold senderStep, init_turn. munfold.
  destruct (conn (hook m)) as [c|] eqn:Hc; munfold.
  - intros [= <- <-]. rewrite Hc. split_and!; eauto. done.
  - unfold reconnect. change initialDelay with (backoff 0).
    destruct (reconnect_loop fuel (backoff 0) m) as [[] m1|msg m1|] eqn:Hr;
      [|by apply reconnect_loop_no_panic in Hr|done].
    apply reconnect_loop_sound in Hr as (k & _ & Hfail & _ & ->).
    intros [= <- <-]. split_and!; try done.
    intros _. exists k. split; [done|].
    rewrite (added_app m (reconnected m 0 k) _ eq_refl).
    by destruct (reconnectTrace_sleeps (hook m) _ _ 0 k Hfail)
      as (_ & _ & _ & _ & _ & ->).
Qed.

Lemma sender_connects_first_witness :
  let m := sampleMachine (set_conn None timeoutHook) flakyNet in
  ∃ m', senderStep messageFormatter 2 Spawned m = Done Receiving m'
    ∧ fireChannel (hook m') = fireChannel (hook m)
    ∧ heap m' = heap m
    ∧ writes (world m') = writes (world m)
    ∧ is_Some (conn (hook m'))
    ∧ (is_Some (conn (hook m)) → m' = m)
    ∧ (conn (hook m) = None →
         ∃ k, m' = reconnected m 0 k
              ∧ length (dialAttempts (added m m')) = S k).
Proof.
  intros m. eexists. split; [vm_compute; reflexivity|].
  apply (sender_connects_first messageFormatter 2 m Receiving).
  vm_compute. reflexivity.
Defined.

(** X12. A record that cannot be formatted does not stop the sender.
    When the static fields can be merged into the record (its map was
    made, or there is no static field), the turn that takes it from the
    channel logs the error, strips the hook-only fields from the record,
    takes no lock, writes nothing and leaves the goroutine receiving,
    with the rest of the channel untouched.  No fuel is needed: nothing
    is retried. *)
Theorem format_error_is_skipped F fuel m entry rest e err :
  buf (fireChannel (hook m)) = entry :: rest →
  heap m !! entry = Some e →
  mergeable (hook m) e →
  serialized F (hook m) e = inr err →
  senderStep F fuel Receiving m
  = Done Receiving
      (with_world (emit (EvLogError ("unable to send the message: " +:+ err)))
         (stored entry (settled (hook m) e)
            (with_hook
               (set_fireChannel
                  {| buf := rest; cap := cap (fireChannel (hook m)) |}) m))).
Proof.
  intros Hbuf He Hm Hser. unfold senderStep, init_turn, chanrecv. munfold.
  rewrite Hbuf. munfold.
  rewrite (sendMessage_eq F fuel entry _ e) by done.
  simpl. change (serialized F _ e) with (serialized F (hook m) e).
  rewrite Hser. munfold. done.
Qed.

Lemma format_error_is_skipped_witness :
  let h := set_fireChannel {| buf := [2%positive; 1%positive]; cap := 10 |}
             fireTestHook in
  let m := sampleMachine h steadyNet in
  senderStep messageFormatter 0 Receiving m
  = Done Receiving
      (with_world
         (emit (EvLogError ("unable to send the message: " +:+
                            "json: unsupported type")))
         (stored 2%positive (settled (hook m) badEntry)
            (with_hook
               (set_fireChannel
                  {| buf := [1%positive]; cap := cap (fireChannel (hook m)) |})
               m))).
Proof.
  intros h m.
  apply (format_error_is_skipped messageFormatter 0 m 2%positive
           [1%positive] badEntry "json: unsupported type");
    (reflexivity || by intros [=]).
Defined.

(** ** When the sender goroutine dies *)

(** Once the goroutine has exited, a step of the system is a producer's
    only: the channel grows or stays, nothing is dialled or written. *)
Lemma step_exited F fuel a s :
  sender s = Exited →
  ∃ s', step F fuel a s = Some s'
    ∧ sender s' = Exited
    ∧ writeTargets (trace (machine s')) = writeTargets (trace (machine s))
    ∧ dialAttempts (trace (machine s')) = dialAttempts (trace (machine s))
    ∧ heap (machine s') = heap (machine s)
    ∧ ∃ more, buf (fireChannel (hook (machine s')))
              = buf (fireChannel (hook (machine s))) ++ more.
Proof.
  intros Hs.
  assert (Hcases : ∀ e m', m' = enqueue e (machine s) ∨ m' = machine s
            ∨ m' = with_world (emit (EvLogError "dropped a message")) (machine s) →
            writeTargets (trace m') = writeTargets (trace (machine s))
            ∧ dialAttempts (trace m') = dialAttempts (trace (machine s))
            ∧ heap m' = heap (machine s)
            ∧ ∃ more, buf (fireChannel (hook m'))
                      = buf (fireChannel (hook (machine s))) ++ more).
  { intros e m' [->|[->| ->]]; simpl; split_and!; try done.
    - by eexists.
    - exists []. by rewrite app_nil_r.
    - unfold trace, writeTargets. simpl. by rewrite omap_app, app_nil_r.
    - unfold trace, dialAttempts. simpl. by rewrite omap_app, app_nil_r.
    - exists []. by rewrite app_nil_r. }
  destruct a as [entry|i|]; simpl.
  - destruct (Fire_step_outcome (FireCalled entry) (machine s) entry)
      as (st & m' & Hf & _ & Hm); [by left|].
    unfold Fire. rewrite Hf. eexists. split; [done|]. simpl.
    split; [done|]. by apply (Hcases entry).
  - destruct (parked s !! i) as [entry|].
    2:{ exists s. split_and!; try done. exists []. by rewrite app_nil_r. }
    destruct (Fire_step_outcome (FireBlocked entry) (machine s) entry)
      as (st & m' & Hf & _ & Hm); [by right|].
    rewrite Hf. eexists. split; [done|]. simpl.
    split; [done|]. by apply (Hcases entry).
  - rewrite Hs. unfold senderStep, init_turn. munfold.
    exists {| machine := machine s; sender := Exited;
              parked := parked s; enqueued := enqueued s |}.
    split_and!; try done. exists []. by rewrite app_nil_r.
Qed.

Lemma run_exited F fuel schedule : ∀ s,
  sender s = Exited →
  ∃ s', run F fuel schedule s = Some s'
    ∧ sender s' = Exited
    ∧ writeTargets (trace (machine s')) = writeTargets (trace (machine s))
    ∧ dialAttempts (trace (machine s')) = dialAttempts (trace (machine s))
    ∧ heap (machine s') = heap (machine s)
    ∧ ∃ more, buf (fireChannel (hook (machine s')))
              = buf (fireChannel (hook (machine s))) ++ more.
Proof.
  induction schedule as [|a rest IH]; intros s Hs; simpl.
  - exists s. split_and!; try done. exists []. by rewrite app_nil_r.
  - destruct (step_exited F fuel a s Hs)
      as (s1 & -> & Hs1 & Hw1 & Hd1 & Hh1 & more1 & Hb1).
    destruct (IH s1 Hs1) as (s' & Hrun & Hs' & Hw & Hd & Hh & more & Hb).
    exists s'. split_and!; try congruence.
    exists (more1 ++ more). by rewrite Hb, Hb1, app_assoc.
Qed.

(** A turn in which [sendMessage] panics is the last one. *)
Lemma panic_ends_sender F fuel s entry rest schedule msg :
  sender s = Receiving →
  buf (fireChannel (hook (machine s))) = entry :: rest →
  (let m0 := with_hook
               (set_fireChannel
                  {| buf := rest; cap := cap (fireChannel (hook (machine s))) |})
               (machine s) in
   sendMessage F fuel entry m0 = Panicked msg m0) →
  ∃ s1 s', step F fuel ActSender s = Some s1
    ∧ sender s1 = Exited
    ∧ trace (machine s1)
      = trace (machine s)
        ++ [EvLogError "the fireChannel handler is closed"; EvRecover msg]
    ∧ run F fuel schedule s1 = Some s'
    ∧ sender s' = Exited
    ∧ writeTargets (trace (machine s')) = writeTargets (trace (machine s))
    ∧ dialAttempts (trace (machine s')) = dialAttempts (trace (machine s))
    ∧ heap (machine s') = heap (machine s)
    ∧ ∃ more, buf (fireChannel (hook (machine s'))) = rest ++ more.
Proof.
  intros Hs Hbuf Hsend.
  set (m0 := with_hook
               (set_fireChannel
                  {| buf := rest; cap := cap (fireChannel (hook (machine s))) |})
               (machine s)) in *.
  cbv zeta in Hsend.
  set (m1 := with_world (emit (EvRecover msg))
               (with_world (emit (EvLogError "the fireChannel handler is closed"))
                  m0)).
  set (s1 := {| machine := m1; sender := Exited;
                parked := parked s; enqueued := enqueued s |}).
  assert (Hstep : step F fuel ActSender s = Some s1).
  { simpl. rewrite Hs. unfold senderStep, init_turn, chanrecv. munfold.
    rewrite Hbuf. munfold. fold m0. rewrite Hsend. munfold. done. }
  destruct (run_exited F fuel schedule s1 eq_refl)
    as (s' & Hrun & Hs' & Hw & Hd & Hh & more & Hb).
  exists s1, s'. split_and!; try done.
  - unfold trace. simpl. by rewrite <- app_assoc.
  - rewrite Hw. unfold trace, writeTargets. simpl.
    by rewrite !omap_app, !app_nil_r.
  - rewrite Hd. unfold trace, dialAttempts. simpl.
    by rewrite !omap_app, !app_nil_r.
  - by exists more.
Qed.

(** X13. A nil entry passed to [Fire] kills the sender goroutine: the
    turn that receives it panics on the nil pointer, the deferred calls
    log the closing message and recover, and the goroutine is gone.
    Whatever happens afterwards, in any order, nothing is dialled or
    written again and no entry is changed; the entries behind the nil one
    stay in the channel, and later calls of [Fire] only add to them. *)
Theorem nil_entry_ends_sender F fuel s entry rest schedule :
  sender s = Receiving →
  buf (fireChannel (hook (machine s))) = entry :: rest →
  heap (machine s) !! entry = None →
  ∃ s1 s', step F fuel ActSender s = Some s1
    ∧ sender s1 = Exited
    ∧ (∃ msg, trace (machine s1)
              = trace (machine s)
                ++ [EvLogError "the fireChannel handler is closed";
                    EvRecover msg])
    ∧ run F fuel schedule s1 = Some s'
    ∧ sender s' = Exited
    ∧ writeTargets (trace (machine s')) = writeTargets (trace (machine s))
    ∧ dialAttempts (trace (machine s')) = dialAttempts (trace (machine s))
    ∧ heap (machine s') = heap (machine s)
    ∧ ∃ more, buf (fireChannel (hook (machine s'))) = rest ++ more.
Proof.
  intros Hs Hbuf He.
  destruct (panic_ends_sender F fuel s entry rest schedule
              "runtime error: invalid memory address or nil pointer dereference"
              Hs Hbuf)
    as (s1 & s' & Hstep & Hs1 & Ht & Hrun & Hs' & Hw & Hd & Hh & Hb).
  { cbv zeta. by apply sendMessage_nil. }
  exists s1, s'. split_and!; try done. by eexists.
Qed.

Lemma nil_entry_ends_sender_witness :
  let h := set_fireChannel {| buf := [7%positive; 1%positive]; cap := 10 |}
             fireTestHook in
  let s := {| machine := sampleMachine h steadyNet; sender := Receiving;
              parked := []; enqueued := [7%positive; 1%positive] |} in
  let schedule := [ActSender; ActFire 2%positive; ActSender] in
  ∃ s1 s', step messageFormatter 3 ActSender s = Some s1
    ∧ sender s1 = Exited
    ∧ (∃ msg, trace (machine s1)
              = trace (machine s)
                ++ [EvLogError "the fireChannel handler is closed";
                    EvRecover msg])
    ∧ run messageFormatter 3 schedule s1 = Some s'
    ∧ sender s' = Exited
    ∧ writeTargets (trace (machine s')) = writeTargets (trace (machine s))
    ∧ dialAttempts (trace (machine s')) = dialAttempts (trace (machine s))
    ∧ heap (machine s') = heap (machine s)
    ∧ ∃ more, buf (fireChannel (hook (machine s'))) = [1%positive] ++ more.
Proof.
  intros h s schedule.
  apply (nil_entry_ends_sender messageFormatter 3 s 7%positive [1%positive]
           schedule);
    vm_compute; reflexivity.
Defined.


(** X23. An entry whose map is nil kills the sender goroutine as soon as
    the hook has a static field to add (an entry made by hand, as the
    package's test of the timestamp format makes one, sent through a hook
    with static fields): the turn that receives it panics in the merge
    with "assignment to entry in nil map", before anything is formatted,
    locked or written; the deferred calls log the closing message and
    recover, and the goroutine is gone.  Whatever happens afterwards, in
    any order, nothing is dialled or written again and no entry is
    changed; the entries behind it stay in the channel. *)
Theorem nil_map_ends_sender F fuel s entry rest schedule e :
  sender s = Receiving →
  buf (fireChannel (hook (machine s))) = entry :: rest →
  heap (machine s) !! entry = Some e →
  logrus.Data e = None →
  logrus.contents (alwaysSentFields (hook (machine s))) ≠ ∅ →
  ∃ s1 s', step F fuel ActSender s = Some s1
    ∧ sender s1 = Exited
    ∧ trace (machine s1)
      = trace (machine s)
        ++ [EvLogError "the fireChannel handler is closed";
            EvRecover "assignment to entry in nil map"]
    ∧ run F fuel schedule s1 = Some s'
    ∧ sender s' = Exited
    ∧ writeTargets (trace (machine s')) = writeTargets (trace (machine s))
    ∧ dialAttempts (trace (machine s')) = dialAttempts (trace (machine s))
    ∧ heap (machine s') = heap (machine s)
    ∧ ∃ more, buf (fireChannel (hook (machine s'))) = rest ++ more.
Proof.
  intros Hs Hbuf He Hd Hstatic.
  apply (panic_ends_sender F fuel s entry rest schedule
           "assignment to entry in nil map" Hs Hbuf).
  cbv zeta. apply (sendMessage_unmergeable F fuel entry _ e); [done|].
  unfold mergeable. simpl. intros H. by apply Hstatic, H.
Qed.

Lemma nil_map_ends_sender_witness :
  let h := set_fireChannel {| buf := [3%positive; 1%positive]; cap := 10 |}
             fireTestHook in
  let s := {| machine := with_heap <[3%positive := timeTestEntry]>
                           (sampleMachine h steadyNet);
              sender := Receiving;
              parked := []; enqueued := [3%positive; 1%positive] |} in
  let schedule := [ActSender; ActFire 2%positive; ActSender] in
  ∃ s1 s', step messageFormatter 3 ActSender s = Some s1
    ∧ sender s1 = Exited
    ∧ trace (machine s1)
      = trace (machine s)
        ++ [EvLogError "the fireChannel handler is closed";
            EvRecover "assignment to entry in nil map"]
    ∧ run messageFormatter 3 schedule s1 = Some s'
    ∧ sender s' = Exited
    ∧ writeTargets (trace (machine s')) = writeTargets (trace (machine s))
    ∧ dialAttempts (trace (machine s')) = dialAttempts (trace (machine s))
    ∧ heap (machine s') = heap (machine s)
    ∧ ∃ more, buf (fireChannel (hook (machine s'))) = [1%positive] ++ more.
Proof.
  intros h s schedule.
  apply (nil_map_ends_sender messageFormatter 3 s 3%positive [1%positive]
           schedule timeTestEntry);
    try (vm_compute; reflexivity).
  vm_compute. discriminate.
Defined.

(** The package's test of the timestamp format: the entry with the nil
    map goes through a hook without static fields, and is written. *)
Example nil_map_without_static_fields :
  let m := with_heap <[3%positive := timeTestEntry]>
             (sampleMachine timeTestHook steadyNet) in
  ∃ m', sendMessage messageFormatter 1 3%positive m = Done None m'
    ∧ heap m' = heap m
    ∧ successfulWrites (trace m') = [String.list_byte_of_string ""].
Proof. eexists. split_and!; vm_compute; reflexivity. Qed.

(** ** The send lock between turns *)

Lemma sendMessage_unlocks F fuel entry m :
  sendingLocker (hook m) = false →
  match sendMessage F fuel entry m with
  | Done _ m' | Panicked _ m' =>
      sendingLocker (hook m') = false
      ∧ fireChannel (hook m') = fireChannel (hook m)
  | Starved => True
  end.
Proof.
  intros Hl.
  destruct (heap m !! entry) as [e|] eqn:He;
    [|by rewrite (sendMessage_nil F fuel entry m He)].
  destruct (decide (mergeable (hook m) e)) as [Hm|Hm];
    [|by rewrite (sendMessage_unmergeable F fuel entry m e He Hm)].
  rewrite (sendMessage_eq F fuel entry m e He Hm).
  destruct (serialized F (hook m) e) as [data|err]; [|done].
  destruct (performSend fuel data (locked (stored entry (merged (hook m) e) m)))
    as [[] m1|msg m1|] eqn:Hs; [| |done].
  - apply performSend_frame in Hs as (_ & _ & Hh & _).
    simpl. split; [done|]. by rewrite Hh.
  - apply performSend_panic in Hs as [_ ->]. done.
Qed.

Lemma senderStep_unlocks F fuel phase m phase' m' :
  sendingLocker (hook m) = false →
  senderStep F fuel phase m = Done phase' m' →
  sendingLocker (hook m') = false.
Proof.
  intros Hl. unfold senderStep, init_turn. destruct phase.
  - munfold. destruct (conn (hook m)); munfold; [by intros [= <- <-]|].
    unfold reconnect. change initialDelay with (backoff 0).
    destruct (reconnect_loop fuel (backoff 0) m) as [[] m1|msg m1|] eqn:Hr;
      [|by apply reconnect_loop_no_panic in Hr|done].
    apply reconnect_loop_sound in Hr as (k & _ & _ & _ & ->).
    by intros [= <- <-].
  - unfold chanrecv. munfold.
    destruct (buf (fireChannel (hook m))) as [|entry rest]; munfold;
      [by intros [= <- <-]|].
    match goal with |- context [sendMessage F fuel entry ?x] =>
      pose proof (sendMessage_unlocks F fuel entry x Hl) as Hu;
      destruct (sendMessage F fuel entry x) as [r m1|msg m1|]
    end; [| |done].
    + destruct Hu as [Hu _]. destruct r; munfold; by intros [= <- <-].
    + destruct Hu as [Hu _]. munfold. by intros [= <- <-].
  - munfold. by intros [= <- <-].
Qed.

Lemma step_unlocks F fuel a s s' :
  sendingLocker (hook (machine s)) = false →
  step F fuel a s = Some s' →
  sendingLocker (hook (machine s')) = false.
Proof.
  intros Hl.
  assert (Hcases : ∀ e m', m' = enqueue e (machine s) ∨ m' = machine s
            ∨ m' = with_world (emit (EvLogError "dropped a message")) (machine s) →
            sendingLocker (hook m') = false).
  { by intros e m' [->|[->| ->]]. }
  destruct a as [entry|i|]; simpl.
  - destruct (Fire_step_outcome (FireCalled entry) (machine s) entry)
      as (st & m' & Hf & _ & Hm); [by left|].
    unfold Fire. rewrite Hf. intros [= <-]. by apply (Hcases entry).
  - destruct (parked s !! i) as [entry|]; [|by intros [= <-]].
    destruct (Fire_step_outcome (FireBlocked entry) (machine s) entry)
      as (st & m' & Hf & _ & Hm); [by right|].
    rewrite Hf. intros [= <-]. by apply (Hcases entry).
  - destruct (senderStep F fuel (sender s) (machine s)) as [ph m'| |] eqn:Hstep;
      [|done..].
    intros [= <-]. by apply (senderStep_unlocks F fuel (sender s) (machine s) ph).
Qed.

Lemma run_unlocks F fuel schedule : ∀ s s',
  sendingLocker (hook (machine s)) = false →
  run F fuel schedule s = Some s' →
  sendingLocker (hook (machine s')) = false.
Proof.
  induction schedule as [|a rest IH]; intros s s' Hl; simpl.
  - by intros [= <-].
  - destruct (step F fuel a s) as [s1|] eqn:Hstep; [|done].
    apply IH. by apply (step_unlocks F fuel a s).
Qed.

(** With the lock free, a poll of [Flush] obtains it. *)
Lemma Flush_loop_frozen m start elapsed overslept expireAt fuel : ∀ i now evs,
  sendingLocker (hook m) = false →
  (Flush_loop fuel (frozenEnv m start elapsed overslept) i now expireAt evs).1
  ≠ FlushWaitingForLock.
Proof.
  induction fuel as [|fuel IH]; intros i now evs Hl; [done|].
  cbn [Flush_loop]. destruct (_ <? _)%Z; [|done].
  simpl. rewrite Hl. case_decide; [done|]. by apply IH.
Qed.

(** X14. The sender holds the send lock only inside a turn: after any
    run of producers and sender, in any interleaving and also when a turn
    ended in a recovered panic, the lock is free, so that a call of
    [Flush] made at that point is not left waiting for it, whatever the
    clock does. *)
Theorem lock_free_between_turns F fuel schedule h σ n s' :
  sendingLocker h = false →
  run F fuel schedule (boot h σ n) = Some s' →
  sendingLocker (hook (machine s')) = false
  ∧ ∀ start elapsed overslept fuel' timeout,
      (Flush fuel' (frozenEnv (machine s') start elapsed overslept) timeout).1
      ≠ FlushWaitingForLock.
Proof.
  intros Hl Hrun.
  assert (Hl' : sendingLocker (hook (machine s')) = false).
  { by apply (run_unlocks F fuel schedule (boot h σ n)). }
  split; [done|].
  intros start elapsed overslept fuel' timeout. by apply Flush_loop_frozen.
Qed.

Lemma lock_free_between_turns_witness :
  let s := boot fireTestHook {[1%positive := fireTestEntry]} flakyNet in
  ∃ s', run messageFormatter 3 sampleSchedule s = Some s'
    ∧ sendingLocker (hook (machine s')) = false
    ∧ ∀ start elapsed overslept fuel' timeout,
        (Flush fuel' (frozenEnv (machine s') start elapsed overslept) timeout).1
        ≠ FlushWaitingForLock.
Proof.
  intros s. eexists. split; [vm_compute; reflexivity|].
  apply (lock_free_between_turns messageFormatter 3 sampleSchedule
           fireTestHook {[1%positive := fireTestEntry]} flakyNet);
    vm_compute; reflexivity.
Defined.

(** ** Draining the channel *)

(** X15. On a network that recovers, a sender goroutine that is alive
    drains the channel when it is given one turn more than there are
    buffered records (the extra turn is for the initial connect), all of
    which can be sent: the channel is then empty, the lock is free, and
    the writes that succeeded are the records of everything that was ever
    enqueued, in order.  A call of [Flush] made at that point, whose
    first test of the loop condition still finds the deadline ahead,
    returns [nil] at its first poll. *)
Theorem sender_drains_channel F B fuel schedule h σ n s timeout fuel'
    (start : Z) (elapsed overslept : nat → N) :
  recovers n B → B + B * B < fuel →
  sendingLocker h = false →
  run F fuel schedule (boot h σ n) = Some s →
  sender s ≠ Exited →
  Forall (sendable h (heap (machine s)))
         (buf (fireChannel (hook (machine s)))) →
  (Z.of_N (elapsed 0%nat) < timeout)%Z →
  ∃ s',
    run F fuel
      (replicate (S (length (buf (fireChannel (hook (machine s)))))) ActSender) s
    = Some s'
    ∧ buf (fireChannel (hook (machine s'))) = []
    ∧ sendingLocker (hook (machine s')) = false
    ∧ successfulWrites (trace (machine s')) = wireImage F h σ (enqueued s)
    ∧ Flush (S fuel') (frozenEnv (machine s') start elapsed overslept) timeout
      = (FlushReturned None, [FlLock; FlUnlock; FlLen 0]).
Proof.
  intros Hrec Hfuel Hl Hrun Hs Hall Ht.
  pose proof (pipelineInv_run F fuel h σ n schedule _ _
                (pipelineInv_boot F h σ n) Hrun) as Hinv.
  pose proof (run_unlocks F fuel schedule (boot h σ n) s Hl Hrun) as Hls.
  destruct (drain_reached F B fuel h σ n s Hinv Hrec Hfuel Hs Hall)
    as (s' & Hrun' & _ & Hb' & He' & Hw').
  pose proof (run_unlocks F fuel _ _ _ Hls Hrun') as Hl'.
  exists s'. split_and!; try done.
  unfold Flush. cbn [Flush_loop]. unfold clockAtTest. simpl.
  rewrite Hl', Hb'. simpl.
  destruct (start + Z.of_N (elapsed 0%nat) <? start + timeout)%Z eqn:E; [done|].
  apply Z.ltb_ge in E. lia.
Qed.

Lemma sender_drains_channel_witness :
  let σ : gmap loc logrus.Entry :=
    {[1%positive := fireTestEntry; 2%positive := badEntry]} in
  let schedule := [ActFire 1%positive; ActFire 2%positive; ActFire 1%positive] in
  let elapsed : nat → N := λ _, 1000%N in
  let overslept : nat → N := λ _, 500000%N in
  ∃ s,
    run messageFormatter 7 schedule (boot fireTestHook σ flakyNet) = Some s
    ∧ ∃ s',
        run messageFormatter 7
          (replicate (S (length (buf (fireChannel (hook (machine s))))))
             ActSender) s
        = Some s'
        ∧ buf (fireChannel (hook (machine s'))) = []
        ∧ sendingLocker (hook (machine s')) = false
        ∧ successfulWrites (trace (machine s'))
          = wireImage messageFormatter fireTestHook σ (enqueued s)
        ∧ Flush 1 (frozenEnv (machine s') 0%Z elapsed overslept) time.Second
          = (FlushReturned None, [FlLock; FlUnlock; FlLen 0]).
Proof.
  intros σ schedule elapsed overslept. eexists.
  split; [vm_compute; reflexivity|].
  apply (sender_drains_channel messageFormatter 1 7 schedule fireTestHook σ
           flakyNet _ time.Second 0 0%Z elapsed overslept).
  - split; intros k; exists 1; (split; [lia|]); simpl;
      destruct (decide (k + 1 = 0)); (lia || reflexivity).
  - simpl. lia.
  - reflexivity.
  - vm_compute. reflexivity.
  - discriminate.
  - repeat constructor; eexists; (split; [vm_compute; reflexivity|]);
      by intros [=].
  - reflexivity.
Defined.

(** ** What [Flush] does *)

Lemma polls_busyPolls lens : polls (busyPolls lens) = lens.
Proof.
  induction lens as [|n lens IH]; [done|].
  change (busyPolls (n :: lens))
    with ([FlLock; FlUnlock; FlLen n; FlSleep time.Millisecond]
          ++ busyPolls lens).
  unfold polls in *. by rewrite omap_app, IH.
Qed.

Lemma Flush_loop_shape env expireAt fuel : ∀ i now evs out evs',
  Flush_loop fuel env i now expireAt evs = (out, evs') →
  ∃ n,
    (∀ j, i ≤ j < i + n → queueLen env j ≠ 0 ∧ is_Some (lockWait env j))
    ∧ evs' = evs ++ busyPolls (queueLen env <$> seq i n)
                 ++ (if out is FlushReturned None
                     then [FlLock; FlUnlock; FlLen 0] else [])
    ∧ (out = FlushReturned None → queueLen env (i + n) = 0)
    ∧ (n + (if out is FlushReturned None then 1 else 0) = 0
       ∨ (now + (Z.of_nat (n + (if out is FlushReturned None then 1 else 0)) - 1)
                * time.Millisecond < expireAt)%Z).
Proof.
  induction fuel as [|fuel IH]; intros i now evs out evs'.
  { intros [= <- <-]. exists 0. rewrite !app_nil_r.
    split_and!; try done. intros; lia. by left. }
  cbn [Flush_loop]. unfold clockAtTest.
  destruct (now + Z.of_N (elapsed env i) <? expireAt)%Z eqn:Hnow.
  2:{ intros [= <- <-]. exists 0. rewrite !app_nil_r.
      split_and!; try done. intros; lia. by left. }
  apply Z.ltb_lt in Hnow.
  destruct (lockWait env i) as [w|] eqn:Hw.
  2:{ intros [= <- <-]. exists 0. rewrite !app_nil_r.
      split_and!; try done. intros; lia. by left. }
  destruct (decide (queueLen env i = 0)) as [Hq|Hq].
  { intros [= <- <-]. exists 0. rewrite Hq, Nat.add_0_r. simpl.
    split_and!; try done. intros; lia. right. lia. }
  intros Hloop. apply IH in Hloop as (n & Hbusy & -> & Hlast & Hclock).
  exists (S n). split_and!.
  - intros j Hj. destruct (decide (j = i)) as [->|Hne].
    + split; [done|by rewrite Hw].
    + apply Hbusy. lia.
  - cbn [seq fmap list_fmap]. unfold busyPolls. simpl.
    by rewrite <- !app_assoc.
  - intros Hout. rewrite Nat.add_succ_r. by apply Hlast.
  - right. change time.Millisecond with 1000000%Z in *.
    destruct Hclock as [Hzero|Hclock]; lia.
Qed.

(** X16. What a call of [Flush] does to the hook, however it ends: in
    every iteration but the last it takes the lock, releases it at once,
    reads a non-zero length and sleeps a millisecond, never holding the
    lock while it sleeps; it returns [nil] only right after reading the
    length zero.  The number of times it reads the length is bounded by
    the timeout: the poll numbered [k] (from zero) happens only when [k]
    milliseconds are less than the timeout. *)
Theorem Flush_polls fuel env timeout out evs :
  Flush fuel env timeout = (out, evs) →
  ∃ n,
    (∀ j, j < n → queueLen env j ≠ 0 ∧ is_Some (lockWait env j))
    ∧ evs = busyPolls (queueLen env <$> seq 0 n)
            ++ (if out is FlushReturned None
                then [FlLock; FlUnlock; FlLen 0] else [])
    ∧ (out = FlushReturned None → queueLen env n = 0)
    ∧ (polls evs = []
       ∨ (Z.of_nat (length (polls evs)) - 1) * time.Millisecond < timeout)%Z.
Proof.
  unfold Flush. intros Hloop.
  apply Flush_loop_shape in Hloop as (n & Hbusy & -> & Hlast & Hclock).
  exists n. split_and!; try done.
  - intros j Hj. apply Hbusy. lia.
  - assert (Hlen : length (polls (busyPolls (queueLen env <$> seq 0 n)
                     ++ (if out is FlushReturned None
                         then [FlLock; FlUnlock; FlLen 0] else [])))
                   = n + (if out is FlushReturned None then 1 else 0)).
    { unfold polls at 1. rewrite omap_app. fold (polls (busyPolls (queueLen env <$> seq 0 n))).
      rewrite polls_busyPolls, length_app, length_fmap, length_seq.
      by destruct out as [[?|]| |]. }
    simpl in *. rewrite Hlen.
    destruct Hclock as [Hzero|Hclock].
    + left. apply length_zero_iff_nil. by rewrite Hlen.
    + right. lia.
Qed.

Lemma Flush_polls_witness :
  ∃ out evs,
    Flush 10 drainingEnv (5 * time.Millisecond)%Z = (out, evs)
    ∧ ∃ n,
        (∀ j, j < n → queueLen drainingEnv j ≠ 0
                      ∧ is_Some (lockWait drainingEnv j))
        ∧ evs = busyPolls (queueLen drainingEnv <$> seq 0 n)
                ++ (if out is FlushReturned None
                    then [FlLock; FlUnlock; FlLen 0] else [])
        ∧ (out = FlushReturned None → queueLen drainingEnv n = 0)
        ∧ (polls evs = []
           ∨ (Z.of_nat (length (polls evs)) - 1) * time.Millisecond
             < 5 * time.Millisecond)%Z.
Proof.
  eexists _, _. split; [vm_compute; reflexivity|].
  apply (Flush_polls 10 drainingEnv (5 * time.Millisecond)%Z).
  vm_compute. reflexivity.
Defined.



(** With a clock that runs, a timeout too short for the first test of
    the loop condition gives the deadline error and no poll at all. *)
Example Flush_tiny_timeout :
  Flush 5 (frozenEnv (sampleMachine fireTestHook steadyNet) 0%Z
             (λ _, 1000%N) (λ _, 0%N)) time.Nanosecond
  = (FlushReturned (Some DeadlineExceeded), []).
Proof. reflexivity. Qed.

(** ** Bursts of [Fire] *)

(** What a burst of calls of [Fire] leaves behind. *)
Lemma burst_run F fuel entries : ∀ s,
  let room := cap (fireChannel (hook (machine s)))
              - length (buf (fireChannel (hook (machine s)))) in
  let wait := WaitUntilBufferFrees (hook (machine s)) in
  ∃ s', run F fuel (ActFire <$> entries) s = Some s'
    ∧ buf (fireChannel (hook (machine s')))
      = buf (fireChannel (hook (machine s))) ++ take room entries
    ∧ enqueued s' = enqueued s ++ take room entries
    ∧ parked s' = parked s ++ (if wait then drop room entries else [])
    ∧ trace (machine s')
      = trace (machine s)
        ++ (if wait then []
            else replicate (length (drop room entries))
                   (EvLogError "dropped a message"))
    ∧ heap (machine s') = heap (machine s)
    ∧ conn (hook (machine s')) = conn (hook (machine s))
    ∧ sender s' = sender s.
Proof.
  induction entries as [|entry rest IH]; intros s; cbv zeta.
  { exists s. simpl. rewrite take_nil, drop_nil, !app_nil_r.
    split_and!; try done;
      destruct (WaitUntilBufferFrees _); simpl; by rewrite app_nil_r. }
  cbn [fmap list_fmap run step]. unfold Fire, Fire_step, chansend. munfold.
  set (room := cap (fireChannel (hook (machine s)))
               - length (buf (fireChannel (hook (machine s))))).
  destruct (decide (length (buf (fireChannel (hook (machine s))))
                    < cap (fireChannel (hook (machine s))))) as [Hroom|Hfull].
  - munfold.
    match goal with |- context [run F fuel _ ?x] => set (s1 := x) end.
    destruct (IH s1) as (s' & Hrun & Hb & He & Hp & Ht & Hh & Hc & Hs).
    exists s'. split; [done|].
    assert (Hroom1 : cap (fireChannel (hook (machine s1)))
                     - length (buf (fireChannel (hook (machine s1))))
                     = room - 1).
    { simpl. rewrite length_app. simpl. unfold room. lia. }
    rewrite Hroom1 in *.
    destruct room as [|room'] eqn:Hr; [unfold room in Hr; lia|].
    simpl in *. rewrite Nat.sub_0_r in *.
    rewrite Hb, He, Hp, Ht, Hh, Hc, Hs.
    unfold appended. simpl. rewrite drop_app_length, <- !app_assoc.
    split_and!; done.
  - assert (Hr : room = 0) by (unfold room; lia).
    rewrite Hr. cbn [take drop].
    destruct (WaitUntilBufferFrees (hook (machine s))) eqn:Hw; munfold.
    + match goal with |- context [run F fuel _ ?x] => set (s1 := x) end.
      destruct (IH s1) as (s' & Hrun & Hb & He & Hp & Ht & Hh & Hc & Hs).
      exists s'. split; [done|]. simpl in *.
      fold room in Hb, He, Hp, Ht. rewrite Hr, Hw in *. cbn [take drop] in *.
      unfold appended in He. rewrite drop_all in He.
      rewrite Hb, He, Hp, Ht, Hh, Hc, Hs, <- !app_assoc.
      split_and!; done.
    + match goal with |- context [run F fuel _ ?x] => set (s1 := x) end.
      destruct (IH s1) as (s' & Hrun & Hb & He & Hp & Ht & Hh & Hc & Hs).
      exists s'. split; [done|]. simpl in *.
      fold room in Hb, He, Hp, Ht. rewrite Hr, Hw in *. cbn [take drop] in *.
      unfold appended in He. simpl in He. rewrite drop_all in He.
      unfold trace in *. simpl in *.
      rewrite Hb, He, Hp, Ht, Hh, Hc, Hs, <- !app_assoc.
      split_and!; done.
Qed.

(** X18. A burst of calls of [Fire] with no turn of the sender in
    between fills the channel up to its capacity, in the order of the
    calls.  What does not fit is, under the default policy, dropped with
    one log line per entry; with [WaitUntilBufferFrees] the callers are
    left waiting, in order, and nothing is logged.  No call panics, and
    neither the entries nor the connection are touched. *)
Theorem Fire_burst F fuel entries : ∀ s,
  let room := cap (fireChannel (hook (machine s)))
              - length (buf (fireChannel (hook (machine s)))) in
  let wait := WaitUntilBufferFrees (hook (machine s)) in
  ∃ s', run F fuel (ActFire <$> entries) s = Some s'
    ∧ buf (fireChannel (hook (machine s')))
      = buf (fireChannel (hook (machine s))) ++ take room entries
    ∧ enqueued s' = enqueued s ++ take room entries
    ∧ parked s' = parked s ++ (if wait then drop room entries else [])
    ∧ trace (machine s')
      = trace (machine s)
        ++ (if wait then []
            else replicate (length (drop room entries))
                   (EvLogError "dropped a message"))
    ∧ heap (machine s') = heap (machine s)
    ∧ conn (hook (machine s')) = conn (hook (machine s))
    ∧ sender s' = sender s.
Proof. apply burst_run. Qed.

(** ** Logging an entry again *)

Lemma union_twice (d static : gmap string logrus.Value) :
  d ∪ static ∪ static = d ∪ static.
Proof. by rewrite <- (assoc_L (∪)), (idemp_L (∪)). Qed.

Lemma merged_twice h e : merged h (merged h e) = merged h e.
Proof.
  unfold merged, logrus.with_Data. simpl. f_equal.
  destruct (logrus.Data e) as [d|]; [|done]. simpl. by rewrite union_twice.
Qed.

Lemma settled_twice h e : settled h (settled h e) = settled h e.
Proof.
  unfold settled, stripped.
  destruct (decide (hookOnlyPrefix h = "")) as [Hp|Hp];
    [apply merged_twice|].
  unfold merged, logrus.with_Data. simpl. f_equal.
  destruct (logrus.Data e) as [d|]; [|done]. simpl. f_equal.
  apply map_eq. intros k. rewrite !map_lookup_filter, lookup_union.
  rewrite map_lookup_filter, lookup_union.
  destruct (d !! k) as [v|] eqn:Ed;
    destruct (logrus.contents (alwaysSentFields h) !! k) as [w|] eqn:Es;
    simpl; repeat case_guard; simpl; try done;
    rewrite ?Es; simpl; repeat case_guard; done.
Qed.

(** X20. Sending an entry a second time leaves the record as the first
    send left it: the static fields are not added twice and what was
    stripped stays stripped.  Without a hook-only prefix the second send
    serializes to the same bytes as the first. *)
Theorem resend_leaves_record F fuel fuel' entry m e r m1 r' m2 :
  heap m !! entry = Some e →
  sendMessage F fuel entry m = Done r m1 →
  sendMessage F fuel' entry m1 = Done r' m2 →
  heap m1 !! entry = Some (settled (hook m) e)
  ∧ heap m2 = heap m1
  ∧ (hookOnlyPrefix (hook m) = "" →
       serialized F (hook m1) (settled (hook m) e) = serialized F (hook m) e).
Proof.
  intros He H1 H2.
  destruct (sendMessage_done F fuel entry m e r m1 He H1)
    as (Hp1 & _ & [c Hh1] & _).
  assert (He1 : heap m1 !! entry = Some (settled (hook m) e)).
  { rewrite Hp1. apply lookup_insert_eq. }
  destruct (sendMessage_done F fuel' entry m1 _ r' m2 He1 H2)
    as (Hp2 & _).
  assert (Hset : ∀ x, settled (hook m1) x = settled (hook m) x).
  { intros x. by rewrite Hh1. }
  split_and!; [done| |].
  - rewrite Hp2, Hset, settled_twice, Hp1. by rewrite insert_insert_eq.
  - intros Hprefix. unfold serialized. rewrite Hh1. simpl.
    change (formatterOf _) with (formatterOf (hook m)).
    f_equal.
    assert (Hm : ∀ x, merged (set_conn c
                   (set_sendingLocker (sendingLocker (hook m1)) (hook m))) x
                 = merged (hook m) x) by done.
    rewrite Hm. unfold settled, stripped. rewrite decide_True by done.
    apply merged_twice.
Qed.

Lemma resend_leaves_record_witness :
  let m := sampleMachine fireTestHook steadyNet in
  ∃ m1,
    sendMessage messageFormatter 1 1%positive m = Done None m1
    ∧ ∃ m2,
        sendMessage messageFormatter 1 1%positive m1 = Done None m2
        ∧ heap m1 !! 1%positive = Some (settled (hook m) fireTestEntry)
        ∧ heap m2 = heap m1
        ∧ (hookOnlyPrefix (hook m) = "" →
             serialized messageFormatter (hook m1)
               (settled (hook m) fireTestEntry)
             = serialized messageFormatter (hook m) fireTestEntry).
Proof.
  intros m. eexists. split; [vm_compute; reflexivity|].
  eexists. split; [vm_compute; reflexivity|].
  apply (resend_leaves_record messageFormatter 1 1 1%positive m fireTestEntry
           None _ None);
    vm_compute; reflexivity.
Defined.

(** ** No entry is lost while producers wait *)

Lemma sendMessage_keeps_policy F fuel entry m :
  match sendMessage F fuel entry m with
  | Done _ m' | Panicked _ m' =>
      WaitUntilBufferFrees (hook m') = WaitUntilBufferFrees (hook m)
  | Starved => True
  end.
Proof.
  pose proof (sendMessage_hook F fuel entry m) as H.
  destruct (sendMessage F fuel entry m) as [r m'|msg m'|]; [| |done];
    destruct H as (c & b & ->); done.
Qed.

Lemma senderStep_keeps_policy F fuel phase m phase' m' :
  senderStep F fuel phase m = Done phase' m' →
  WaitUntilBufferFrees (hook m') = WaitUntilBufferFrees (hook m).
Proof.
  unfold senderStep, init_turn. destruct phase.
  - munfold. destruct (conn (hook m)); munfold; [by intros [= <- <-]|].
    unfold reconnect. change initialDelay with (backoff 0).
    destruct (reconnect_loop fuel (backoff 0) m) as [[] m1|msg m1|] eqn:Hr;
      [|by apply reconnect_loop_no_panic in Hr|done].
    apply reconnect_loop_sound in Hr as (k & _ & _ & _ & ->).
    by intros [= <- <-].
  - unfold chanrecv. munfold.
    destruct (buf (fireChannel (hook m))) as [|entry rest]; munfold;
      [by intros [= <- <-]|].
    match goal with |- context [sendMessage F fuel entry ?x] =>
      pose proof (sendMessage_keeps_policy F fuel entry x) as Hu;
      destruct (sendMessage F fuel entry x) as [r m1|msg m1|]
    end; [| |done].
    + destruct r; munfold; by intros [= <- <-].
    + munfold. by intros [= <- <-].
  - munfold. by intros [= <- <-].
Qed.

Lemma step_conserves F fuel a s s' :
  step F fuel a s = Some s' →
  WaitUntilBufferFrees (hook (machine s'))
  = WaitUntilBufferFrees (hook (machine s))
  ∧ ∃ new, enqueued s' = enqueued s ++ new
      ∧ if WaitUntilBufferFrees (hook (machine s))
        then fired [a] ++ parked s ≡ₚ new ++ parked s'
        else parked s = [] → parked s' = [] ∧ new `sublist_of` fired [a].
Proof.
  destruct a as [entry|i|]; simpl.
  - unfold Fire, Fire_step, chansend. munfold.
    destruct (decide (length (buf (fireChannel (hook (machine s))))
                      < cap (fireChannel (hook (machine s))))).
    + munfold. intros [= <-]. simpl. split; [done|].
      exists [entry]. unfold appended. simpl. rewrite drop_app_length.
      split; [done|]. by destruct (WaitUntilBufferFrees _).
    + destruct (WaitUntilBufferFrees (hook (machine s))) eqn:Hw; munfold;
        intros [= <-]; simpl; (split; [done|]); exists [];
        unfold appended; simpl; rewrite drop_all; (split; [done|]).
      * simpl. apply Permutation_cons_append.
      * intros ->. split; [done|]. apply sublist_nil_l.
  - destruct (parked s !! i) as [entry|] eqn:Hi.
    2:{ intros [= <-]. split; [done|]. exists []. rewrite app_nil_r.
        split; [done|]. destruct (WaitUntilBufferFrees _); [done|].
        intros ->. done. }
    unfold Fire_step, chansend. munfold.
    destruct (decide (length (buf (fireChannel (hook (machine s))))
                      < cap (fireChannel (hook (machine s))))).
    + munfold. intros [= <-]. simpl. split; [done|].
      exists [entry]. unfold appended. simpl. rewrite drop_app_length.
      split; [done|]. destruct (WaitUntilBufferFrees _).
      * simpl. by apply delete_Permutation.
      * intros Hp. by rewrite Hp in Hi.
    + munfold. intros [= <-]. simpl. split; [done|].
      exists []. unfold appended. rewrite drop_all.
      split; [done|]. destruct (WaitUntilBufferFrees _); [done|].
      intros Hp. by rewrite Hp in Hi.
  - destruct (senderStep F fuel (sender s) (machine s)) as [ph m'| |] eqn:Hstep;
      [|done..].
    intros [= <-]. simpl.
    split; [by apply (senderStep_keeps_policy F fuel (sender s) _ ph)|].
    exists []. rewrite app_nil_r. split; [done|].
    destruct (WaitUntilBufferFrees _); [done|]. intros ->. done.
Qed.

Lemma run_conserves F fuel schedule : ∀ s s',
  run F fuel schedule s = Some s' →
  ∃ new, enqueued s' = enqueued s ++ new
    ∧ if WaitUntilBufferFrees (hook (machine s))
      then fired schedule ++ parked s ≡ₚ new ++ parked s'
      else parked s = [] → parked s' = [] ∧ new `sublist_of` fired schedule.
Proof.
  induction schedule as [|a rest IH]; intros s s'; cbn [run].
  { intros [= <-]. exists []. rewrite app_nil_r. split; [done|].
    destruct (WaitUntilBufferFrees _); [done|]. by intros ->. }
  destruct (step F fuel a s) as [s1|] eqn:Hstep; [|done].
  intros Hrun.
  destruct (step_conserves F fuel a s s1 Hstep) as (Hw & new1 & He1 & H1).
  destruct (IH s1 s' Hrun) as (new2 & He2 & H2).
  exists (new1 ++ new2). split; [by rewrite He2, He1, app_assoc|].
  replace (fired (a :: rest)) with (fired [a] ++ fired rest)
    by (by destruct a).
  rewrite Hw in H2.
  destruct (WaitUntilBufferFrees (hook (machine s))).
  - rewrite <- !app_assoc.
    etrans; [apply Permutation_app_swap_app|]. rewrite H1.
    etrans; [apply Permutation_app_swap_app|]. by rewrite H2.
  - intros Hp. destruct (H1 Hp) as [Hp1 Hs1].
    destruct (H2 Hp1) as [Hp' Hs2]. split; [done|]. by apply sublist_app.
Qed.

(** X21. Entries are accounted for.  With [WaitUntilBufferFrees] nothing
    passed to [Fire] is lost or duplicated: in any interleaving of
    producers, wake-ups and sender turns, the entries passed so far are,
    up to order, the entries enqueued since the start together with those
    whose callers are still waiting.  Without it no caller ever waits,
    and the entries enqueued are a subsequence of the entries passed, in
    the order of the calls. *)
Theorem entries_accounted_for F fuel schedule h σ n s' :
  run F fuel schedule (boot h σ n) = Some s' →
  ∃ new, enqueued s' = buf (fireChannel h) ++ new
    ∧ if WaitUntilBufferFrees h
      then fired schedule ≡ₚ new ++ parked s'
      else parked s' = [] ∧ new `sublist_of` fired schedule.
Proof.
  intros Hrun.
  destruct (run_conserves F fuel schedule _ _ Hrun) as (new & He & H).
  exists new. split; [done|]. simpl in H.
  destruct (WaitUntilBufferFrees h).
  - by rewrite app_nil_r in H.
  - by apply H.
Qed.

Lemma entries_accounted_for_witness :
  let h := waitingHook in
  let σ : gmap loc logrus.Entry :=
    {[1%positive := fireTestEntry; 2%positive := badEntry]} in
  let schedule := [ActFire 1%positive; ActFire 2%positive; ActFire 1%positive;
                   ActSender; ActSender; ActWake 1] in
  ∃ s', run messageFormatter 1 schedule (boot h σ steadyNet) = Some s'
    ∧ ∃ new, enqueued s' = buf (fireChannel h) ++ new
        ∧ if WaitUntilBufferFrees h
          then fired schedule ≡ₚ new ++ parked s'
          else parked s' = [] ∧ new `sublist_of` fired schedule.
Proof.
  intros h σ schedule. eexists. split; [vm_compute; reflexivity|].
  apply (entries_accounted_for messageFormatter 1 schedule h σ steadyNet).
  vm_compute. reflexivity.
Defined.

(** ** Where the retries are written *)

Lemma reconnectTrace_no_write h n k : ∀ d i,
  writeTargets (reconnectTrace h n d i k) = [].
Proof.
  induction k as [|k IH]; intros d i; simpl; [done|].
  destruct (dialResult n d); [|done]. simpl. apply IH.
Qed.

Lemma afterSend_targets data ks : ∀ i m c,
  sendScript m data i ks →
  conn (hook m) = Some c →
  ∃ attempts errs,
    length attempts = length ks ∧ length errs = length ks
    ∧ writeTargets (trace (afterSend m data i ks))
      = writeTargets (trace m)
        ++ zip (c :: (Dialled <$> attempts)) ((Some <$> errs) ++ [None])
    ∧ (∀ i j a b, attempts !! i = Some a → attempts !! j = Some b →
         i < j → a < b)
    ∧ Forall (λ a, dials (world m) ≤ a) attempts
    ∧ conn (hook (afterSend m data i ks)) = last (c :: (Dialled <$> attempts)).
Proof.
  induction ks as [|k ks IH]; intros i m c Hs Hc.
  - exists [], []. simpl. rewrite Hc. unfold trace, writeTargets. simpl.
    rewrite omap_app. split_and!; done.
  - destruct Hs as (_ & Hw & Hfail & Hok & Hs).
    destruct (writeResult (network (world m)) (writes (world m))) as [err|] eqn:E;
      [|done].
    cbn [afterSend]. set (m1 := reconnected (failedWrite m data i) 0 k) in *.
    assert (Hm1 : conn (hook m1) = Some (Dialled (dials (world m) + k))
                  ∧ dials (world m1) = dials (world m) + S k
                  ∧ writeTargets (trace m1)
                    = writeTargets (trace m) ++ [(c, Some err)]).
    { unfold m1, failedWrite. rewrite Hc, E. simpl. split_and!; try done.
      unfold trace, writeTargets. simpl. rewrite !omap_app.
      fold (writeTargets (reconnectTrace (hook m) (network (world m))
                            (dials (world m)) 0 k)).
      rewrite reconnectTrace_no_write. simpl. by rewrite app_nil_r. }
    destruct Hm1 as (Hc1 & Hd1 & Ht1).
    destruct (IH (S i) m1 _ Hs Hc1)
      as (attempts & errs & Hla & Hle & Ht & Hsorted & Hfrom & Hlast).
    rewrite Hd1 in Hfrom.
    exists ((dials (world m) + k) :: attempts), (err :: errs).
    split_and!.
    + simpl. lia.
    + simpl. lia.
    + rewrite Ht, Ht1, <- app_assoc. done.
    + intros [|i'] [|j'] a b Ha Hb Hij; try lia; simpl in Ha, Hb.
      * injection Ha as <-.
        pose proof (Forall_lookup_1 _ _ _ _ Hfrom Hb) as Hge. simpl in Hge. lia.
      * apply (Hsorted i' j'); [done..|lia].
    + constructor; [lia|].
      apply (Forall_impl _ _ _ Hfrom). intros a Ha. lia.
    + by rewrite Hlast.
Qed.

(** X22. A connection on which a write has failed is not written to
    again.  The writes of one [performSend] go, the first to the
    connection the hook held, every later one to the connection that the
    reconnect after the failed write before it has dialled; these are
    pairwise different, new connections.  Every write but the last
    failed, and the hook is left holding the connection of the write
    that succeeded. *)
Theorem retries_use_new_connections fuel data m u m' :
  performSend fuel data m = Done u m' →
  ∃ c attempts errs,
    conn (hook m) = Some c
    ∧ length attempts = length errs
    ∧ writeTargets (added m m')
      = zip (c :: (Dialled <$> attempts)) ((Some <$> errs) ++ [None])
    ∧ (∀ i j a b, attempts !! i = Some a → attempts !! j = Some b →
         i < j → a < b)
    ∧ Forall (λ a, dials (world m) ≤ a) attempts
    ∧ conn (hook m') = last (c :: (Dialled <$> attempts)).
Proof.
  intros H. apply performSend_done in H as (ks & _ & Hs & ->).
  destruct (withDeadline_frame m) as (Wh & _ & _ & Wd & _ & es0 & Wt & _).
  assert (Hc : is_Some (conn (hook m))).
  { rewrite <- Wh. destruct ks; simpl in Hs; apply Hs. }
  destruct Hc as [c Hc].
  assert (Hc' : conn (hook (withDeadline m)) = Some c) by (by rewrite Wh).
  destruct (afterSend_targets data ks 0 (withDeadline m) c Hs Hc')
    as (attempts & errs & Hla & Hle & Ht & Hsorted & Hfrom & Hlast).
  exists c, attempts, errs. rewrite Wd in Hfrom.
  split_and!; try done; [congruence|].
  assert (W0 : writeTargets (trace (withDeadline m)) = writeTargets (trace m)).
  { unfold withDeadline. destruct (0 <? Timeout (hook m))%Z; [|done].
    rewrite Hc. unfold trace, writeTargets. simpl.
    by rewrite omap_app, app_nil_r. }
  rewrite W0 in Ht.
  destruct (afterSend_loop data ks 0 (withDeadline m)) as (es & Hes & _).
  rewrite Wt, <- app_assoc in Hes.
  rewrite (added_app m _ _ Hes).
  rewrite Hes in Ht. unfold writeTargets in Ht at 1. rewrite omap_app in Ht.
  by apply app_inv_head in Ht.
Qed.

Lemma retries_use_new_connections_witness :
  let m := sampleMachine timeoutHook lossyNet in
  ∃ m' c attempts errs,
    performSend 3 (String.list_byte_of_string "hello world!") m = Done tt m'
    ∧ conn (hook m) = Some c
    ∧ length attempts = length errs
    ∧ writeTargets (added m m')
      = zip (c :: (Dialled <$> attempts)) ((Some <$> errs) ++ [None])
    ∧ (∀ i j a b, attempts !! i = Some a → attempts !! j = Some b →
         i < j → a < b)
    ∧ Forall (λ a, dials (world m) ≤ a) attempts
    ∧ conn (hook m') = last (c :: (Dialled <$> attempts)).
Proof.
  intros m. eexists.
  destruct (retries_use_new_connections 3
              (String.list_byte_of_string "hello world!") m tt _
              ltac:(vm_compute; reflexivity))
    as (c & attempts & errs & H).
  exists c, attempts, errs. split; [vm_compute; reflexivity|exact H].
Defined.

Example retries_on_lossy_network :
  let m := sampleMachine timeoutHook lossyNet in
  ∃ m', performSend 3 (String.list_byte_of_string "hello world!") m = Done tt m'
    ∧ writeTargets (added m m')
      = [ (Supplied 0, Some "broken pipe"); (Dialled 0, Some "broken pipe");
          (Dialled 1, None) ].
Proof. eexists. split; vm_compute; reflexivity. Qed.
